(** * Rolling update of a CockroachDB StatefulSet, one pod at a time

    A shallow embedding of [pkg/update/update.go]: the partitioned
    rolling-update strategy, its conflict retry, its verification poller,
    the error classifier [handleStsError] and the entry point
    [UpdateClusterRegionStatefulSet].

    The Kubernetes client, the verification function, the readiness wait
    and the health checker are function values the Go code receives from
    its caller.  They are embedded as transitions of an abstract [World]
    (the cluster, the clock, the context), and every call is recorded,
    with its answer, in a trace of events. *)

From Stdlib Require Import ZArith List Ascii String Bool Lia DecimalString Sorted.
Import ListNotations.
Open Scope Z_scope.

Notation "s1 +++ s2" := (String.append s1 s2)
  (at level 60, right associativity) : string_scope.

(** ** Kubernetes API errors *)

(** [metav1.StatusReason]: the reasons the update code tells apart, and a
    few of the others. *)
Inductive StatusReason : Type :=
| StatusReasonUnknown
| StatusReasonNotFound
| StatusReasonConflict
| StatusReasonAlreadyExists
| StatusReasonForbidden
| StatusReasonInvalid
| StatusReasonTimeout
| StatusReasonInternalError.

Definition StatusReason_eqb (a b : StatusReason) : bool :=
  match a, b with
  | StatusReasonUnknown, StatusReasonUnknown
  | StatusReasonNotFound, StatusReasonNotFound
  | StatusReasonConflict, StatusReasonConflict
  | StatusReasonAlreadyExists, StatusReasonAlreadyExists
  | StatusReasonForbidden, StatusReasonForbidden
  | StatusReasonInvalid, StatusReasonInvalid
  | StatusReasonTimeout, StatusReasonTimeout
  | StatusReasonInternalError, StatusReasonInternalError => true
  | _, _ => false
  end.

(** A non-nil Go [error] value.  A nil error is [None] of [option error]. *)
Inductive error : Type :=
| StatusError (reason : StatusReason) (message : string)
    (* *k8sErrors.StatusError, with ErrStatus.Reason and ErrStatus.Message *)
| errorString (text : string)
    (* any other error value *)
| withMessage (cause : error) (msg : string).
    (* the wrapper built by errors.Wrapf *)

(** [errors.Wrapf(err, format, args...)] on a non-nil [err]; the message is
    passed already formatted. *)
Definition Wrapf (err : error) (msg : string) : error := withMessage err msg.

(** [k8sErrors.ReasonForError]: the reason of the API status found in the
    error or in the chain of errors it wraps. *)
Fixpoint ReasonForError (err : error) : StatusReason :=
  match err with
  | StatusError reason _ => reason
  | errorString _ => StatusReasonUnknown
  | withMessage cause _ => ReasonForError cause
  end.

Definition IsNotFound (err : error) : bool :=
  StatusReason_eqb (ReasonForError err) StatusReasonNotFound.

Definition IsConflict (err : error) : bool :=
  StatusReason_eqb (ReasonForError err) StatusReasonConflict.

(** ** The StatefulSet model *)

(** [v1.RollingUpdateStatefulSetStrategy]; [Partition] is a [*int32]. *)
Record RollingUpdateStatefulSetStrategy : Type := {
  Partition : option Z
}.

(** The fields of [v1.StatefulSet] the update code reads or writes.
    [Replicas] is [Spec.Replicas], a [*int32]; [RollingUpdate] is
    [Spec.UpdateStrategy.RollingUpdate], a pointer as well. *)
Record StatefulSet : Type := {
  Name : string;
  Namespace : string;
  ResourceVersion : string;
  Replicas : option Z;
  RollingUpdate : option RollingUpdateStatefulSetStrategy
}.

(** [sts.Spec.UpdateStrategy.RollingUpdate =
      &v1.RollingUpdateStatefulSetStrategy{Partition: &partition}].
    The pointer is to the loop counter.  The object is sent to the store
    inside the same iteration, where the counter has the value stored
    here. *)
Definition setRollingUpdate (obj : StatefulSet) (partition : Z) : StatefulSet :=
  {| Name := Name obj;
     Namespace := Namespace obj;
     ResourceVersion := ResourceVersion obj;
     Replicas := Replicas obj;
     RollingUpdate := Some {| Partition := Some partition |} |}.

(** The partition cutoff an object carries. *)
Definition partitionOf (obj : StatefulSet) : option Z :=
  match RollingUpdate obj with
  | Some ru => Partition ru
  | None => None
  end.

(** Conversion to [int32], with the wrap-around of Go's arithmetic. *)
Definition int32 (z : Z) : Z := (z + 2147483648) mod 4294967296 - 2147483648.

Definition MaxInt32 : Z := 2147483647.

(** [%d] of [fmt]. *)
Definition itoa (z : Z) : string := NilZero.string_of_int (Z.to_int z).

(** ** Logging *)

(** A [logr.Logger], kept as the list of names given by [WithName]. *)
Definition Logger : Type := list string.

Definition WithName (l : Logger) (n : string) : Logger := l ++ [n].

(** A value of a key/value pair handed to the logger. *)
Inductive Value : Type :=
| VString (s : string)
| VInt (z : Z).

(** [zapcore.DebugLevel] *)
Definition DebugLevel : Z := -1.

(** ** Events *)

(** Where the verification function is called from: the check at the top
    of an iteration (line 176) or the poller (line 246). *)
Inductive VerifySite : Type := Precheck | Poll.

(** What a sleep waits for: the delay between two attempts of
    [retry.RetryOnConflict], or the interval the backoff policy returned. *)
Inductive Sleep : Type :=
| RetryStep
| BackOffInterval (d : Z).

(** One call to a collaborator, with its arguments and its answer. *)
Inductive Event : Type :=
| EvVerify (site : VerifySite) (podNumber : Z) (res : option error)
| EvWaitReady (res : option error)
| EvUpdate (ns : string) (obj : StatefulSet) (res : StatefulSet + error)
| EvGet (ns name : string) (res : StatefulSet + error)
| EvProbe (label : string) (ordinal : Z) (res : option error)
| EvUpdateFunc (obj : StatefulSet) (res : StatefulSet + error)
| EvBackOffReset
| EvNextBackOff (next : option Z)
| EvSleep (s : Sleep)
| EvLogInfo (l : Logger) (v : Z) (msg : string) (kvs : list (string * Value))
| EvLogError (l : Logger) (err : error) (msg : string) (kvs : list (string * Value)).

(** [wait.Backoff], of which the retry only uses the number of steps here. *)
Record Backoff : Type := {
  Steps : nat;
  Duration : Z;
  Jitter_percent : Z
}.

(** [retry.DefaultRetry]: five steps, 10ms apart, with 10% jitter. *)
Definition DefaultRetry : Backoff :=
  {| Steps := 5; Duration := 10000000; Jitter_percent := 10 |}.

(** The fields of [backoff.ExponentialBackOff] the poller sets; the others
    keep the defaults of [backoff.NewExponentialBackOff]. *)
Record ExponentialBackOff : Type := {
  MaxElapsedTime : Z;
  MaxInterval : Z
}.

Section Model.

Variable World : Type.

(** ** Computations *)

(** A call to a collaborator: an answer and the world after the call. *)
Definition Call (A : Type) : Type := World -> A * World.

(** How a computation ends: with a value, by a run-time panic (a nil
    pointer dereference), or without an answer within the fuel given to
    the unbounded polling loop. *)
Inductive Outcome (A : Type) : Type :=
| Done (a : A) (w : World) (tr : list Event)
| Panic (w : World) (tr : list Event)
| OutOfFuel.

Arguments Done {A} a w tr.
Arguments Panic {A} w tr.
Arguments OutOfFuel {A}.

(** A computation: from a world to an outcome and the events it emitted. *)
Definition M (A : Type) : Type := World -> Outcome A.

Definition ret {A : Type} (a : A) : M A := fun w => Done a w [].

Definition bind {A B : Type} (m : M A) (k : A -> M B) : M B :=
  fun w =>
    match m w with
    | Done a w1 t1 =>
        match k a w1 with
        | Done b w2 t2 => Done b w2 (t1 ++ t2)
        | Panic w2 t2 => Panic w2 (t1 ++ t2)
        | OutOfFuel => OutOfFuel
        end
    | Panic w1 t1 => Panic w1 t1
    | OutOfFuel => OutOfFuel
    end.

Definition panic {A : Type} : M A := fun w => Panic w [].

Definition outOfFuel {A : Type} : M A := fun _ => OutOfFuel.

(** Calls a collaborator and records the call. *)
Definition call {A : Type} (c : Call A) (ev : A -> Event) : M A :=
  fun w => let (a, w1) := c w in Done a w1 [ev a].

Definition emit (ev : Event) : M unit := fun w => Done tt w [ev].

Notation "x <- m ;; k" := (bind m (fun x => k))
  (at level 61, m at next level, right associativity).
Notation "m ;;; k" := (bind m (fun _ => k))
  (at level 61, right associativity).

(** ** The collaborators *)

(** [kubernetes.Interface], reduced to
    [AppsV1().StatefulSets(ns).Get(ctx, name, opts)] and
    [AppsV1().StatefulSets(ns).Update(ctx, sts, opts)].  A call returns the
    object or the error. *)
Record Clientset : Type := {
  stsGet : string -> string -> Call (StatefulSet + error);
  stsUpdate : string -> StatefulSet -> Call (StatefulSet + error)
}.

(** [healthchecker.HealthChecker] *)
Record HealthChecker : Type := {
  Probe : Logger -> string -> Z -> Call (option error)
}.

(** [UpdateSts]; the context lives in the world. *)
Record UpdateSts : Type := {
  clientset : Clientset;
  sts : StatefulSet;
  namespace : string;
  name : string
}.

(** [UpdateTimer]; durations are in nanoseconds. *)
Record UpdateTimer : Type := {
  podUpdateTimeout : Z;
  podMaxPollingInterval : Z;
  healthChecker : HealthChecker;
  waitUntilAllPodsReadyFunc : Logger -> Call (option error)
}.

Definition PerPodVerificationFunc : Type :=
  UpdateSts -> Z -> Logger -> Call (option error).

(** [updateFunctionSuite] *)
Record updateFunctionSuite : Type := {
  updateFunc : StatefulSet -> Call (StatefulSet + error);
  updateStrategyFunc : UpdateSts -> UpdateTimer -> Logger -> M (bool * option error)
}.

Definition NewUpdateFunctionSuite
    (updateFunc : StatefulSet -> Call (StatefulSet + error))
    (updateStrategyFunc : UpdateSts -> UpdateTimer -> Logger -> M (bool * option error))
  : updateFunctionSuite :=
  {| updateFunc := updateFunc; updateStrategyFunc := updateStrategyFunc |}.

(** What the two retry libraries take from the run time: the backoff
    policy of [backoff.ExponentialBackOff] (its clock and its random
    jitter are part of the world; [None] is [backoff.Stop]) and the
    passing of time while the goroutine sleeps. *)
Record Runtime : Type := {
  backoffReset : ExponentialBackOff -> World -> World;
  NextBackOff : ExponentialBackOff -> Call (option Z);
  timeSleep : Sleep -> World -> World
}.

Variable rt : Runtime.

Definition sleep (s : Sleep) : M unit :=
  fun w => Done tt (timeSleep rt s w) [EvSleep s].

Definition logInfo (l : Logger) (v : Z) (msg : string) (kvs : list (string * Value)) : M unit :=
  emit (EvLogInfo l v msg kvs).

Definition logError (l : Logger) (err : error) (msg : string) (kvs : list (string * Value)) : M unit :=
  emit (EvLogError l err msg kvs).

(** ** The error classifier *)

(** [handleStsError], called with a non-nil error.  The type assertion to
    a pointer to [k8sErrors.StatusError] holds for a status error itself,
    not for an error that wraps one. *)
Definition handleStsError (err : error) (l : Logger) (stsName ns : string) : M error :=
  if IsNotFound err then
    logError l err "sts is not found"
      [("stsName", VString stsName); ("namespace", VString ns)]%string ;;;
    ret (Wrapf err ("sts is not found: " +++ stsName +++ " ns: " +++ ns)%string)
  else
    match err with
    | StatusError _ message =>
        logError l err ("Error getting statefulset " +++ message)%string
          [("stsName", VString stsName); ("namespace", VString ns)]%string ;;;
        ret err
    | _ =>
        logError l err "error getting statefulset"
          [("stsName", VString stsName); ("namspace", VString ns)]%string ;;;
        ret err
    end.

(** ** The conflict retry *)

(** [retry.RetryOnConflict(backoff, fn)] of client-go, after its
    documented contract: [fn] runs at most [backoff.Steps] times; a nil
    answer ends the retry with nil, an error that is not a conflict ends it
    with that error, a conflict is retried after a sleep, and when the
    steps are used up the last conflict is returned. *)
Fixpoint OnConflict (steps : nat) (fn : M (option error)) (lastErr : option error)
  : M (option error) :=
  match steps with
  | O => ret lastErr
  | S steps' =>
      err <- fn ;;
      match err with
      | None => ret None
      | Some e =>
          if IsConflict e then
            match steps' with
            | O => ret (Some e)
            | S _ => sleep RetryStep ;;; OnConflict steps' fn (Some e)
            end
          else ret (Some e)
      end
  end.

Definition RetryOnConflict (backoff : Backoff) (fn : M (option error)) : M (option error) :=
  OnConflict (Steps backoff) fn None.

(** ** The verification poller *)

(** The loop of [backoff.Retry(o, b)], after its documented contract: the
    operation runs at least once; after a failure the policy is asked for
    the next interval; on [backoff.Stop] the last error of the operation
    is returned, otherwise the goroutine sleeps for the interval and the
    operation runs again.  The loop has no bound of its own, so the
    embedding takes fuel. *)
Fixpoint retryLoop (fuel : nat) (o : M (option error)) (b : ExponentialBackOff)
  : M (option error) :=
  match fuel with
  | O => outOfFuel
  | S fuel' =>
      err <- o ;;
      match err with
      | None => ret None
      | Some e =>
          next <- call (NextBackOff rt b) EvNextBackOff ;;
          match next with
          | None => ret (Some e)
          | Some d => sleep (BackOffInterval d) ;;; retryLoop fuel' o b
          end
      end
  end.

Definition Retry (fuel : nat) (o : M (option error)) (b : ExponentialBackOff)
  : M (option error) :=
  (fun w => Done tt (backoffReset rt b w) [EvBackOffReset]) ;;;
  retryLoop fuel o b.

Definition callVerify (site : VerifySite) (perPodVerificationFunc : PerPodVerificationFunc)
    (updateSts : UpdateSts) (podNumber : Z) (l : Logger) : M (option error) :=
  call (perPodVerificationFunc updateSts podNumber l) (EvVerify site podNumber).

(** [waitUntilPerPodVerificationFuncVerifies] *)
Definition waitUntilPerPodVerificationFuncVerifies (fuel : nat)
    (updateSts : UpdateSts) (perPodVerificationFunc : PerPodVerificationFunc)
    (podNumber : Z) (updateTimer : UpdateTimer) (l : Logger) : M (option error) :=
  let f := callVerify Poll perPodVerificationFunc updateSts podNumber l in
  let b := {| MaxElapsedTime := podUpdateTimeout updateTimer;
              MaxInterval := podMaxPollingInterval updateTimer |} in
  Retry fuel f b.

(** ** The partitioned rolling update *)

Definition callGet (c : Clientset) (ns nm : string) : M (StatefulSet + error) :=
  call (stsGet c ns nm) (EvGet ns nm).

Definition callUpdate (c : Clientset) (ns : string) (obj : StatefulSet)
  : M (StatefulSet + error) :=
  call (stsUpdate c ns obj) (EvUpdate ns obj).

(** The error of a Go pair [(value, err)]. *)
Definition errOf {A : Type} (r : A + error) : option error :=
  match r with
  | inl _ => None
  | inr e => Some e
  end.

(** The local variable [sts] of the strategy is a pointer: it starts as
    [updateSts.sts], the object the verification function also sees, and
    after the first re-fetch (line 226) it points to an object of its
    own. *)
Inductive StsRef : Type :=
| RefShared
| RefFetched (obj : StatefulSet).

Definition deref (updateSts : UpdateSts) (r : StsRef) : StatefulSet :=
  match r with
  | RefShared => sts updateSts
  | RefFetched obj => obj
  end.

Definition withSts (updateSts : UpdateSts) (obj : StatefulSet) : UpdateSts :=
  {| clientset := clientset updateSts;
     sts := obj;
     namespace := namespace updateSts;
     name := name updateSts |}.

(** The assignment of line 187, through the pointer. *)
Definition assignPartition (updateSts : UpdateSts) (r : StsRef) (partition : Z)
  : UpdateSts * StsRef :=
  match r with
  | RefShared => (withSts updateSts (setRollingUpdate (sts updateSts) partition), RefShared)
  | RefFetched obj => (updateSts, RefFetched (setRollingUpdate obj partition))
  end.

(** The variables that live across the iterations of the loop. *)
Record LoopState : Type := {
  ls_updateSts : UpdateSts;
  ls_sts : StsRef;
  skipSleep : bool
}.

(** How an iteration of the loop ends: [continue] or the end of the body,
    or a [return]. *)
Inductive LoopCtl : Type :=
| Continue (st : LoopState)
| Return (r : bool * option error).

(** The closure handed to [retry.RetryOnConflict] (lines 194 to 205). *)
Definition refetchAndUpdate (updateSts : UpdateSts) (stsNamespace stsName : string)
    (partition : Z) : M (option error) :=
  r <- callGet (clientset updateSts) stsNamespace stsName ;;
  match r with
  | inr err => ret (Some err)
  | inl fetched =>
      r <- callUpdate (clientset updateSts) stsNamespace (setRollingUpdate fetched partition) ;;
      ret (errOf r)
  end.

(** Lines 191 to 213: the update of the object, and on a conflict the
    retry that fetches the object again and sets the partition on it.  The
    answer is the error the strategy returns with, if any. *)
Definition persistPartition (updateSts : UpdateSts) (obj : StatefulSet) (l : Logger)
    (stsName stsNamespace : string) (partition : Z) : M (option error) :=
  r <- callUpdate (clientset updateSts) stsNamespace obj ;;
  match errOf r with
  | Some e =>
      if IsConflict e then
        err <- RetryOnConflict DefaultRetry
                 (refetchAndUpdate updateSts stsNamespace (Name obj) partition) ;;
        match err with
        | Some e' =>
            h <- handleStsError e' l stsName stsNamespace ;;
            ret (Some h)
        | None => ret None
        end
      else
        h <- handleStsError e l stsName stsNamespace ;;
        ret (Some h)
  | None => ret None
  end.

(** The body of the loop (lines 171 to 232) for one value of [partition]. *)
Definition iteration (fuel : nat) (perPodVerificationFunc : PerPodVerificationFunc)
    (updateTimer : UpdateTimer) (l : Logger) (partition : Z) (st : LoopState)
  : M LoopCtl :=
  let updateSts := ls_updateSts st in
  let stsName := Name (deref updateSts (ls_sts st)) in
  let stsNamespace := Namespace (deref updateSts (ls_sts st)) in
  err <- callVerify Precheck perPodVerificationFunc updateSts partition l ;;
  match err with
  | None =>
      logInfo l DebugLevel "already updated, skipping sleep"
        [("partition", VInt partition)]%string ;;;
      ret (Continue {| ls_updateSts := updateSts; ls_sts := ls_sts st; skipSleep := true |})
  | Some _ =>
      let skipSleep := false in
      err <- call (waitUntilAllPodsReadyFunc updateTimer l) EvWaitReady ;;
      match err with
      | Some e =>
          ret (Return (false, Some (Wrapf e "error while waiting for all pods to be ready")))
      | None =>
          let (updateSts, ref) := assignPartition updateSts (ls_sts st) partition in
          failed <- persistPartition updateSts (deref updateSts ref) l
                      stsName stsNamespace partition ;;
          match failed with
          | Some h => ret (Return (false, Some h))
          | None =>
              logInfo l DebugLevel "waiting until partition done updating"
                [("partition number:", VInt partition)]%string ;;;
              err <- waitUntilPerPodVerificationFuncVerifies fuel updateSts
                       perPodVerificationFunc partition updateTimer l ;;
              match err with
              | Some e =>
                  ret (Return (false,
                    Some (Wrapf e ("error while running verificationFunc on pod "
                                   +++ itoa partition)%string)))
              | None =>
                  r <- callGet (clientset updateSts) stsNamespace stsName ;;
                  match r with
                  | inr e =>
                      h <- handleStsError e l stsName stsNamespace ;;
                      ret (Return (false, Some h))
                  | inl fetched =>
                      err <- call (Probe (healthChecker updateTimer) l
                                     ("between updating pods for " +++ stsName)%string
                                     partition)
                                  (EvProbe ("between updating pods for " +++ stsName)%string
                                     partition) ;;
                      match err with
                      | Some e => ret (Return (skipSleep, Some e))
                      | None =>
                          ret (Continue {| ls_updateSts := updateSts;
                                           ls_sts := RefFetched fetched;
                                           skipSleep := skipSleep |})
                      end
                  end
              end
          end
      end
  end.

(** [for partition := *sts.Spec.Replicas - 1; partition >= 0; partition--]:
    with [remaining] ordinals left, the body runs for
    [partition = remaining - 1]; the counter is signed and leaves the loop
    at [-1]. *)
Fixpoint rolloutLoop (fuel : nat) (perPodVerificationFunc : PerPodVerificationFunc)
    (updateTimer : UpdateTimer) (l : Logger) (remaining : nat) (st : LoopState)
  : M (bool * option error) :=
  match remaining with
  | O => ret (skipSleep st, None)
  | S below =>
      ctl <- iteration fuel perPodVerificationFunc updateTimer l (Z.of_nat below) st ;;
      match ctl with
      | Continue st' => rolloutLoop fuel perPodVerificationFunc updateTimer l below st'
      | Return r => ret r
      end
  end.

(** The number of iterations of the loop that starts at [int32(replicas - 1)]. *)
Definition iterations (replicas : Z) : nat := Z.to_nat (int32 (replicas - 1) + 1).

(** [PartitionedRollingUpdateStrategy]; a nil [Spec.Replicas] panics at
    line 170. *)
Definition PartitionedRollingUpdateStrategy (fuel : nat)
    (perPodVerificationFunc : PerPodVerificationFunc)
  : UpdateSts -> UpdateTimer -> Logger -> M (bool * option error) :=
  fun updateSts updateTimer l =>
    match Replicas (sts updateSts) with
    | None => panic
    | Some replicas =>
        rolloutLoop fuel perPodVerificationFunc updateTimer l (iterations replicas)
          {| ls_updateSts := updateSts; ls_sts := RefShared; skipSleep := false |}
    end.

(** ** The entry point *)

(** [UpdateClusterRegionStatefulSet] *)
Definition UpdateClusterRegionStatefulSet
    (clientset : Clientset) (name namespace : string)
    (updateSuite : updateFunctionSuite)
    (waitUntilAllPodsReadyFunc : Logger -> Call (option error))
    (podUpdateTimeout podMaxPollingInterval : Z)
    (healthChecker : HealthChecker) (l : Logger) : M (bool * option error) :=
  let l := WithName l namespace in
  r <- callGet clientset namespace name ;;
  match r with
  | inr err =>
      h <- handleStsError err l name namespace ;;
      ret (false, Some h)
  | inl sts =>
      r <- call (updateFunc updateSuite sts) (EvUpdateFunc sts) ;;
      match r with
      | inr err =>
          ret (false, Some (Wrapf err ("error applying updateFunc to " +++ name
                                       +++ " " +++ namespace)%string))
      | inl sts =>
          let updateSts := {| clientset := clientset; sts := sts;
                              name := name; namespace := namespace |} in
          let updateTimer := {| podUpdateTimeout := podUpdateTimeout;
                                podMaxPollingInterval := podMaxPollingInterval;
                                healthChecker := healthChecker;
                                waitUntilAllPodsReadyFunc := waitUntilAllPodsReadyFunc |} in
          r <- updateStrategyFunc updateSuite updateSts updateTimer l ;;
          match r with
          | (_, Some err) =>
              ret (false, Some (Wrapf err ("error applying updateStrategyFunc to " +++ name
                                           +++ " " +++ namespace)%string))
          | (skipSleep, None) => ret (skipSleep, None)
          end
      end
  end.

End Model.

Arguments Done {World A} a w tr.
Arguments Panic {World A} w tr.
Arguments OutOfFuel {World A}.
Arguments ret {World A} _.
Arguments bind {World A B} _ _.
Arguments call {World A} _ _.
Arguments panic {World A}.
Arguments stsGet {World} _ _ _.
Arguments stsUpdate {World} _ _ _.
Arguments Probe {World} _ _ _ _.
Arguments clientset {World} _.
Arguments sts {World} _.
Arguments namespace {World} _.
Arguments name {World} _.
Arguments podUpdateTimeout {World} _.
Arguments podMaxPollingInterval {World} _.
Arguments healthChecker {World} _.
Arguments waitUntilAllPodsReadyFunc {World} _ _.
Arguments updateFunc {World} _ _.
Arguments updateStrategyFunc {World} _ _ _ _.
Arguments backoffReset {World} _ _ _.
Arguments NextBackOff {World} _ _.
Arguments timeSleep {World} _ _ _.
Arguments sleep {World} _ _.
Arguments logInfo {World} _ _ _ _.
Arguments logError {World} _ _ _ _.
Arguments handleStsError {World} _ _ _ _.
Arguments OnConflict {World} _ _ _ _.
Arguments RetryOnConflict {World} _ _ _.
Arguments retryLoop {World} _ _ _ _.
Arguments Retry {World} _ _ _ _.
Arguments callVerify {World} _ _ _ _ _.
Arguments waitUntilPerPodVerificationFuncVerifies {World} _ _ _ _ _ _ _.
Arguments callGet {World} _ _ _.
Arguments callUpdate {World} _ _ _.
Arguments deref {World} _ _.
Arguments withSts {World} _ _.
Arguments assignPartition {World} _ _ _.
Arguments ls_updateSts {World} _.
Arguments ls_sts {World} _.
Arguments skipSleep {World} _.
Arguments Continue {World} _.
Arguments Return {World} _.
Arguments refetchAndUpdate {World} _ _ _ _.
Arguments persistPartition {World} _ _ _ _ _ _ _.
Arguments iteration {World} _ _ _ _ _ _ _.
Arguments rolloutLoop {World} _ _ _ _ _ _ _.
Arguments PartitionedRollingUpdateStrategy {World} _ _ _ _ _ _.
Arguments UpdateClusterRegionStatefulSet {World} _ _ _ _ _ _ _ _ _.

(** ** What the classifier logs and returns *)

(** The log entry of [handleStsError], by branch. *)
Definition classifierLog (err : error) (l : Logger) (stsName ns : string) : Event :=
  if IsNotFound err then
    EvLogError l err "sts is not found"
      [("stsName", VString stsName); ("namespace", VString ns)]%string
  else
    match err with
    | StatusError _ message =>
        EvLogError l err ("Error getting statefulset " +++ message)%string
          [("stsName", VString stsName); ("namespace", VString ns)]%string
    | _ =>
        EvLogError l err "error getting statefulset"
          [("stsName", VString stsName); ("namspace", VString ns)]%string
    end.

(** The error [handleStsError] returns. *)
Definition classified (err : error) (stsName ns : string) : error :=
  if IsNotFound err
  then Wrapf err ("sts is not found: " +++ stsName +++ " ns: " +++ ns)%string
  else err.


(** ** Reading a trace *)

(** The update calls of a trace: the partition the object carried and the
    answer of the store. *)
Fixpoint writes (tr : list Event) : list (Z * (StatefulSet + error)) :=
  match tr with
  | [] => []
  | EvUpdate _ obj res :: tr' =>
      match partitionOf obj with
      | Some p => (p, res) :: writes tr'
      | None => writes tr'
      end
  | _ :: tr' => writes tr'
  end.

(** The partition values the store accepted, in the order of the calls. *)
Fixpoint acceptedWrites (tr : list Event) : list Z :=
  match tr with
  | [] => []
  | EvUpdate _ obj (inl _) :: tr' =>
      match partitionOf obj with
      | Some p => p :: acceptedWrites tr'
      | None => acceptedWrites tr'
      end
  | _ :: tr' => acceptedWrites tr'
  end.

(** The number of update calls of a trace. *)
Fixpoint updateCalls (tr : list Event) : nat :=
  match tr with
  | [] => O
  | EvUpdate _ _ _ :: tr' => S (updateCalls tr')
  | _ :: tr' => updateCalls tr'
  end.

(** The ordinal an event is about, if it is about one. *)
Definition ordinalOf (ev : Event) : option Z :=
  match ev with
  | EvVerify _ p _ => Some p
  | EvProbe _ p _ => Some p
  | EvUpdate _ obj _ => partitionOf obj
  | _ => None
  end.

(** An event of the middle of an iteration for [partition]: neither the
    check at its top, nor the readiness wait, nor the health probe, and
    about no other ordinal. *)
Definition inert (partition : Z) (ev : Event) : Prop :=
  match ev with
  | EvVerify Precheck _ _ => False
  | EvVerify Poll p _ => p = partition
  | EvWaitReady _ => False
  | EvProbe _ _ _ => False
  | EvUpdate _ obj _ => partitionOf obj = Some partition
  | EvUpdateFunc _ _ => False
  | _ => True
  end.

(** An inert event that is not an update call. *)
Definition quiet (partition : Z) (ev : Event) : Prop :=
  match ev with
  | EvUpdate _ _ _ => False
  | _ => inert partition ev
  end.

(** A health probe that failed, a readiness wait that failed. *)
Definition failedProbe (ev : Event) : Prop :=
  match ev with
  | EvProbe _ _ (Some _) => True
  | _ => False
  end.

Definition failedReady (ev : Event) : Prop :=
  match ev with
  | EvWaitReady (Some _) => True
  | _ => False
  end.

(** The ordinals an event may be about in a loop with [n] ordinals left. *)
Definition below (n : nat) (ev : Event) : Prop :=
  forall q, ordinalOf ev = Some q -> 0 <= q < Z.of_nat n.

(** The events of a retry for [partition]: every update call comes right
    after a fetch that went through and carries the fetched object with
    the partition set on it. *)
Inductive RetryTrace (ns nm : string) (partition : Z) : list Event -> Prop :=
| RetryDone : RetryTrace ns nm partition []
| RetryFetchFailed e rest :
    RetryTrace ns nm partition rest ->
    RetryTrace ns nm partition (EvGet ns nm (inr e) :: rest)
| RetryUpdate fetched res rest :
    RetryTrace ns nm partition rest ->
    RetryTrace ns nm partition
      (EvGet ns nm (inl fetched)
         :: EvUpdate ns (setRollingUpdate fetched partition) res :: rest)
| RetrySleep rest :
    RetryTrace ns nm partition rest ->
    RetryTrace ns nm partition (EvSleep RetryStep :: rest).

(** How two update calls in a row relate: after a conflict the same value
    is sent again, after an accepted update a lower one. *)
Definition followsOn (a b : Z * (StatefulSet + error)) : Prop :=
  match snd a with
  | inr e => IsConflict e = true /\ fst b = fst a
  | inl _ => fst b < fst a
  end.

(** What the update calls of a loop with [n] ordinals left look like. *)
Definition WritesInOrder (n : nat) (tr : list Event) : Prop :=
  Forall (fun x => 0 <= fst x < Z.of_nat n) (writes tr)
  /\ Sorted followsOn (writes tr)
  /\ StronglySorted Z.ge (map fst (writes tr))
  /\ StronglySorted Z.gt (acceptedWrites tr)
  /\ Forall (fun p => 0 <= p < Z.of_nat n) (acceptedWrites tr).

(** The ordinals below [n], from the highest down. *)
Fixpoint countdown (n : nat) : list Z :=
  match n with
  | O => []
  | S k => Z.of_nat k :: countdown k
  end.

(** What a loop that ends without an error has written: the ordinals it
    did not skip. *)
Definition WritesComplete (n : nat) (tr : list Event) : Prop :=
  (forall p, 0 <= p < Z.of_nat n ->
             (In p (acceptedWrites tr) <-> ~ In (EvVerify Precheck p None) tr))
  /\ ((forall p, ~ In (EvVerify Precheck p None) tr) ->
      acceptedWrites tr = countdown n).

(** The number of times the update of one ordinal is attempted: the call
    of line 191 and the steps of the retry. *)
Definition retryBudget : nat := S (Steps DefaultRetry).

(** ** A simulated cluster *)

(** A small world to run the code in: a store that answers a number of
    updates with a conflict and then accepts them (or fails with a given
    error), pods that take the new specification once the partition is at
    or below their ordinal, and a backoff policy that stops after a number
    of intervals. *)
Record Cluster : Type := {
  stored : StatefulSet;
  conflicts : nat;
  updateFailure : option error;
  getFailure : option error;
  upToDate : list Z;
  unready : option error;
  sick : option (Z * error);
  patience : nat
}.

Definition conflictError : error :=
  StatusError StatusReasonConflict "the object has been modified".

Definition simUpdate (ns : string) (obj : StatefulSet) : Call Cluster (StatefulSet + error) :=
  fun w =>
    match conflicts w with
    | S n =>
        (inr conflictError,
         {| stored := stored w; conflicts := n; updateFailure := updateFailure w;
            getFailure := getFailure w; upToDate := upToDate w; unready := unready w;
            sick := sick w; patience := patience w |})
    | O =>
        match updateFailure w with
        | Some e => (inr e, w)
        | None =>
            (inl obj,
             {| stored := obj; conflicts := O; updateFailure := None;
                getFailure := getFailure w; upToDate := upToDate w; unready := unready w;
                sick := sick w; patience := patience w |})
        end
    end.

Definition simGet (ns nm : string) : Call Cluster (StatefulSet + error) :=
  fun w =>
    match getFailure w with
    | Some e => (inr e, w)
    | None => (inl (stored w), w)
    end.

Definition simClientset : Clientset Cluster :=
  {| stsGet := simGet; stsUpdate := simUpdate |}.

Definition podUpdated (w : Cluster) (p : Z) : bool :=
  existsb (Z.eqb p) (upToDate w)
  || match partitionOf (stored w) with
     | Some q => q <=? p
     | None => false
     end.

Definition simVerify : PerPodVerificationFunc Cluster :=
  fun _ p _ w =>
    (if podUpdated w p then None else Some (errorString "pod is not updated"), w).

Definition simReady : Logger -> Call Cluster (option error) :=
  fun _ w => (unready w, w).

Definition simHealth : HealthChecker Cluster :=
  {| Probe := fun _ _ p w =>
       (match sick w with
        | Some (q, e) => if q =? p then Some e else None
        | None => None
        end, w) |}.

Definition simRuntime : Runtime Cluster :=
  {| backoffReset := fun _ w => w;
     NextBackOff := fun _ w =>
       match patience w with
       | O => (None, w)
       | S n =>
           (Some 500000000,
            {| stored := stored w; conflicts := conflicts w;
               updateFailure := updateFailure w; getFailure := getFailure w;
               upToDate := upToDate w; unready := unready w; sick := sick w;
               patience := n |})
       end;
     timeSleep := fun _ w => w |}.

Definition simSts (replicas : Z) : StatefulSet :=
  {| Name := "crdb"; Namespace := "db"; ResourceVersion := "1";
     Replicas := Some replicas; RollingUpdate := None |}.

Definition simCluster (replicas : Z) : Cluster :=
  {| stored := simSts replicas; conflicts := O; updateFailure := None;
     getFailure := None; upToDate := []; unready := None; sick := None;
     patience := 3 |}.

Definition simUpdateSts (replicas : Z) : UpdateSts Cluster :=
  {| clientset := simClientset; sts := simSts replicas;
     namespace := "db"; name := "crdb" |}.

Definition simTimer : UpdateTimer Cluster :=
  {| podUpdateTimeout := 600000000000; podMaxPollingInterval := 30000000000;
     healthChecker := simHealth; waitUntilAllPodsReadyFunc := simReady |}.

Definition simLogger : Logger := ["update"%string].

(** The strategy on the simulated cluster, with fuel for ten polls. *)
Definition simStrategy (replicas : Z) (w : Cluster) : Outcome Cluster (bool * option error) :=
  PartitionedRollingUpdateStrategy simRuntime 10 simVerify
    (simUpdateSts replicas) simTimer simLogger w.

Definition withConflicts (n : nat) (w : Cluster) : Cluster :=
  {| stored := stored w; conflicts := n; updateFailure := updateFailure w;
     getFailure := getFailure w; upToDate := upToDate w; unready := unready w;
     sick := sick w; patience := patience w |}.

(** A client of a store that only ever fails with conflicts. *)
Definition simConflictingClientset : Clientset Cluster :=
  {| stsGet := fun _ _ w => (inl (stored w), w);
     stsUpdate := fun _ obj w =>
       match conflicts w with
       | S n => (inr conflictError, withConflicts n w)
       | O =>
           (inl obj,
            {| stored := obj; conflicts := O; updateFailure := updateFailure w;
               getFailure := getFailure w; upToDate := upToDate w;
               unready := unready w; sick := sick w; patience := patience w |})
       end |}.

Definition simConflictingUpdateSts (replicas : Z) : UpdateSts Cluster :=
  {| clientset := simConflictingClientset; sts := simSts replicas;
     namespace := "db"; name := "crdb" |}.

(** An update function that leaves the object as it is, and a strategy
    that fails with the hint set. *)
Definition simUpdateFunc : StatefulSet -> Call Cluster (StatefulSet + error) :=
  fun obj w => (inl obj, w).

Definition simFailingStrategy
  : UpdateSts Cluster -> UpdateTimer Cluster -> Logger -> M Cluster (bool * option error) :=
  fun _ _ _ => ret (true, Some (errorString "rollout failed")).

Definition simController (suite : updateFunctionSuite Cluster) (w : Cluster)
  : Outcome Cluster (bool * option error) :=
  UpdateClusterRegionStatefulSet simClientset "crdb" "db" suite simReady
    600000000000 30000000000 simHealth simLogger w.

Definition traceOf {W A : Type} (o : Outcome W A) : list Event :=
  match o with
  | Done _ _ tr => tr
  | Panic _ tr => tr
  | OutOfFuel => []
  end.

Definition resultOf {W A : Type} (o : Outcome W A) : option A :=
  match o with
  | Done a _ _ => Some a
  | _ => None
  end.

Definition withUpToDate (l : list Z) (w : Cluster) : Cluster :=
  {| stored := stored w; conflicts := conflicts w; updateFailure := updateFailure w;
     getFailure := getFailure w; upToDate := l; unready := unready w;
     sick := sick w; patience := patience w |}.

Definition withUnready (e : error) (w : Cluster) : Cluster :=
  {| stored := stored w; conflicts := conflicts w; updateFailure := updateFailure w;
     getFailure := getFailure w; upToDate := upToDate w; unready := Some e;
     sick := sick w; patience := patience w |}.

Definition withSick (p : Z) (e : error) (w : Cluster) : Cluster :=
  {| stored := stored w; conflicts := conflicts w; updateFailure := updateFailure w;
     getFailure := getFailure w; upToDate := upToDate w; unready := unready w;
     sick := Some (p, e); patience := patience w |}.

(** ** The shape of one iteration *)

Section Shapes.

Variable World : Type.

(** The update calls of the middle of an iteration for [partition]: they
    all carry [partition], each follows on the one before, and the store
    accepts at most one of them. *)
Definition Attempts (partition : Z) (mid : list Event) : Prop :=
  Forall (inert partition) mid
  /\ Sorted followsOn (writes mid)
  /\ (acceptedWrites mid = [] \/ acceptedWrites mid = [partition])
  /\ (updateCalls mid <= retryBudget)%nat.

(** The update of [partition] went through: it is the last update call. *)
Definition Persisted (partition : Z) (mid : list Event) : Prop :=
  acceptedWrites mid = [partition]
  /\ exists ws a, writes mid = ws ++ [(partition, inl a)].

(** The ways an iteration for [partition] runs, with the events of each
    and the way it leaves the loop body. *)
Inductive IterationRun (l : Logger) (partition : Z) (st : LoopState World)
  : list Event -> LoopCtl World -> Prop :=
| RunSkipped :
    IterationRun l partition st
      [EvVerify Precheck partition None;
       EvLogInfo l DebugLevel "already updated, skipping sleep"
         [("partition"%string, VInt partition)]]
      (Continue {| ls_updateSts := ls_updateSts st; ls_sts := ls_sts st;
                   skipSleep := true |})
| RunUnready ve e :
    IterationRun l partition st
      [EvVerify Precheck partition (Some ve); EvWaitReady (Some e)]
      (Return (false, Some (Wrapf e "error while waiting for all pods to be ready")))
| RunFailed ve mid e :
    Attempts partition mid ->
    IterationRun l partition st
      (EvVerify Precheck partition (Some ve) :: EvWaitReady None :: mid)
      (Return (false, Some e))
| RunUnhealthy ve mid label e :
    Attempts partition mid ->
    Persisted partition mid ->
    In (EvVerify Poll partition None) mid ->
    IterationRun l partition st
      (EvVerify Precheck partition (Some ve) :: EvWaitReady None :: mid
         ++ [EvProbe label partition (Some e)])
      (Return (false, Some e))
| RunUpdated ve mid label st' :
    Attempts partition mid ->
    Persisted partition mid ->
    In (EvVerify Poll partition None) mid ->
    skipSleep st' = false ->
    IterationRun l partition st
      (EvVerify Precheck partition (Some ve) :: EvWaitReady None :: mid
         ++ [EvProbe label partition None])
      (Continue st').

(** A store that answers the next [pending w] update calls with a
    conflict and accepts the one after them; fetching succeeds, and
    neither fetching nor sleeping changes the number of conflicts to
    come. *)
Record ConflictingStore (rt : Runtime World) (c : Clientset World)
    (pending : World -> nat) : Prop := {
  update_conflict : forall ns obj w,
    (0 < pending w)%nat ->
    exists e, fst (stsUpdate c ns obj w) = inr e /\ IsConflict e = true
              /\ pending (snd (stsUpdate c ns obj w)) = pred (pending w);
  update_accepted : forall ns obj w,
    pending w = O -> exists a, fst (stsUpdate c ns obj w) = inl a;
  get_succeeds : forall ns nm w,
    (exists obj, fst (stsGet c ns nm w) = inl obj)
    /\ pending (snd (stsGet c ns nm w)) = pending w;
  sleep_keeps : forall s w, pending (timeSleep rt s w) = pending w
}.

End Shapes.

Arguments IterationRun {World} _ _ _ _ _.
Arguments ConflictingStore {World} _ _ _.

(** ** More readings of a trace *)

(** The ordinals checked at the top of an iteration, in order. *)
Fixpoint visited (tr : list Event) : list Z :=
  match tr with
  | [] => []
  | EvVerify Precheck p _ :: tr' => p :: visited tr'
  | _ :: tr' => visited tr'
  end.

(** The number of readiness waits that went through. *)
Fixpoint readyWaits (tr : list Event) : nat :=
  match tr with
  | [] => O
  | EvWaitReady None :: tr' => S (readyWaits tr')
  | _ :: tr' => readyWaits tr'
  end.

(** The ordinals the health checker was asked about, in order. *)
Fixpoint probed (tr : list Event) : list Z :=
  match tr with
  | [] => []
  | EvProbe _ p _ :: tr' => p :: probed tr'
  | _ :: tr' => probed tr'
  end.

(** The calls of the verification function made by the poller, the
    questions put to the backoff policy, and the sleeps between polls. *)
Fixpoint polls (tr : list Event) : nat :=
  match tr with
  | [] => O
  | EvVerify Poll _ _ :: tr' => S (polls tr')
  | _ :: tr' => polls tr'
  end.

Fixpoint backoffQueries (tr : list Event) : nat :=
  match tr with
  | [] => O
  | EvNextBackOff _ :: tr' => S (backoffQueries tr')
  | _ :: tr' => backoffQueries tr'
  end.

Fixpoint backoffSleeps (tr : list Event) : nat :=
  match tr with
  | [] => O
  | EvSleep (BackOffInterval _) :: tr' => S (backoffSleeps tr')
  | _ :: tr' => backoffSleeps tr'
  end.

(** The smallest [int32]. *)
Definition MinInt32 : Z := -2147483648.

(** An event of a skipped iteration: a check at the top that succeeded,
    or the debug line that says so. *)
Definition skipEvent (ev : Event) : Prop :=
  match ev with
  | EvVerify Precheck _ None => True
  | EvLogInfo _ _ _ _ => True
  | _ => False
  end.

(** * The release steps

    [hack/release/steps.go]: the steps of the release tool.  A step takes
    the version and returns an error or nil; the commands it runs and the
    files it writes go through functions the caller hands in. *)

(** ** Regular expressions *)

(** The regular expressions the version pattern is made of, over bytes.
    [Digit] is the class written \d, the ASCII digits. *)
Inductive regexp : Type :=
| Void
| Eps
| Byte (c : ascii)
| Digit
| Cat (r1 r2 : regexp)
| Alt (r1 r2 : regexp)
| Star (r : regexp).

(** [r+] and [r?], and a literal string. *)
Definition Plus (r : regexp) : regexp := Cat r (Star r).

Definition Opt (r : regexp) : regexp := Alt r Eps.

Fixpoint Lit (s : string) : regexp :=
  match s with
  | EmptyString => Eps
  | String c s' => Cat (Byte c) (Lit s')
  end.

Definition isDigit (c : ascii) : bool :=
  ((48 <=? nat_of_ascii c) && (nat_of_ascii c <=? 57))%nat.

(** The strings an expression matches in full. *)
Inductive Matches : regexp -> string -> Prop :=
| MatchEps : Matches Eps EmptyString
| MatchByte c : Matches (Byte c) (String c EmptyString)
| MatchDigit c : isDigit c = true -> Matches Digit (String c EmptyString)
| MatchCat r1 r2 s1 s2 :
    Matches r1 s1 -> Matches r2 s2 -> Matches (Cat r1 r2) (s1 +++ s2)%string
| MatchLeft r1 r2 s : Matches r1 s -> Matches (Alt r1 r2) s
| MatchRight r1 r2 s : Matches r2 s -> Matches (Alt r1 r2) s
| MatchNone r : Matches (Star r) EmptyString
| MatchMore r s1 s2 :
    Matches r s1 -> Matches (Star r) s2 -> Matches (Star r) (s1 +++ s2)%string.

(** Whether an expression matches the empty string, and what is left of
    it after one byte. *)
Fixpoint nullable (r : regexp) : bool :=
  match r with
  | Void => false
  | Eps => true
  | Byte _ => false
  | Digit => false
  | Cat r1 r2 => nullable r1 && nullable r2
  | Alt r1 r2 => nullable r1 || nullable r2
  | Star _ => true
  end.

Fixpoint deriv (r : regexp) (c : ascii) : regexp :=
  match r with
  | Void => Void
  | Eps => Void
  | Byte a => if Ascii.eqb a c then Eps else Void
  | Digit => if isDigit c then Eps else Void
  | Cat r1 r2 =>
      if nullable r1
      then Alt (Cat (deriv r1 c) r2) (deriv r2 c)
      else Cat (deriv r1 c) r2
  | Alt r1 r2 => Alt (deriv r1 c) (deriv r2 c)
  | Star r' => Cat (deriv r' c) (Star r')
  end.

(** [MatchString] of an expression anchored at both ends: the whole
    string has to match. *)
Fixpoint MatchString (r : regexp) (s : string) : bool :=
  match s with
  | EmptyString => nullable r
  | String c s' => MatchString (deriv r c) s'
  end.

(** The pattern of a version, between its two anchors:
    digits, a dot, digits, a dot, digits, and then perhaps [-beta.] and
    digits. *)
Definition versionRegxp : regexp :=
  Cat (Plus Digit)
    (Cat (Byte ".")
       (Cat (Plus Digit)
          (Cat (Byte ".")
             (Cat (Plus Digit)
                (Opt (Cat (Lit "-beta.") (Plus Digit))))))).

(** ** Strings *)

(** [strings.Contains] *)
Fixpoint Contains (s substr : string) : bool :=
  if String.prefix substr s then true
  else match s with
       | EmptyString => false
       | String _ s' => Contains s' substr
       end.

(** The line feed. *)
Definition newline : ascii := ascii_of_nat 10.

(** [strings.Split(s, sep)] for a separator of one byte. *)
Fixpoint Split (s : string) (sep : ascii) : list string :=
  match s with
  | EmptyString => [EmptyString]
  | String c s' =>
      if Ascii.eqb c sep then EmptyString :: Split s' sep
      else match Split s' sep with
           | first :: rest => String c first :: rest
           | [] => [String c EmptyString]
           end
  end.

(** The text of an error, as [%s] prints it: the message of a status
    error, the text of a plain error, and for a wrapped error its message,
    a colon and the text of its cause. *)
Fixpoint ErrorText (err : error) : string :=
  match err with
  | StatusError _ message => message
  | errorString text => text
  | withMessage cause msg => (msg +++ ": " +++ ErrorText cause)%string
  end.

(** ** The steps *)

Section Release.

Variable World : Type.

(** [Step], with [Apply] as the application. *)
Definition Step : Type := string -> Call World (option error).

(** An [exec.Cmd] as built by [exec.Command]. *)
Record Cmd : Type := {
  cmdName : string;
  cmdArgs : list string
}.

Definition Command (name : string) (args : list string) : Cmd :=
  {| cmdName := name; cmdArgs := args |}.

(** What running a command leaves: the bytes written to its [Stdout] and
    to its [Stderr], and the error. *)
Record CmdRun : Type := {
  stdoutBytes : string;
  stderrBytes : string;
  runError : option error
}.

(** [CmdFn] and [ExecFn] *)
Definition CmdFn : Type := Cmd -> Call World CmdRun.

Definition ExecFn : Type := string -> list string -> list string -> Call World (option error).

(** What the steps take from the operating system: [os.Environ] and
    [ioutil.WriteFile]. *)
Record Os : Type := {
  Environ : World -> list string;
  WriteFile : string -> string -> Z -> Call World (option error)
}.

(** [ValidateVersion] *)
Definition ValidateVersion : Step :=
  fun version w =>
    if negb (MatchString versionRegxp version)
    then (Some (errorString ("invalid version '" +++ version
                             +++ "'. Must be of the form N.N.N(-beta.N)")%string), w)
    else (None, w).

(** The loop of [EnsureUniqueVersion] over the lines of the output. *)
Fixpoint versionTaken (lines : list string) (version : string) : option error :=
  match lines with
  | [] => None
  | v :: rest =>
      match v with
      | EmptyString => versionTaken rest version
      | String _ tail =>
          if String.eqb tail version
          then Some (errorString "version already exists")
          else versionTaken rest version
      end
  end.

(** [EnsureUniqueVersion] *)
Definition EnsureUniqueVersion (fn : CmdFn) : Step :=
  fun version w =>
    let (run, w1) := fn (Command "git" ["tag"%string]) w in
    match runError run with
    | Some err =>
        (Some (errorString ("failed to get tags: " +++ stderrBytes run +++ " - "
                            +++ ErrorText err)%string), w1)
    | None => (versionTaken (Split (stdoutBytes run) newline) version, w1)
    end.

(** [UpdateVersion]; the mode is 0644. *)
Definition UpdateVersion (os : Os) : Step :=
  fun version => WriteFile os "version.txt" version 420.

(** [CreateReleaseBranch] *)
Definition CreateReleaseBranch (os : Os) (fn : ExecFn) : Step :=
  fun version w =>
    fn "git"%string
      ["checkout"; "-b"; "release-" +++ version; "origin/master"]%string
      (Environ os w) w.

(** [GenerateFiles] *)
Definition GenerateFiles (os : Os) (fn : ExecFn) : Step :=
  fun version w =>
    let (ch, isDefault) :=
      if Contains version "-beta" then ("beta", "0")%string else ("stable", "1")%string in
    fn "make"%string
      ["release/gen-files"; "CHANNEL=" +++ ch; "IS_DEFAULT_CHANNEL=" +++ isDefault]%string
      (Environ os w) w.

End Release.

Arguments Environ {World} _ _.
Arguments WriteFile {World} _ _ _ _.
Arguments ValidateVersion {World} _ _.
Arguments EnsureUniqueVersion {World} _ _ _.
Arguments UpdateVersion {World} _ _.
Arguments CreateReleaseBranch {World} _ _ _.
Arguments GenerateFiles {World} _ _ _.

(** ** The form of a version *)

Fixpoint allDigits (s : string) : bool :=
  match s with
  | EmptyString => true
  | String c s' => isDigit c && allDigits s'
  end.

(** A number as the pattern reads it: one digit or more. *)
Definition digitString (s : string) : Prop := s <> EmptyString /\ allDigits s = true.

Definition stableVersion (a b c : string) : string :=
  (a +++ "." +++ b +++ "." +++ c)%string.

Definition betaVersion (a b c d : string) : string :=
  (stableVersion a b c +++ "-beta." +++ d)%string.

(** The lines of a text: each followed by a line feed. *)
Fixpoint unlines (lines : list string) : string :=
  match lines with
  | [] => EmptyString
  | line :: rest => (line +++ String newline (unlines rest))%string
  end.

Fixpoint noByte (c : ascii) (s : string) : bool :=
  match s with
  | EmptyString => true
  | String a s' => negb (Ascii.eqb a c) && noByte c s'
  end.

(** The two forms of a version: [N.N.N] and [N.N.N-beta.N]. *)
Definition versionForm (version : string) : Prop :=
  exists a b c,
    digitString a /\ digitString b /\ digitString c
    /\ (version = stableVersion a b c
        \/ exists d, digitString d /\ version = betaVersion a b c d).


(** ** A simulated host

    The host the release steps run on in the examples: a repository with
    its tags, a [git] that lists them or fails, and a shell that records
    the commands it is given. *)
Record Host : Type := {
  repoTags : list string;
  gitFailure : option (string * error);
  environment : list string;
  executed : list (string * list string)
}.

Definition simGit : CmdFn Host :=
  fun _ w =>
    match gitFailure w with
    | Some (complaint, e) =>
        ({| stdoutBytes := EmptyString; stderrBytes := complaint; runError := Some e |}, w)
    | None =>
        ({| stdoutBytes := unlines (repoTags w); stderrBytes := EmptyString;
            runError := None |}, w)
    end.

Definition simExec : ExecFn Host :=
  fun cmd args _ w =>
    (None,
     {| repoTags := repoTags w; gitFailure := gitFailure w; environment := environment w;
        executed := executed w ++ [(cmd, args)] |}).

Definition simOs : Os Host :=
  {| Environ := environment; WriteFile := fun _ _ _ w => (None, w) |}.

Definition simHost (tags : list string) : Host :=
  {| repoTags := tags; gitFailure := None; environment := ["HOME=/root"%string];
     executed := [] |}.

(** ** The objects sent to the store *)

(** Whether each update call of a trace carries the object of the latest
    fetch that went through before it, with a partition set on it;
    [latest] is that object where the trace begins, if there is one. *)
Fixpoint sendsLatest (latest : option StatefulSet) (tr : list Event) : Prop :=
  match tr with
  | [] => True
  | EvGet _ _ (inl fetched) :: tr' => sendsLatest (Some fetched) tr'
  | EvUpdate _ obj _ :: tr' =>
      (exists base p, latest = Some base /\ obj = setRollingUpdate base p)
      /\ sendsLatest latest tr'
  | _ :: tr' => sendsLatest latest tr'
  end.

(** The object of the latest fetch that went through, at the end of a
    trace. *)
Fixpoint lastFetched (latest : option StatefulSet) (tr : list Event) : option StatefulSet :=
  match tr with
  | [] => latest
  | EvGet _ _ (inl fetched) :: tr' => lastFetched (Some fetched) tr'
  | _ :: tr' => lastFetched latest tr'
  end.

(** An event that is no call of the store. *)
Definition offline (ev : Event) : Prop :=
  match ev with
  | EvUpdate _ _ _ => False
  | EvGet _ _ _ => False
  | _ => True
  end.

(** What the update calls of a loop send, by what [sts] points to when
    the loop begins. *)
Definition LoopSends {World : Type} (st : LoopState World) (tr : list Event) : Prop :=
  match ls_sts st with
  | RefShared =>
      let obj := sts (ls_updateSts st) in
      Forall offline tr
      \/ exists pre p res post,
           tr = pre ++ EvUpdate (Namespace obj) (setRollingUpdate obj p) res :: post
           /\ Forall offline pre /\ sendsLatest None post
  | RefFetched f => sendsLatest (Some f) tr
  end.

(** * Properties *)

(** ** Traces *)

Lemma writes_app (t1 t2 : list Event) : writes (t1 ++ t2) = writes t1 ++ writes t2.
Proof.
  induction t1 as [|ev t1 IH]; [reflexivity|].
  destruct ev; simpl; try exact IH.
  destruct (partitionOf obj); simpl; now rewrite IH.
Qed.

Lemma acceptedWrites_app (t1 t2 : list Event) :
  acceptedWrites (t1 ++ t2) = acceptedWrites t1 ++ acceptedWrites t2.
Proof.
  induction t1 as [|ev t1 IH]; [reflexivity|].
  destruct ev; simpl; try exact IH.
  destruct res; [|exact IH].
  destruct (partitionOf obj); simpl; now rewrite IH.
Qed.

Lemma updateCalls_app (t1 t2 : list Event) :
  updateCalls (t1 ++ t2) = (updateCalls t1 + updateCalls t2)%nat.
Proof.
  induction t1 as [|ev t1 IH]; [reflexivity|].
  destruct ev; simpl; now rewrite ?IH.
Qed.

Lemma inert_writes (k : Z) (tr : list Event) :
  Forall (inert k) tr -> Forall (fun x => fst x = k) (writes tr).
Proof.
  induction 1 as [|ev tr Hev _ IH]; [constructor|].
  destruct ev; simpl in *; try exact IH.
  rewrite Hev. constructor; [reflexivity | exact IH].
Qed.

Lemma inert_writes_length (k : Z) (tr : list Event) :
  Forall (inert k) tr -> List.length (writes tr) = updateCalls tr.
Proof.
  induction 1 as [|ev tr Hev _ IH]; [reflexivity|].
  destruct ev; simpl in *; try exact IH.
  rewrite Hev. simpl. now rewrite IH.
Qed.

Lemma inert_ordinal (k : Z) (tr : list Event) :
  Forall (inert k) tr ->
  Forall (fun ev => forall q, ordinalOf ev = Some q -> q = k) tr.
Proof.
  intros H. eapply Forall_impl; [|exact H].
  intros ev Hev q Hq. destruct ev; simpl in *; try discriminate.
  - destruct site; [contradiction|]. congruence.
  - congruence.
  - contradiction.
Qed.

Lemma quiet_inert (k : Z) (tr : list Event) :
  Forall (quiet k) tr -> Forall (inert k) tr.
Proof.
  intros H. eapply Forall_impl; [|exact H].
  intros ev Hev. destruct ev; simpl in *; tauto.
Qed.

Lemma quiet_writes (k : Z) (tr : list Event) :
  Forall (quiet k) tr ->
  writes tr = [] /\ acceptedWrites tr = [] /\ updateCalls tr = O.
Proof.
  induction 1 as [|ev tr Hev _ IH]; [now repeat split|].
  destruct ev; simpl in *; try exact IH. contradiction.
Qed.

(** Two sorted lists joined stay sorted when the last of the first relates
    to the head of the second. *)
Lemma Sorted_app {A : Type} (R : A -> A -> Prop) (l1 l2 : list A) :
  Sorted R l1 -> Sorted R l2 ->
  (forall pre a b post, l1 = pre ++ [a] -> l2 = b :: post -> R a b) ->
  Sorted R (l1 ++ l2).
Proof.
  induction l1 as [|x l1 IH]; intros H1 H2 Hlink; [exact H2|].
  inversion H1 as [|? ? Hs Hh]; subst. simpl. constructor.
  - apply IH; [exact Hs | exact H2 |].
    intros pre a b post -> ->. eapply (Hlink (x :: pre)); reflexivity.
  - destruct l1 as [|y l1]; simpl.
    + destruct l2 as [|b l2]; constructor.
      eapply (Hlink []); reflexivity.
    + inversion Hh; subst. now constructor.
Qed.

(** Where an element with a property sits, after a prefix without it. *)
Lemma split_after {A : Type} (P : A -> Prop) (l0 l1 pre post : list A) (x : A) :
  Forall (fun a => ~ P a) l0 ->
  l0 ++ l1 = pre ++ x :: post -> P x ->
  exists pre', pre = l0 ++ pre' /\ l1 = pre' ++ x :: post.
Proof.
  revert pre. induction l0 as [|a l0 IH]; intros pre H0 Heq Hx.
  - now exists pre.
  - inversion H0 as [|? ? Ha H0']; subst.
    destruct pre as [|b pre]; simpl in Heq; injection Heq as -> Heq.
    + contradiction.
    + destruct (IH pre H0' Heq Hx) as (pre' & -> & ->). now exists pre'.
Qed.

Lemma not_among {A : Type} (P : A -> Prop) (l pre post : list A) (x : A) :
  Forall (fun a => ~ P a) l -> l = pre ++ x :: post -> P x -> False.
Proof.
  intros H -> Hx. rewrite Forall_forall in H. apply (H x); [apply in_elt | exact Hx].
Qed.

Lemma StronglySorted_app {A : Type} (R : A -> A -> Prop) (l1 l2 : list A) :
  StronglySorted R l1 -> StronglySorted R l2 ->
  (forall a b, In a l1 -> In b l2 -> R a b) ->
  StronglySorted R (l1 ++ l2).
Proof.
  induction l1 as [|x l1 IH]; intros H1 H2 H; [exact H2|].
  inversion H1 as [|? ? Hs Hf]; subst. simpl. constructor.
  - apply IH; [exact Hs | exact H2 |]. intros a b Ha Hb. apply H; [now right | exact Hb].
  - apply Forall_app. split; [exact Hf|].
    rewrite Forall_forall. intros b Hb. apply H; [now left | exact Hb].
Qed.

Lemma StronglySorted_constant (k : Z) (l : list Z) :
  Forall (fun x => x = k) l -> StronglySorted Z.ge l.
Proof.
  induction 1 as [|x l Hx Hl IH]; constructor; [exact IH|].
  subst. eapply Forall_impl; [|exact Hl]. intros a ->. lia.
Qed.

Section Proofs.

Variable World : Type.
Variable rt : Runtime World.

(** ** Computations *)

Lemma bind_Done {A B : Type} (m : M World A) (k : A -> M World B) w b w' tr :
  bind m k w = Done b w' tr ->
  exists a w1 t1 t2,
    m w = Done a w1 t1 /\ k a w1 = Done b w' t2 /\ tr = t1 ++ t2.
Proof.
  unfold bind. destruct (m w) as [a w1 t1| |]; try discriminate.
  destruct (k a w1) as [b' w2 t2| |] eqn:Hk; try discriminate.
  intros [= -> -> <-]. now exists a, w1, t1, t2.
Qed.

Lemma bind_run {A B : Type} (m : M World A) (k : A -> M World B) w a w1 t1 :
  m w = Done a w1 t1 ->
  bind m k w =
  match k a w1 with
  | Done b w2 t2 => Done b w2 (t1 ++ t2)
  | Panic w2 t2 => Panic w2 (t1 ++ t2)
  | OutOfFuel => OutOfFuel
  end.
Proof. unfold bind. now intros ->. Qed.

Lemma call_run {A : Type} (c : Call World A) (ev : A -> Event) w :
  call c ev w = Done (fst (c w)) (snd (c w)) [ev (fst (c w))].
Proof. unfold call. now destruct (c w). Qed.

(** ** The error classifier *)

Lemma handleStsError_run err l stsName ns (w : World) :
  handleStsError err l stsName ns w =
  Done (classified err stsName ns) w [classifierLog err l stsName ns].
Proof.
  unfold handleStsError, classified, classifierLog.
  destruct (IsNotFound err); [reflexivity|].
  destruct err; reflexivity.
Qed.

(** ** The conflict retry *)

(** One run of the closure of the retry: a fetch, and after a fetch that
    went through one update that carries the partition. *)
Lemma refetchAndUpdate_run u ns nm k (w : World) :
  exists r w1 t,
    refetchAndUpdate u ns nm k w = Done r w1 t
    /\ Forall (inert k) t
    /\ ((exists e, r = Some e /\ writes t = [] /\ acceptedWrites t = []
                   /\ updateCalls t = O)
        \/ (exists res, r = errOf res /\ writes t = [(k, res)]
                        /\ acceptedWrites t = match res with inl _ => [k] | inr _ => [] end
                        /\ updateCalls t = 1%nat)).
Proof.
  unfold refetchAndUpdate, callGet, callUpdate.
  rewrite (bind_run _ _ _ _ _ _ (call_run _ _ _)).
  destruct (stsGet (clientset u) ns nm w) as [[fetched|e] w1]; simpl.
  - rewrite (bind_run _ _ _ _ _ _ (call_run _ _ _)).
    destruct (stsUpdate (clientset u) ns (setRollingUpdate fetched k) w1) as [res w2]; simpl.
    do 3 eexists. split; [reflexivity|]. split.
    + repeat constructor.
    + right. exists res. repeat split.
  - do 3 eexists. split; [reflexivity|]. split.
    + repeat constructor.
    + left. exists e. repeat split.
Qed.

Lemma followsOn_conflict_cons k e ws :
  IsConflict e = true ->
  Forall (fun x => fst x = k) ws ->
  Sorted followsOn ws ->
  Sorted followsOn ((k, inr e) :: ws).
Proof.
  intros He Hk Hs. constructor; [exact Hs|].
  destruct ws as [|b ws]; constructor.
  inversion Hk; subst. unfold followsOn; simpl. now split.
Qed.

Lemma OnConflict_attempts steps u ns nm k last (w : World) r w' tr :
  OnConflict rt steps (refetchAndUpdate u ns nm k) last w = Done r w' tr ->
  Forall (inert k) tr
  /\ Sorted followsOn (writes tr)
  /\ (updateCalls tr <= steps)%nat
  /\ match r with
     | None =>
         (steps = O /\ last = None /\ tr = [])
         \/ (acceptedWrites tr = [k] /\ exists ws a, writes tr = ws ++ [(k, inl a)])
     | Some e => acceptedWrites tr = []
     end.
Proof.
  revert last w r w' tr.
  induction steps as [|steps IH]; intros last w r w' tr H.
  - simpl in H. injection H as <- <- <-.
    repeat split; try constructor.
    destruct last; [reflexivity | now left].
  - simpl in H.
    destruct (refetchAndUpdate_run u ns nm k w) as (r1 & w1 & t1 & Hfn & Hin & Hcase).
    rewrite (bind_run _ _ _ _ _ _ Hfn) in H.
    assert (Hw1 : Forall (fun x => fst x = k) (writes t1)) by now apply inert_writes.
    destruct r1 as [e|].
    + destruct (IsConflict e) eqn:Hconf.
      * destruct steps as [|steps'].
        -- simpl in H. injection H as <- <- <-. rewrite app_nil_r.
           repeat split; try assumption.
           ++ destruct Hcase as [(e' & _ & -> & _)|(res & _ & -> & _)];
                repeat constructor.
           ++ destruct Hcase as [(e' & _ & _ & _ & ->)|(res & _ & _ & _ & ->)]; lia.
           ++ destruct Hcase as [(e' & _ & _ & -> & _)|(res & Hr & _ & -> & _)];
                [reflexivity|].
              destruct res; [discriminate | reflexivity].
        -- unfold sleep in H at 1.
           rewrite (bind_run _ _ _ _ _ _ eq_refl) in H.
           destruct (OnConflict rt (S steps') _ (Some e) _) as [r2 w2 t2| |] eqn:Hrec;
             try discriminate.
           simpl in H. injection H as <- <- <-.
           apply IH in Hrec. destruct Hrec as (Hin2 & Hs2 & Hc2 & Hr2).
           assert (Hw2 : Forall (fun x => fst x = k) (writes t2)) by now apply inert_writes.
           assert (Hacc1 : acceptedWrites t1 = []).
           { destruct Hcase as [(e' & _ & _ & -> & _)|(res & Hr & _ & -> & _)];
               [reflexivity|].
             destruct res; [discriminate | reflexivity]. }
           assert (Hwr : writes (t1 ++ EvSleep RetryStep :: t2) = writes t1 ++ writes t2).
           { now rewrite writes_app. }
           assert (Hac : acceptedWrites (t1 ++ EvSleep RetryStep :: t2) = acceptedWrites t2).
           { rewrite acceptedWrites_app, Hacc1. reflexivity. }
           assert (Huc : updateCalls (t1 ++ EvSleep RetryStep :: t2)
                         = (updateCalls t1 + updateCalls t2)%nat).
           { now rewrite updateCalls_app. }
           repeat split.
           ++ apply Forall_app. split; [exact Hin|]. constructor; [exact I | exact Hin2].
           ++ rewrite Hwr.
              destruct Hcase as [(e' & _ & -> & _)|(res & Hr & -> & _)]; [exact Hs2|].
              destruct res as [a|e']; [discriminate|]. injection Hr as <-.
              now apply followsOn_conflict_cons.
           ++ rewrite Huc.
              destruct Hcase as [(e' & _ & _ & _ & ->)|(res & _ & _ & _ & ->)]; lia.
           ++ destruct r2 as [e2|].
              ** now rewrite Hac.
              ** destruct Hr2 as [(Hz & _)|(Ha2 & ws & a & Hws)]; [discriminate|].
                 right. split; [now rewrite Hac|].
                 exists (writes t1 ++ ws), a. now rewrite Hwr, Hws, app_assoc.
      * simpl in H. injection H as <- <- <-. rewrite app_nil_r.
        repeat split; try assumption.
        -- destruct Hcase as [(e' & _ & -> & _)|(res & _ & -> & _)]; repeat constructor.
        -- destruct Hcase as [(e' & _ & _ & _ & ->)|(res & _ & _ & _ & ->)]; lia.
        -- destruct Hcase as [(e' & _ & _ & -> & _)|(res & Hr & _ & -> & _)];
             [reflexivity|].
           destruct res; [discriminate | reflexivity].
    + simpl in H. injection H as <- <- <-. rewrite app_nil_r.
      destruct Hcase as [(e' & He & _)|(res & Hr & Hwr & Hac & Huc)]; [discriminate|].
      destruct res as [a|e']; [|discriminate].
      repeat split; try assumption.
      * rewrite Hwr. repeat constructor.
      * lia.
      * right. split; [exact Hac|]. exists [], a. exact Hwr.
Qed.

Lemma Attempts_quiet k t1 t2 :
  Attempts k t1 -> Forall (quiet k) t2 -> Attempts k (t1 ++ t2).
Proof.
  intros (Hin & Hs & Hacc & Hcalls) Hq.
  destruct (quiet_writes _ _ Hq) as (Hw & Ha & Hu).
  unfold Attempts.
  rewrite writes_app, acceptedWrites_app, updateCalls_app, Hw, Ha, Hu, !app_nil_r.
  repeat split; try assumption.
  - apply Forall_app. split; [exact Hin | now apply quiet_inert].
  - lia.
Qed.

Lemma Persisted_quiet k t1 t2 :
  Persisted k t1 -> Forall (quiet k) t2 -> Persisted k (t1 ++ t2).
Proof.
  intros (Hacc & ws & a & Hws) Hq.
  destruct (quiet_writes _ _ Hq) as (Hw & Ha & _).
  unfold Persisted. rewrite writes_app, acceptedWrites_app, Hw, Ha, !app_nil_r.
  split; [exact Hacc|]. now exists ws, a.
Qed.

(** The update of one ordinal and its retry: the update calls all carry
    the partition, and without an error the store accepted the last. *)
Lemma persistPartition_attempts u obj l stsName ns k (w : World) r w' tr :
  partitionOf obj = Some k ->
  persistPartition rt u obj l stsName ns k w = Done r w' tr ->
  Attempts k tr
  /\ match r with
     | None => Persisted k tr
     | Some _ => acceptedWrites tr = []
     end.
Proof.
  intros Hobj H. unfold persistPartition in H.
  apply bind_Done in H. destruct H as (res & w1 & t1 & t2 & Hupd & H & ->).
  unfold callUpdate in Hupd. rewrite call_run in Hupd. injection Hupd as <- <- <-.
  destruct (fst (stsUpdate (clientset u) ns obj w)) as [a|e]; simpl in H.
  - injection H as <- <- <-. unfold Attempts, Persisted, retryBudget. simpl.
    rewrite Hobj. simpl. repeat split.
    + repeat constructor. exact Hobj.
    + repeat constructor.
    + now right.
    + lia.
    + now exists [], a.
  - destruct (IsConflict e) eqn:Hconf.
    + apply bind_Done in H. destruct H as (r2 & w2 & t2' & t3 & Hretry & H & ->).
      apply OnConflict_attempts in Hretry.
      destruct Hretry as (Hin & Hs & Hcalls & Hr2).
      assert (Hw2 : Forall (fun x => fst x = k) (writes t2')) by now apply inert_writes.
      destruct r2 as [e2|].
      * rewrite (bind_run _ _ _ _ _ _ (handleStsError_run _ _ _ _ _)) in H.
        simpl in H. injection H as <- <- <-.
        replace ([EvUpdate ns obj (inr e)] ++ t2' ++ [classifierLog e2 l stsName ns])
          with ((EvUpdate ns obj (inr e) :: t2') ++ [classifierLog e2 l stsName ns])
          by reflexivity.
        assert (Hq : Forall (quiet k) [classifierLog e2 l stsName ns]).
        { constructor; [|constructor]. unfold classifierLog.
          destruct (IsNotFound e2); [exact I|]. destruct e2; exact I. }
        destruct (quiet_writes _ _ Hq) as (_ & Ha & _).
        split.
        -- apply Attempts_quiet; [|exact Hq].
           unfold Attempts, retryBudget. simpl. rewrite Hobj. repeat split.
           ++ constructor; [exact Hobj | exact Hin].
           ++ now apply followsOn_conflict_cons.
           ++ left. exact Hr2.
           ++ simpl in Hcalls. lia.
        -- rewrite acceptedWrites_app, Ha, app_nil_r. simpl. exact Hr2.
      * simpl in H. injection H as <- <- <-. rewrite app_nil_r.
        destruct Hr2 as [(Hz & _)|(Hacc & ws & a & Hws)]; [discriminate|].
        unfold Attempts, Persisted, retryBudget. simpl. rewrite Hobj. repeat split.
        -- constructor; [exact Hobj | exact Hin].
        -- now apply followsOn_conflict_cons.
        -- right. exact Hacc.
        -- simpl in Hcalls. lia.
        -- exact Hacc.
        -- exists ((k, inr e) :: ws), a. now rewrite Hws.
    + rewrite (bind_run _ _ _ _ _ _ (handleStsError_run _ _ _ _ _)) in H.
      simpl in H. injection H as <- <- <-.
      assert (Hq : Forall (quiet k) [classifierLog e l stsName ns]).
      { constructor; [|constructor]. unfold classifierLog.
        destruct (IsNotFound e); [exact I|]. destruct e; exact I. }
      destruct (quiet_writes _ _ Hq) as (_ & Ha & _).
      split.
      * apply (Attempts_quiet k [EvUpdate ns obj (inr e)]); [|exact Hq].
        unfold Attempts, retryBudget. simpl. rewrite Hobj. repeat split.
        -- repeat constructor. exact Hobj.
        -- repeat constructor.
        -- now left.
        -- lia.
      * simpl. exact Ha.
Qed.

Lemma conflict_classified e stsName ns :
  IsConflict e = true -> classified e stsName ns = e.
Proof.
  unfold IsConflict, classified, IsNotFound.
  destruct (ReasonForError e) eqn:Hr; simpl; intros H; try discriminate. reflexivity.
Qed.

Lemma refetchAndUpdate_pending u ns nm k pending :
  ConflictingStore rt (clientset u) pending ->
  forall w : World,
    exists r w1 t,
      refetchAndUpdate u ns nm k w = Done r w1 t
      /\ updateCalls t = 1%nat
      /\ (pending w = O -> r = None)
      /\ (forall m, pending w = S m ->
                    (exists e, r = Some e /\ IsConflict e = true) /\ pending w1 = m).
Proof.
  intros Hstore w. unfold refetchAndUpdate, callGet, callUpdate.
  rewrite (bind_run _ _ _ _ _ _ (call_run _ _ _)).
  destruct (get_succeeds _ _ _ _ Hstore ns nm w) as ((fetched & Hget) & Hsame).
  rewrite Hget.
  rewrite (bind_run _ _ _ _ _ _ (call_run _ _ _)).
  set (w1 := snd (stsGet (clientset u) ns nm w)) in *.
  set (obj := setRollingUpdate fetched k).
  simpl. do 3 eexists. split; [reflexivity|]. split; [reflexivity|].
  rewrite <- Hsame. split.
  - intros Hp. destruct (update_accepted _ _ _ _ Hstore ns obj w1 Hp) as (a & ->).
    reflexivity.
  - intros m Hp.
    destruct (update_conflict _ _ _ _ Hstore ns obj w1 ltac:(lia)) as (e & -> & He & Hm).
    rewrite Hp in Hm. split; [now exists e | exact Hm].
Qed.

(** The retry against a store with a number of conflicts to come: it
    ends with the update accepted when the steps outnumber the conflicts,
    and with the last conflict when they do not. *)
Lemma OnConflict_pending u ns nm k pending :
  ConflictingStore rt (clientset u) pending ->
  forall steps last (w : World),
    (match last with Some e => IsConflict e = true | None => (1 <= steps)%nat end) ->
    exists r w' tr,
      OnConflict rt steps (refetchAndUpdate u ns nm k) last w = Done r w' tr
      /\ ((pending w < steps)%nat -> r = None /\ updateCalls tr = S (pending w))
      /\ ((steps <= pending w)%nat ->
          (exists e, r = Some e /\ IsConflict e = true) /\ updateCalls tr = steps).
Proof.
  intros Hstore. induction steps as [|steps IH]; intros last w Hlast.
  - destruct last as [e|]; [|lia].
    exists (Some e), w, []. split; [reflexivity|]. split; [lia|].
    intros _. split; [now exists e | reflexivity].
  - cbn [OnConflict].
    destruct (refetchAndUpdate_pending u ns nm k pending Hstore w)
      as (r1 & w1 & t1 & Hfn & Hone & Hzero & Hsucc).
    rewrite (bind_run _ _ _ _ _ _ Hfn).
    destruct (pending w) as [|m] eqn:Hpend.
    + rewrite (Hzero eq_refl). simpl. do 3 eexists. split; [reflexivity|].
      rewrite app_nil_r. split; [now split | lia].
    + destruct (Hsucc m eq_refl) as ((e & -> & He) & Hm). rewrite He.
      destruct steps as [|steps'].
      * simpl. do 3 eexists. split; [reflexivity|]. rewrite app_nil_r.
        split; [lia|]. intros _. split; [now exists e | exact Hone].
      * unfold sleep at 1. rewrite (bind_run _ _ _ _ _ _ eq_refl).
        destruct (IH (Some e) (timeSleep rt RetryStep w1) He)
          as (r & w' & tr & Hrun & Hlt & Hge).
        rewrite Hrun. rewrite sleep_keeps with (1 := Hstore) in Hlt, Hge.
        rewrite Hm in Hlt, Hge. simpl.
        do 3 eexists. split; [reflexivity|].
        split.
        -- intros H. destruct (Hlt ltac:(lia)) as (-> & Hc). split; [reflexivity|].
           rewrite updateCalls_app. simpl. lia.
        -- intros H. destruct (Hge ltac:(lia)) as (He' & Hc). split; [exact He'|].
           rewrite updateCalls_app. simpl. lia.
Qed.

Lemma OnConflict_short_circuit steps (fn : M World (option error)) last w e w1 t :
  fn w = Done (Some e) w1 t -> IsConflict e = false ->
  OnConflict rt (S steps) fn last w = Done (Some e) w1 t.
Proof.
  intros Hfn He. cbn [OnConflict]. rewrite (bind_run _ _ _ _ _ _ Hfn), He.
  simpl. now rewrite app_nil_r.
Qed.

Lemma refetchAndUpdate_trace u ns nm k (w : World) r w1 t :
  refetchAndUpdate u ns nm k w = Done r w1 t ->
  (exists e, t = [EvGet ns nm (inr e)])
  \/ (exists fetched res,
         t = [EvGet ns nm (inl fetched); EvUpdate ns (setRollingUpdate fetched k) res]).
Proof.
  unfold refetchAndUpdate, callGet, callUpdate. intros H.
  apply bind_Done in H. destruct H as (got & w2 & t1 & t2 & Hg & H & ->).
  rewrite call_run in Hg. injection Hg as <- <- <-.
  destruct (fst (stsGet (clientset u) ns nm w)) as [fetched|e].
  - apply bind_Done in H. destruct H as (res & w3 & t3 & t4 & Hu & H & ->).
    rewrite call_run in Hu. injection Hu as <- <- <-. injection H as <- <- <-.
    right. do 2 eexists. reflexivity.
  - injection H as <- <- <-. left. eexists. reflexivity.
Qed.

Lemma OnConflict_RetryTrace steps u ns nm k last (w : World) r w' tr :
  OnConflict rt steps (refetchAndUpdate u ns nm k) last w = Done r w' tr ->
  RetryTrace ns nm k tr.
Proof.
  revert last w r w' tr.
  induction steps as [|steps IH]; intros last w r w' tr H.
  - injection H as <- <- <-. constructor.
  - cbn [OnConflict] in H.
    apply bind_Done in H. destruct H as (r1 & w1 & t1 & t2 & Hfn & H & ->).
    assert (Hrest : RetryTrace ns nm k t2).
    { destruct r1 as [e|]; [|injection H as <- <- <-; constructor].
      destruct (IsConflict e); [|injection H as <- <- <-; constructor].
      destruct steps as [|steps']; [injection H as <- <- <-; constructor|].
      apply bind_Done in H. destruct H as ([] & w2 & t3 & t4 & Hs & H & ->).
      injection Hs as <- <-. apply RetrySleep. eapply IH. exact H. }
    apply refetchAndUpdate_trace in Hfn.
    destruct Hfn as [(e & ->)|(fetched & res & ->)].
    + now apply RetryFetchFailed.
    + now apply RetryUpdate.
Qed.

Lemma persistPartition_refetches u obj l stsName ns k (w : World) w' tr :
  persistPartition rt u obj l stsName ns k w = Done None w' tr ->
  exists first rest,
    tr = EvUpdate ns obj first :: rest /\ RetryTrace ns (Name obj) k rest.
Proof.
  intros H. unfold persistPartition in H.
  apply bind_Done in H. destruct H as (res & w1 & t1 & t2 & Hupd & H & ->).
  unfold callUpdate in Hupd. rewrite call_run in Hupd. injection Hupd as <- <- <-.
  exists (fst (stsUpdate (clientset u) ns obj w)), t2. split; [reflexivity|].
  destruct (fst (stsUpdate (clientset u) ns obj w)) as [a|e]; simpl in H.
  - injection H as <- <-. constructor.
  - destruct (IsConflict e).
    + apply bind_Done in H. destruct H as (r2 & w2 & t3 & t4 & Hretry & H & ->).
      apply OnConflict_RetryTrace in Hretry.
      destruct r2 as [e2|].
      * rewrite (bind_run _ _ _ _ _ _ (handleStsError_run _ _ _ _ _)) in H. discriminate.
      * injection H as <- <-. now rewrite app_nil_r.
    + rewrite (bind_run _ _ _ _ _ _ (handleStsError_run _ _ _ _ _)) in H. discriminate.
Qed.

Lemma persistPartition_pending u obj l stsName ns k pending (w : World) :
  ConflictingStore rt (clientset u) pending ->
  exists r w' tr,
    persistPartition rt u obj l stsName ns k w = Done r w' tr
    /\ ((pending w < retryBudget)%nat -> r = None /\ updateCalls tr = S (pending w))
    /\ ((retryBudget <= pending w)%nat ->
        (exists e, r = Some e /\ IsConflict e = true) /\ updateCalls tr = retryBudget).
Proof.
  intros Hstore. unfold persistPartition, callUpdate, retryBudget.
  rewrite (bind_run _ _ _ _ _ _ (call_run _ _ _)).
  destruct (pending w) as [|m] eqn:Hpend.
  - destruct (update_accepted _ _ _ _ Hstore ns obj w Hpend) as (a & ->).
    simpl. do 3 eexists. split; [reflexivity|]. split; [now split | lia].
  - destruct (update_conflict _ _ _ _ Hstore ns obj w ltac:(lia)) as (e & -> & He & Hm).
    rewrite Hpend in Hm. simpl in Hm. cbn [errOf]. rewrite He.
    unfold RetryOnConflict.
    destruct (OnConflict_pending u ns (Name obj) k pending Hstore
                (Steps DefaultRetry) None (snd (stsUpdate (clientset u) ns obj w))
                ltac:(simpl; lia))
      as (r & w' & tr & Hrun & Hlt & Hge).
    rewrite Hm in Hlt, Hge.
    rewrite (bind_run _ _ _ _ _ _ Hrun).
    destruct (Nat.lt_ge_cases m (Steps DefaultRetry)) as [Hcmp|Hcmp].
    + destruct (Hlt Hcmp) as (-> & Hc). simpl.
      do 3 eexists. split; [reflexivity|]. split; [|simpl in *; lia].
      intros _. split; [reflexivity|]. rewrite app_nil_r. simpl. now rewrite Hc.
    + destruct (Hge Hcmp) as ((e' & -> & He') & Hc).
      rewrite (bind_run _ _ _ _ _ _ (handleStsError_run _ _ _ _ _)). simpl.
      do 3 eexists. split; [reflexivity|]. split; [simpl in *; lia|].
      intros _. split.
      * exists (classified e' stsName ns). split; [reflexivity|].
        now rewrite conflict_classified.
      * cbn [updateCalls]. rewrite updateCalls_app, Hc.
        unfold classifierLog. destruct (IsNotFound e'); [simpl; lia|].
        destruct e'; simpl; lia.
Qed.


(** ** The verification poller *)

Lemma retryLoop_quiet fuel v u k l b (w : World) r w' tr :
  retryLoop rt fuel (callVerify Poll v u k l) b w = Done r w' tr ->
  Forall (quiet k) tr /\ (r = None -> In (EvVerify Poll k None) tr).
Proof.
  revert w r w' tr. induction fuel as [|fuel IH]; intros w r w' tr H; [discriminate|].
  simpl in H.
  apply bind_Done in H. destruct H as (err & w1 & t1 & t2 & Hv & H & ->).
  unfold callVerify in Hv. rewrite call_run in Hv. injection Hv as <- <- <-.
  destruct (fst (v u k l w)) as [e|].
  - apply bind_Done in H. destruct H as (next & w2 & t3 & t4 & Hn & H & ->).
    rewrite call_run in Hn. injection Hn as <- <- <-.
    destruct (fst (NextBackOff rt b _)) as [d|].
    + apply bind_Done in H. destruct H as ([] & w3 & t5 & t6 & Hs & H & ->).
      unfold sleep in Hs. injection Hs as <- <-.
      apply IH in H. destruct H as (Hq & Hin). split.
      * repeat (constructor; [simpl; auto|]). exact Hq.
      * intros Hr. right. right. right. now apply Hin.
    + injection H as <- <- <-. split; [|discriminate].
      repeat (constructor; [simpl; auto|]). constructor.
  - injection H as <- <- <-. split.
    + repeat (constructor; [simpl; auto|]). constructor.
    + intros _. now left.
Qed.

(** The poller ends on a verification that succeeded, or, when the
    backoff policy stops, with the error of the last verification. *)
Lemma retryLoop_last_poll fuel v u k l b (w : World) r w' tr :
  retryLoop rt fuel (callVerify Poll v u k l) b w = Done r w' tr ->
  exists pre,
    tr = pre ++ match r with
                | None => [EvVerify Poll k None]
                | Some e => [EvVerify Poll k (Some e); EvNextBackOff None]
                end.
Proof.
  revert w r w' tr. induction fuel as [|fuel IH]; intros w r w' tr H; [discriminate|].
  cbn [retryLoop] in H.
  apply bind_Done in H. destruct H as (err & w1 & t1 & t2 & Hv & H & ->).
  unfold callVerify in Hv. rewrite call_run in Hv. injection Hv as <- <- <-.
  destruct (fst (v u k l w)) as [e|].
  - apply bind_Done in H. destruct H as (next & w2 & t3 & t4 & Hn & H & ->).
    rewrite call_run in Hn. injection Hn as <- <- <-.
    destruct (fst (NextBackOff rt b _)) as [d|].
    + apply bind_Done in H. destruct H as ([] & w3 & t5 & t6 & Hs & H & ->).
      unfold sleep in Hs. injection Hs as <- <-.
      apply IH in H. destruct H as (pre & ->).
      exists (EvVerify Poll k (Some e) :: EvNextBackOff (Some d)
                :: EvSleep (BackOffInterval d) :: pre). reflexivity.
    + injection H as <- <- <-. now exists [].
  - injection H as <- <- <-. now exists [].
Qed.

Lemma poller_quiet fuel u v k timer l (w : World) r w' tr :
  waitUntilPerPodVerificationFuncVerifies rt fuel u v k timer l w = Done r w' tr ->
  Forall (quiet k) tr /\ (r = None -> In (EvVerify Poll k None) tr).
Proof.
  unfold waitUntilPerPodVerificationFuncVerifies, Retry. intros H.
  apply bind_Done in H. destruct H as ([] & w1 & t1 & t2 & Hreset & H & ->).
  injection Hreset as <- <-.
  apply retryLoop_quiet in H. destruct H as (Hq & Hin). split.
  - constructor; [exact I | exact Hq].
  - intros Hr. right. now apply Hin.
Qed.

(** ** One iteration *)

Lemma assignPartition_partition (u : UpdateSts World) ref k :
  partitionOf (deref (fst (assignPartition u ref k)) (snd (assignPartition u ref k)))
  = Some k.
Proof. destruct ref; reflexivity. Qed.

Lemma classifierLog_quiet k e l stsName ns : quiet k (classifierLog e l stsName ns).
Proof.
  unfold classifierLog. destruct (IsNotFound e); [exact I|]. destruct e; exact I.
Qed.

Lemma IterationRun_trace l k (st : LoopState World) tr tr' ctl :
  IterationRun l k st tr ctl -> tr = tr' -> IterationRun l k st tr' ctl.
Proof. now intros H <-. Qed.

(** Every run of the loop body has one of the five shapes. *)
Lemma iteration_run fuel v timer l k st (w : World) ctl w' tr :
  iteration rt fuel v timer l k st w = Done ctl w' tr ->
  IterationRun l k st tr ctl.
Proof.
  intros H. unfold iteration in H.
  apply bind_Done in H. destruct H as (pre & w1 & t1 & t2 & Hv & H & ->).
  unfold callVerify in Hv. rewrite call_run in Hv. injection Hv as <- <- <-.
  destruct (fst (v (ls_updateSts st) k l w)) as [ve|].
  2:{ injection H as <- <- <-. apply RunSkipped. }
  apply bind_Done in H. destruct H as (ready & w2 & t3 & t4 & Hr & H & ->).
  rewrite call_run in Hr. injection Hr as <- <- <-.
  destruct (fst (waitUntilAllPodsReadyFunc timer l _)) as [e|].
  { injection H as <- <- <-. apply RunUnready. }
  pose proof (assignPartition_partition (ls_updateSts st) (ls_sts st) k) as Hpart.
  destruct (assignPartition (ls_updateSts st) (ls_sts st) k) as [u' ref'].
  simpl in Hpart.
  apply bind_Done in H. destruct H as (failed & w3 & tp & t5 & Hp & H & ->).
  apply (persistPartition_attempts _ _ _ _ _ _ _ _ _ _ Hpart) in Hp.
  destruct Hp as (Hatt & Hres).
  destruct failed as [h|].
  { injection H as <- <- <-.
    eapply IterationRun_trace; [apply (RunFailed _ l k st ve tp h Hatt)|].
    simpl. now rewrite app_nil_r. }
  apply bind_Done in H. destruct H as ([] & w4 & t6 & t7 & Hl & H & ->).
  injection Hl as <- <-.
  apply bind_Done in H. destruct H as (verr & w5 & tv & t8 & Hpoll & H & ->).
  apply poller_quiet in Hpoll. destruct Hpoll as (Hq & Hok).
  set (waiting := EvLogInfo l DebugLevel "waiting until partition done updating"
                    [("partition number:"%string, VInt k)]) in *.
  assert (Hq1 : Forall (quiet k) (waiting :: tv)) by (constructor; [exact I | exact Hq]).
  destruct verr as [e|].
  { injection H as <- <- <-.
    eapply IterationRun_trace;
      [apply (RunFailed _ l k st ve (tp ++ waiting :: tv) _
                (Attempts_quiet _ _ _ Hatt Hq1))|].
    simpl. now rewrite app_nil_r. }
  apply bind_Done in H. destruct H as (got & w6 & tg & t9 & Hg & H & ->).
  unfold callGet in Hg. rewrite call_run in Hg. injection Hg as <- <- <-.
  set (stsName := Name (deref (ls_updateSts st) (ls_sts st))) in *.
  set (ns := Namespace (deref (ls_updateSts st) (ls_sts st))) in *.
  set (got := fst (stsGet (clientset u') ns stsName w5)) in *.
  assert (Hq2 : Forall (quiet k) (waiting :: tv ++ [EvGet ns stsName got])).
  { constructor; [exact I|]. apply Forall_app. split; [exact Hq|].
    constructor; [exact I | constructor]. }
  destruct got as [fetched|e] eqn:Hgot.
  2:{ rewrite (bind_run _ _ _ _ _ _ (handleStsError_run _ _ _ _ _)) in H.
      injection H as <- <- <-.
      assert (Hq3 : Forall (quiet k)
                      ((waiting :: tv ++ [EvGet ns stsName (inr e)])
                         ++ [classifierLog e l stsName ns])).
      { apply Forall_app. split; [exact Hq2|].
        constructor; [apply classifierLog_quiet | constructor]. }
      eapply IterationRun_trace;
        [apply (RunFailed _ l k st ve _ _ (Attempts_quiet _ _ _ Hatt Hq3))|].
      simpl. rewrite <- !app_assoc. simpl. reflexivity. }
  apply bind_Done in H. destruct H as (perr & w7 & tb & t10 & Hb & H & ->).
  rewrite call_run in Hb. injection Hb as <- <- <-.
  assert (Hin : In (EvVerify Poll k None)
                  (tp ++ waiting :: tv ++ [EvGet ns stsName (inl fetched)])).
  { apply in_or_app. right. right. apply in_or_app. left. now apply Hok. }
  destruct (fst (Probe (healthChecker timer) l _ k _)) as [e|].
  - injection H as <- <- <-.
    eapply IterationRun_trace;
      [apply (RunUnhealthy _ l k st ve _ ("between updating pods for " +++ stsName)%string
                e (Attempts_quiet _ _ _ Hatt Hq2)
                (Persisted_quiet _ _ _ Hres Hq2) Hin)|].
    simpl. rewrite <- !app_assoc. simpl. rewrite <- !app_assoc. reflexivity.
  - injection H as <- <- <-.
    eapply IterationRun_trace;
      [apply (RunUpdated _ l k st ve _ ("between updating pods for " +++ stsName)%string
                _ (Attempts_quiet _ _ _ Hatt Hq2)
                (Persisted_quiet _ _ _ Hres Hq2) Hin)|].
    + reflexivity.
    + simpl. rewrite <- !app_assoc. simpl. rewrite <- !app_assoc. reflexivity.
Qed.

(** ** What the shapes say *)

Lemma run_frame (k : Z) ve ready mid label res :
  writes (EvVerify Precheck k ve :: EvWaitReady ready :: mid ++ [EvProbe label k res])
  = writes mid
  /\ acceptedWrites
       (EvVerify Precheck k ve :: EvWaitReady ready :: mid ++ [EvProbe label k res])
     = acceptedWrites mid
  /\ updateCalls
       (EvVerify Precheck k ve :: EvWaitReady ready :: mid ++ [EvProbe label k res])
     = updateCalls mid.
Proof.
  simpl. rewrite writes_app, acceptedWrites_app, updateCalls_app.
  simpl. rewrite !app_nil_r. repeat split. lia.
Qed.

Lemma run_writes l k (st : LoopState World) tr ctl :
  IterationRun l k st tr ctl ->
  Sorted followsOn (writes tr)
  /\ Forall (fun x => fst x = k) (writes tr)
  /\ (acceptedWrites tr = [] \/ acceptedWrites tr = [k])
  /\ (updateCalls tr <= retryBudget)%nat.
Proof.
  unfold retryBudget.
  destruct 1 as [|ve e|ve mid e Ha|ve mid label e Ha _ _|ve mid label st' Ha _ _ _].
  - simpl. repeat split; [constructor | constructor | now left | lia].
  - simpl. repeat split; [constructor | constructor | now left | lia].
  - destruct Ha as (Hin & Hs & Hacc & Hc). simpl. repeat split; try assumption.
    now apply inert_writes.
  - destruct Ha as (Hin & Hs & Hacc & Hc).
    destruct (run_frame k (Some ve) None mid label (Some e)) as (-> & -> & ->).
    repeat split; try assumption. now apply inert_writes.
  - destruct Ha as (Hin & Hs & Hacc & Hc).
    destruct (run_frame k (Some ve) None mid label None) as (-> & -> & ->).
    repeat split; try assumption. now apply inert_writes.
Qed.

Lemma run_writes_length l k (st : LoopState World) tr ctl :
  IterationRun l k st tr ctl -> List.length (writes tr) = updateCalls tr.
Proof.
  destruct 1 as [|ve e|ve mid e Ha|ve mid label e Ha _ _|ve mid label st' Ha _ _ _];
    try reflexivity; destruct Ha as (Hin & _).
  - simpl. exact (inert_writes_length k mid Hin).
  - destruct (run_frame k (Some ve) None mid label (Some e)) as (-> & _ & ->).
    exact (inert_writes_length k mid Hin).
  - destruct (run_frame k (Some ve) None mid label None) as (-> & _ & ->).
    exact (inert_writes_length k mid Hin).
Qed.

Lemma run_ordinals l k (st : LoopState World) tr ctl :
  IterationRun l k st tr ctl ->
  Forall (fun ev => forall q, ordinalOf ev = Some q -> q = k) tr.
Proof.
  assert (Hone : forall ev, ordinalOf ev = Some k \/ ordinalOf ev = None ->
                            forall q, ordinalOf ev = Some q -> q = k).
  { intros ev [H|H] q Hq; congruence. }
  destruct 1 as [|ve e|ve mid e Ha|ve mid label e Ha _ _|ve mid label st' Ha _ _ _].
  - repeat constructor; apply Hone; simpl; auto.
  - repeat constructor; apply Hone; simpl; auto.
  - destruct Ha as (Hin & _).
    repeat (constructor; [apply Hone; simpl; auto|]). now apply inert_ordinal.
  - destruct Ha as (Hin & _).
    repeat (constructor; [apply Hone; simpl; auto|]).
    apply Forall_app. split; [now apply inert_ordinal|].
    repeat constructor. apply Hone; simpl; auto.
  - destruct Ha as (Hin & _).
    repeat (constructor; [apply Hone; simpl; auto|]).
    apply Forall_app. split; [now apply inert_ordinal|].
    repeat constructor. apply Hone; simpl; auto.
Qed.

Lemma inert_In k mid ev : Forall (inert k) mid -> In ev mid -> inert k ev.
Proof. intros H Hin. rewrite Forall_forall in H. now apply H. Qed.

(** A check at the top of an iteration that finds the pod updated only
    occurs in a skipped iteration. *)
Lemma run_skipped l k (st : LoopState World) tr ctl p :
  IterationRun l k st tr ctl ->
  In (EvVerify Precheck p None) tr ->
  p = k
  /\ ctl = Continue {| ls_updateSts := ls_updateSts st; ls_sts := ls_sts st;
                       skipSleep := true |}
  /\ writes tr = [] /\ acceptedWrites tr = [].
Proof.
  destruct 1 as [|ve e|ve mid e Ha|ve mid label e Ha _ _|ve mid label st' Ha _ _ _];
    intros Hin.
  - destruct Hin as [Hin|[Hin|[]]]; [|discriminate].
    injection Hin as ->. now repeat split.
  - destruct Hin as [Hin|[Hin|[]]]; discriminate.
  - destruct Ha as (Hi & _). destruct Hin as [Hin|[Hin|Hin]]; try discriminate.
    now apply (inert_In _ _ _ Hi) in Hin.
  - destruct Ha as (Hi & _). destruct Hin as [Hin|[Hin|Hin]]; try discriminate.
    apply in_app_or in Hin. destruct Hin as [Hin|[Hin|[]]]; [|discriminate].
    now apply (inert_In _ _ _ Hi) in Hin.
  - destruct Ha as (Hi & _). destruct Hin as [Hin|[Hin|Hin]]; try discriminate.
    apply in_app_or in Hin. destruct Hin as [Hin|[Hin|[]]]; [|discriminate].
    now apply (inert_In _ _ _ Hi) in Hin.
Qed.

(** An iteration the loop goes on after was skipped, or it had its update
    accepted as the last update call. *)
Lemma run_continue l k (st : LoopState World) tr st' :
  IterationRun l k st tr (Continue st') ->
  (skipSleep st' = true /\ In (EvVerify Precheck k None) tr
   /\ writes tr = [] /\ acceptedWrites tr = [])
  \/ (skipSleep st' = false /\ (forall p, ~ In (EvVerify Precheck p None) tr)
      /\ acceptedWrites tr = [k]
      /\ exists ws a, writes tr = ws ++ [(k, inl a)]).
Proof.
  intros H. pose proof H as Hrun. inversion H as [| | | |ve mid label st'' Ha Hp Hin Hs]; subst.
  - left. repeat split. now left.
  - right. split; [exact Hs|]. split.
    + intros p Hp'. apply (run_skipped _ _ _ _ _ _ Hrun) in Hp'.
      destruct Hp' as (_ & Hc & _). injection Hc as ->. discriminate.
    + destruct (run_frame k (Some ve) None mid label None) as (-> & -> & _).
      exact Hp.
Qed.

(** A [return] from the loop body carries an error and no hint. *)
Lemma run_return l k (st : LoopState World) tr r :
  IterationRun l k st tr (Return r) -> exists e, r = (false, Some e).
Proof. intros H. inversion H; subst; eauto. Qed.

Lemma inert_no_failure k mid :
  Forall (inert k) mid ->
  Forall (fun ev => ~ failedProbe ev) mid /\ Forall (fun ev => ~ failedReady ev) mid.
Proof.
  intros H. split; (eapply Forall_impl; [|exact H]);
    intros ev Hev Hf; destruct ev; simpl in *; auto.
Qed.

(** A failed health probe is the last event of its iteration, which had
    its update accepted and verified, and returns with the error of the
    probe. *)
Lemma run_failed_probe l k (st : LoopState World) tr ctl pre label p e post :
  IterationRun l k st tr ctl ->
  tr = pre ++ EvProbe label p (Some e) :: post ->
  post = [] /\ p = k /\ ctl = Return (false, Some e)
  /\ In k (acceptedWrites pre) /\ In (EvVerify Poll k None) pre.
Proof.
  destruct 1 as [|ve e0|ve mid e0 Ha|ve mid label0 e0 Ha Hp Hin|ve mid label0 st' Ha Hp Hin _];
    intros Heq.
  - exfalso. apply (not_among failedProbe _ _ _ _) in Heq; [exact Heq| |exact I].
    repeat constructor; auto.
  - exfalso. apply (not_among failedProbe _ _ _ _) in Heq; [exact Heq| |exact I].
    repeat constructor; auto.
  - destruct Ha as (Hi & _). apply inert_no_failure in Hi. destruct Hi as (Hi & _).
    exfalso. apply (not_among failedProbe _ _ _ _) in Heq; [exact Heq| |exact I].
    repeat (constructor; [simpl; auto|]). exact Hi.
  - destruct Ha as (Hi & _). apply inert_no_failure in Hi. destruct Hi as (Hi & _).
    change (EvVerify Precheck k (Some ve) :: EvWaitReady None
              :: mid ++ [EvProbe label0 k (Some e0)])
      with ((EvVerify Precheck k (Some ve) :: EvWaitReady None :: mid)
              ++ [EvProbe label0 k (Some e0)]) in Heq.
    apply (split_after failedProbe) in Heq;
      [| repeat (constructor; [simpl; auto|]); exact Hi | exact I].
    destruct Heq as (pre' & -> & Hone).
    destruct pre' as [|a pre']; simpl in Hone.
    + injection Hone as <- <- <- <-. rewrite app_nil_r.
      destruct Hp as (Hacc & _). simpl. rewrite Hacc.
      repeat split; [now left | now right; right].
    + injection Hone as _ Hnil. now destruct pre'.
  - destruct Ha as (Hi & _). apply inert_no_failure in Hi. destruct Hi as (Hi & _).
    exfalso. apply (not_among failedProbe _ _ _ _) in Heq; [exact Heq| |exact I].
    repeat (constructor; [simpl; auto|]).
    apply Forall_app. split; [exact Hi|]. repeat constructor. simpl. auto.
Qed.

(** A failed readiness wait is the last event of its iteration and comes
    right after the check at its top: nothing was sent to the store. *)
Lemma run_failed_ready l k (st : LoopState World) tr ctl pre e post :
  IterationRun l k st tr ctl ->
  tr = pre ++ EvWaitReady (Some e) :: post ->
  post = []
  /\ ctl = Return (false, Some (Wrapf e "error while waiting for all pods to be ready"))
  /\ (exists ve, pre = [EvVerify Precheck k (Some ve)])
  /\ writes tr = [] /\ updateCalls tr = O.
Proof.
  destruct 1 as [|ve e0|ve mid e0 Ha|ve mid label0 e0 Ha Hp Hin|ve mid label0 st' Ha Hp Hin _];
    intros Heq.
  - exfalso. apply (not_among failedReady _ _ _ _) in Heq; [exact Heq| |exact I].
    repeat constructor; auto.
  - change [EvVerify Precheck k (Some ve); EvWaitReady (Some e0)]
      with ([EvVerify Precheck k (Some ve)] ++ [EvWaitReady (Some e0)]) in Heq.
    apply (split_after failedReady) in Heq; [|repeat constructor; auto | exact I].
    destruct Heq as (pre' & -> & Hone).
    destruct pre' as [|a pre']; simpl in Hone.
    + injection Hone as <- <-. repeat split. now exists ve.
    + injection Hone as _ Hnil. now destruct pre'.
  - destruct Ha as (Hi & _). apply inert_no_failure in Hi. destruct Hi as (_ & Hi).
    exfalso. apply (not_among failedReady _ _ _ _) in Heq; [exact Heq| |exact I].
    repeat (constructor; [simpl; auto|]). exact Hi.
  - destruct Ha as (Hi & _). apply inert_no_failure in Hi. destruct Hi as (_ & Hi).
    exfalso. apply (not_among failedReady _ _ _ _) in Heq; [exact Heq| |exact I].
    repeat (constructor; [simpl; auto|]).
    apply Forall_app. split; [exact Hi|]. repeat constructor. simpl. auto.
  - destruct Ha as (Hi & _). apply inert_no_failure in Hi. destruct Hi as (_ & Hi).
    exfalso. apply (not_among failedReady _ _ _ _) in Heq; [exact Heq| |exact I].
    repeat (constructor; [simpl; auto|]).
    apply Forall_app. split; [exact Hi|]. repeat constructor. simpl. auto.
Qed.

(** The iterations the loop goes on after have no failed probe and no
    failed readiness wait. *)
Lemma run_continue_no_failure l k (st : LoopState World) tr st' :
  IterationRun l k st tr (Continue st') ->
  Forall (fun ev => ~ failedProbe ev) tr /\ Forall (fun ev => ~ failedReady ev) tr.
Proof.
  intros Hrun. split; rewrite Forall_forall; intros ev Hin Hf;
    apply in_split in Hin; destruct Hin as (l1 & l2 & Heq).
  - destruct ev as [| | | |label p [e|]| | | | | |]; try contradiction.
    apply (run_failed_probe _ _ _ _ _ _ _ _ _ _ Hrun) in Heq.
    now destruct Heq as (_ & _ & Hc & _).
  - destruct ev as [|[e|]| | | | | | | | |]; try contradiction.
    apply (run_failed_ready _ _ _ _ _ _ _ _ Hrun) in Heq.
    now destruct Heq as (_ & Hc & _).
Qed.

(** ** The loop *)

Section Loop.

Variable fuel : nat.
Variable v : PerPodVerificationFunc World.
Variable timer : UpdateTimer World.
Variable l : Logger.

Lemma rolloutLoop_step n st (w : World) r w' tr :
  rolloutLoop rt fuel v timer l (S n) st w = Done r w' tr ->
  exists ctl w1 t1 t2,
    iteration rt fuel v timer l (Z.of_nat n) st w = Done ctl w1 t1
    /\ tr = t1 ++ t2
    /\ match ctl with
       | Continue st' => rolloutLoop rt fuel v timer l n st' w1 = Done r w' t2
       | Return r0 => r = r0 /\ w' = w1 /\ t2 = []
       end.
Proof.
  intros H. simpl in H.
  apply bind_Done in H. destruct H as (ctl & w1 & t1 & t2 & Hit & H & ->).
  exists ctl, w1, t1, t2. split; [exact Hit|]. split; [reflexivity|].
  destruct ctl as [st'|r0]; [exact H|]. now injection H as <- <- <-.
Qed.

(** Induction over the runs of the loop, iteration by iteration. *)
Lemma rolloutLoop_runs (P : nat -> LoopState World -> list Event -> bool * option error -> Prop) :
  (forall st, P O st [] (skipSleep st, None)) ->
  (forall n st t1 r,
      IterationRun l (Z.of_nat n) st t1 (Return r) -> P (S n) st t1 r) ->
  (forall n st t1 st' t2 r,
      IterationRun l (Z.of_nat n) st t1 (Continue st') ->
      P n st' t2 r -> P (S n) st (t1 ++ t2) r) ->
  forall n st (w : World) r w' tr,
    rolloutLoop rt fuel v timer l n st w = Done r w' tr -> P n st tr r.
Proof.
  intros Hend Hret Hcont. induction n as [|n IH]; intros st w r w' tr H.
  - injection H as <- <- <-. apply Hend.
  - apply rolloutLoop_step in H.
    destruct H as (ctl & w1 & t1 & t2 & Hit & -> & H).
    apply iteration_run in Hit. destruct ctl as [st'|r0].
    + apply (Hcont n st t1 st' t2 r Hit). eapply IH. exact H.
    + destruct H as (-> & _ & ->). rewrite app_nil_r. now apply Hret.
Qed.

(** The same induction, with the bound on the ordinals of the iterations
    that follow. *)
Lemma rolloutLoop_runs_below
    (P : nat -> LoopState World -> list Event -> bool * option error -> Prop) :
  (forall st, P O st [] (skipSleep st, None)) ->
  (forall n st t1 r,
      IterationRun l (Z.of_nat n) st t1 (Return r) -> P (S n) st t1 r) ->
  (forall n st t1 st' t2 r,
      IterationRun l (Z.of_nat n) st t1 (Continue st') ->
      Forall (below n) t2 ->
      P n st' t2 r -> P (S n) st (t1 ++ t2) r) ->
  forall n st (w : World) r w' tr,
    rolloutLoop rt fuel v timer l n st w = Done r w' tr -> P n st tr r.
Proof.
  intros Hend Hret Hcont n st w r w' tr H.
  apply (rolloutLoop_runs (fun n st tr r => P n st tr r /\ Forall (below n) tr)) in H.
  - apply H.
  - intros st0. split; [apply Hend | constructor].
  - intros n0 st0 t1 r0 Hrun. split; [now apply Hret|].
    apply run_ordinals in Hrun.
    eapply Forall_impl; [|exact Hrun]. intros ev Hev q Hq. apply Hev in Hq. lia.
  - intros n0 st0 t1 st' t2 r0 Hrun (HP & Hb). split.
    + now apply (Hcont n0 st0 t1 st' t2 r0).
    + apply run_ordinals in Hrun. apply Forall_app. split.
      * eapply Forall_impl; [|exact Hrun]. intros ev Hev q Hq. apply Hev in Hq. lia.
      * eapply Forall_impl; [|exact Hb]. intros ev Hev q Hq. apply Hev in Hq. lia.
Qed.

Lemma run_ordinal_of l0 k (st : LoopState World) tr ctl ev q :
  IterationRun l0 k st tr ctl -> In ev tr -> ordinalOf ev = Some q -> q = k.
Proof.
  intros Hrun Hin Hq. apply run_ordinals in Hrun.
  rewrite Forall_forall in Hrun. now apply (Hrun ev Hin).
Qed.

(** The hint the loop returns without an error is the one of its last
    iteration. *)
Lemma rolloutLoop_hint n st (w : World) r w' tr :
  rolloutLoop rt fuel v timer l n st w = Done r w' tr ->
  (n = O -> tr = [] /\ r = (skipSleep st, None))
  /\ ((1 <= n)%nat -> snd r = None ->
      (fst r = true <-> In (EvVerify Precheck 0 None) tr)).
Proof.
  apply (rolloutLoop_runs
           (fun n st tr r =>
              (n = O -> tr = [] /\ r = (skipSleep st, None))
              /\ ((1 <= n)%nat -> snd r = None ->
                  (fst r = true <-> In (EvVerify Precheck 0 None) tr)))); clear.
  - intros st. split; [auto | lia].
  - intros n st t1 r Hrun. apply run_return in Hrun. destruct Hrun as (e & ->).
    split; [discriminate | intros _ Hn; discriminate].
  - intros n st t1 st' t2 r Hrun (IH0 & IH1). split; [discriminate|].
    intros _ Hnone. destruct n as [|n].
    + destruct (IH0 eq_refl) as (-> & ->). rewrite app_nil_r. simpl.
      apply run_continue in Hrun. simpl in Hrun.
      destruct Hrun as [(Hs & Hin & _)|(Hs & Hno & _)].
      * split; auto.
      * split; intros H; [congruence | now apply Hno in H].
    + specialize (IH1 ltac:(lia) Hnone). rewrite IH1. split.
      * intros H. apply in_or_app. now right.
      * intros H. apply in_app_or in H. destruct H as [H|H]; [|exact H].
        apply (run_ordinal_of _ _ _ _ _ _ 0 Hrun) in H; [lia | reflexivity].
Qed.

Lemma run_WritesInOrder n (st : LoopState World) t1 ctl :
  IterationRun l (Z.of_nat n) st t1 ctl -> WritesInOrder (S n) t1.
Proof.
  intros Hrun. apply run_writes in Hrun. destruct Hrun as (Hs & Hk & Hacc & _).
  unfold WritesInOrder. repeat split.
  - eapply Forall_impl; [|exact Hk]. intros x ->. lia.
  - exact Hs.
  - apply (StronglySorted_constant (Z.of_nat n)). rewrite Forall_map. exact Hk.
  - destruct Hacc as [-> | ->]; repeat constructor.
  - destruct Hacc as [-> | ->]; repeat constructor; lia.
Qed.

Lemma WritesInOrder_step n (st : LoopState World) t1 st' t2 :
  IterationRun l (Z.of_nat n) st t1 (Continue st') ->
  WritesInOrder n t2 -> WritesInOrder (S n) (t1 ++ t2).
Proof.
  intros Hrun (Hb2 & Hs2 & Hge2 & Hgt2 & Ha2).
  pose proof (run_WritesInOrder _ _ _ _ Hrun) as (Hb1 & Hs1 & Hge1 & Hgt1 & Ha1).
  pose proof (run_writes _ _ _ _ _ Hrun) as (_ & Hk & Hacc & _).
  unfold WritesInOrder. rewrite writes_app, acceptedWrites_app, map_app.
  repeat split.
  - apply Forall_app. split; [exact Hb1|].
    eapply Forall_impl; [|exact Hb2]. intros x Hx. simpl in Hx. lia.
  - apply Sorted_app; [exact Hs1 | exact Hs2 |].
    intros pre a b post Hpre Hpost.
    apply run_continue in Hrun.
    destruct Hrun as [(_ & _ & Hw & _)|(_ & _ & _ & ws & a0 & Hw)].
    + rewrite Hw in Hpre. now destruct pre.
    + rewrite Hw in Hpre. apply app_inj_tail in Hpre. destruct Hpre as (_ & <-).
      unfold followsOn. simpl. rewrite Hpost in Hb2.
      inversion Hb2 as [|? ? Hb _]; subst. simpl in Hb. lia.
  - apply StronglySorted_app; [exact Hge1 | exact Hge2 |].
    intros a b Ha Hb.
    apply in_map_iff in Ha. destruct Ha as (x & <- & Hx).
    apply in_map_iff in Hb. destruct Hb as (y & <- & Hy).
    rewrite Forall_forall in Hk, Hb2.
    rewrite (Hk x Hx). specialize (Hb2 y Hy). simpl in Hb2. lia.
  - apply StronglySorted_app; [exact Hgt1 | exact Hgt2 |].
    intros a b Ha Hb. rewrite Forall_forall in Ha2. specialize (Ha2 b Hb).
    destruct Hacc as [Hacc|Hacc]; rewrite Hacc in Ha; [contradiction|].
    destruct Ha as [<-|[]]. lia.
  - apply Forall_app. split; [exact Ha1|].
    eapply Forall_impl; [|exact Ha2]. intros x Hx. simpl in Hx. lia.
Qed.

Lemma rolloutLoop_writes n st (w : World) r w' tr :
  rolloutLoop rt fuel v timer l n st w = Done r w' tr ->
  WritesInOrder n tr /\ (snd r = None -> WritesComplete n tr).
Proof.
  apply (rolloutLoop_runs_below
           (fun n _ tr r => WritesInOrder n tr /\ (snd r = None -> WritesComplete n tr))).
  - intros st0. split.
    + unfold WritesInOrder. simpl. repeat split; constructor.
    + intros _. split; [intros p Hp; simpl in Hp; lia | reflexivity].
  - intros n0 st0 t1 r0 Hrun. split; [now apply run_WritesInOrder in Hrun|].
    apply run_return in Hrun. destruct Hrun as (e & ->). discriminate.
  - clear n. intros n st0 t1 st' t2 r0 Hrun Hbelow (Hin & Hdone).
    split; [now apply (WritesInOrder_step _ _ _ _ _ Hrun)|].
    intros Hnone. destruct (Hdone Hnone) as (Hall & Hcount).
    destruct Hin as (_ & _ & _ & _ & Ha2).
    assert (Hlow : forall p, In p (acceptedWrites t2) -> p < Z.of_nat n).
    { rewrite Forall_forall in Ha2. intros p Hp. apply Ha2 in Hp. lia. }
    assert (Hpre2 : forall p, In (EvVerify Precheck p None) t2 -> p < Z.of_nat n).
    { rewrite Forall_forall in Hbelow. intros p Hp. apply Hbelow in Hp.
      specialize (Hp p eq_refl). lia. }
    assert (Hpre1 : forall p, In (EvVerify Precheck p None) t1 -> p = Z.of_nat n).
    { intros p Hp. now apply (run_ordinal_of _ _ _ _ _ _ p Hrun) in Hp. }
    apply run_continue in Hrun.
    destruct Hrun as [(_ & Hskip & _ & Hacc)|(_ & Hno & Hacc & _)];
      split; rewrite ?acceptedWrites_app, ?Hacc; simpl.
    + intros p Hp. destruct (Z.eq_dec p (Z.of_nat n)) as [->|Hne].
      * split.
        -- intros H. apply Hlow in H. lia.
        -- intros H. exfalso. apply H. apply in_or_app. now left.
      * rewrite (Hall p ltac:(lia)). split.
        -- intros H H'. apply in_app_or in H'. destruct H' as [H'|H'];
             [now apply Hpre1 in H' | now apply H].
        -- intros H H'. apply H. apply in_or_app. now right.
    + intros H. exfalso. apply (H (Z.of_nat n)). apply in_or_app. now left.
    + intros p Hp. destruct (Z.eq_dec p (Z.of_nat n)) as [->|Hne].
      * split; [|now left].
        intros _ H'. apply in_app_or in H'. destruct H' as [H'|H'].
        -- now apply Hno in H'.
        -- apply Hpre2 in H'. lia.
      * split.
        -- intros [H|H]; [congruence|]. apply (Hall p ltac:(lia)) in H.
           intros H'. apply in_app_or in H'. destruct H' as [H'|H'];
             [now apply Hno in H' | now apply H].
        -- intros H. right. apply (Hall p ltac:(lia)).
           intros H'. apply H. apply in_or_app. now right.
    + intros H. f_equal. apply Hcount.
      intros p H'. apply (H p). apply in_or_app. now right.
Qed.

Lemma rolloutLoop_failed_probe n st (w : World) r w' tr :
  rolloutLoop rt fuel v timer l n st w = Done r w' tr ->
  forall pre label p e post,
    tr = pre ++ EvProbe label p (Some e) :: post ->
    post = [] /\ r = (false, Some e)
    /\ In p (acceptedWrites pre) /\ In (EvVerify Poll p None) pre
    /\ Forall (fun ev => forall q, ordinalOf ev = Some q -> p <= q) tr.
Proof.
  apply (rolloutLoop_runs_below
           (fun n _ tr r =>
              forall pre label p e post,
                tr = pre ++ EvProbe label p (Some e) :: post ->
                post = [] /\ r = (false, Some e)
                /\ In p (acceptedWrites pre) /\ In (EvVerify Poll p None) pre
                /\ Forall (fun ev => forall q, ordinalOf ev = Some q -> p <= q) tr)).
  - intros st0 pre label p e post Heq. now destruct pre.
  - intros n0 st0 t1 r0 Hrun pre label p e post Heq.
    pose proof (run_ordinals _ _ _ _ _ Hrun) as Hord.
    apply (run_failed_probe _ _ _ _ _ _ _ _ _ _ Hrun) in Heq.
    destruct Heq as (-> & -> & Hc & Hacc & Hpoll). injection Hc as ->.
    repeat split; try assumption.
    eapply Forall_impl; [|exact Hord]. intros ev Hev q Hq. apply Hev in Hq. lia.
  - intros n0 st0 t1 st' t2 r0 Hrun Hbelow IH pre label p e post Heq.
    pose proof (run_ordinals _ _ _ _ _ Hrun) as Hord.
    destruct (run_continue_no_failure _ _ _ _ _ Hrun) as (Hnone & _).
    apply (split_after failedProbe) in Heq; [|exact Hnone | exact I].
    destruct Heq as (pre' & -> & Heq).
    assert (Hp : p < Z.of_nat n0).
    { rewrite Heq in Hbelow. apply Forall_app in Hbelow. destruct Hbelow as (_ & Hb).
      inversion Hb as [|? ? Hb0 _]; subst. specialize (Hb0 p eq_refl). lia. }
    destruct (IH _ _ _ _ _ Heq) as (-> & -> & Hacc & Hpoll & Hlow).
    repeat split.
    + rewrite acceptedWrites_app. apply in_or_app. now right.
    + apply in_or_app. now right.
    + apply Forall_app. split; [|exact Hlow].
      eapply Forall_impl; [|exact Hord]. intros ev Hev q Hq. apply Hev in Hq. lia.
Qed.

Lemma rolloutLoop_failed_ready n st (w : World) r w' tr :
  rolloutLoop rt fuel v timer l n st w = Done r w' tr ->
  forall pre e post,
    tr = pre ++ EvWaitReady (Some e) :: post ->
    post = []
    /\ r = (false, Some (Wrapf e "error while waiting for all pods to be ready"))
    /\ exists pre' p ve,
         pre = pre' ++ [EvVerify Precheck p (Some ve)]
         /\ 0 <= p < Z.of_nat n
         /\ Forall (fun x => p < fst x) (writes tr)
         /\ updateCalls tr = updateCalls pre'.
Proof.
  apply (rolloutLoop_runs_below
           (fun n _ tr r =>
              forall pre e post,
                tr = pre ++ EvWaitReady (Some e) :: post ->
                post = []
                /\ r = (false, Some (Wrapf e "error while waiting for all pods to be ready"))
                /\ exists pre' p ve,
                     pre = pre' ++ [EvVerify Precheck p (Some ve)]
                     /\ 0 <= p < Z.of_nat n
                     /\ Forall (fun x => p < fst x) (writes tr)
                     /\ updateCalls tr = updateCalls pre')).
  - intros st0 pre e post Heq. now destruct pre.
  - intros n0 st0 t1 r0 Hrun pre e post Heq.
    pose proof Heq as Heq'.
    apply (run_failed_ready _ _ _ _ _ _ _ _ Hrun) in Heq.
    destruct Heq as (-> & Hc & (ve & ->) & Hw & Hu). injection Hc as ->.
    repeat split. exists [], (Z.of_nat n0), ve. rewrite Hw, Hu.
    repeat split; try constructor; lia.
  - intros n0 st0 t1 st' t2 r0 Hrun Hbelow IH pre e post Heq.
    pose proof (run_writes _ _ _ _ _ Hrun) as (_ & Hk & _).
    destruct (run_continue_no_failure _ _ _ _ _ Hrun) as (_ & Hnone).
    apply (split_after failedReady) in Heq; [|exact Hnone | exact I].
    destruct Heq as (pre2 & -> & Heq).
    destruct (IH _ _ _ Heq) as (-> & -> & pre' & p & ve & -> & Hp & Hw & Hu).
    repeat split. exists (t1 ++ pre'), p, ve. repeat split.
    + now rewrite app_assoc.
    + lia.
    + lia.
    + rewrite writes_app. apply Forall_app. split; [|exact Hw].
      eapply Forall_impl; [|exact Hk]. intros x ->. lia.
    + rewrite !updateCalls_app, Hu. reflexivity.
Qed.

(** Every update call of the loop carries a partition. *)
Lemma rolloutLoop_writes_length n st (w : World) r w' tr :
  rolloutLoop rt fuel v timer l n st w = Done r w' tr ->
  List.length (writes tr) = updateCalls tr.
Proof.
  apply (rolloutLoop_runs (fun _ _ tr _ => List.length (writes tr) = updateCalls tr)).
  - reflexivity.
  - intros n0 st0 t1 r0 Hrun. now apply run_writes_length in Hrun.
  - intros n0 st0 t1 st' t2 r0 Hrun IH. apply run_writes_length in Hrun.
    now rewrite writes_app, updateCalls_app, List.length_app, Hrun, IH.
Qed.

End Loop.

(** ** The claims on one iteration *)

Lemma iterations_in_range (N : Z) :
  0 <= N <= MaxInt32 -> int32 (N - 1) = N - 1 /\ iterations N = Z.to_nat N.
Proof.
  unfold MaxInt32, iterations, int32. intros H.
  assert (Hm : (N - 1 + 2147483648) mod 4294967296 = N - 1 + 2147483648)
    by (apply Z.mod_small; lia).
  rewrite Hm. split; [lia | f_equal; lia].
Qed.

(** C9: a StatefulSet with zero replicas.  The loop counter starts at
    [int32(0 - 1)], which is [-1] and not a wrapped value, so the body
    never runs: the strategy calls no collaborator, leaves the world as it
    is and returns [(false, nil)]. *)
Theorem zero_replicas_no_iteration fuel v u timer l (w : World) :
  Replicas (sts u) = Some 0 ->
  int32 (0 - 1) = -1
  /\ iterations 0 = O
  /\ PartitionedRollingUpdateStrategy rt fuel v u timer l w = Done (false, None) w [].
Proof.
  intros H. unfold PartitionedRollingUpdateStrategy. rewrite H.
  repeat split.
Qed.

(** C2: when the verification function already succeeds for the ordinal
    at the top of its iteration, the iteration consists of that one call
    and a debug log line: no readiness wait, no update, no health probe.
    It sets [skipSleep] to true, keeps the other loop variables, and the
    loop goes on with the next lower ordinal. *)
Theorem verified_pod_is_skipped fuel v timer l (k : nat) st (w : World) :
  fst (v (ls_updateSts st) (Z.of_nat k) l w) = None ->
  let w1 := snd (v (ls_updateSts st) (Z.of_nat k) l w) in
  let st1 := {| ls_updateSts := ls_updateSts st; ls_sts := ls_sts st;
                skipSleep := true |} in
  let events := [EvVerify Precheck (Z.of_nat k) None;
                 EvLogInfo l DebugLevel "already updated, skipping sleep"
                   [("partition"%string, VInt (Z.of_nat k))]] in
  iteration rt fuel v timer l (Z.of_nat k) st w = Done (Continue st1) w1 events
  /\ rolloutLoop rt fuel v timer l (S k) st w =
     match rolloutLoop rt fuel v timer l k st1 w1 with
     | Done r w2 t2 => Done r w2 (events ++ t2)
     | Panic w2 t2 => Panic w2 (events ++ t2)
     | OutOfFuel => OutOfFuel
     end.
Proof.
  intros Hv w1 st1 events.
  assert (Hit : iteration rt fuel v timer l (Z.of_nat k) st w
                = Done (Continue st1) w1 events).
  { unfold iteration, callVerify.
    rewrite (bind_run _ _ _ _ _ _ (call_run _ _ _)). rewrite Hv. reflexivity. }
  split; [exact Hit|].
  simpl rolloutLoop. now rewrite (bind_run _ _ _ _ _ _ Hit).
Qed.

(** ** The error classifier *)

(** C8, as the code has it: every error handed to the classifier goes
    down one of three branches (not found, status error, other), each of
    which logs one entry at error severity that carries the error, the
    name and the namespace, and returns an error with the reason of the
    one it was given.  Only the not-found branch wraps the error; the
    other two return it as it is.  A status error is logged with its
    status message. *)
Theorem handleStsError_classifies err l stsName ns (w : World) :
  exists msg kvs,
    handleStsError err l stsName ns w
    = Done (classified err stsName ns) w [EvLogError l err msg kvs]
    /\ In (VString stsName) (map snd kvs)
    /\ In (VString ns) (map snd kvs)
    /\ ReasonForError (classified err stsName ns) = ReasonForError err
    /\ (if IsNotFound err
        then classified err stsName ns
             = Wrapf err ("sts is not found: " +++ stsName +++ " ns: " +++ ns)%string
        else classified err stsName ns = err)
    /\ (forall reason message,
           err = StatusError reason message -> IsNotFound err = false ->
           msg = ("Error getting statefulset " +++ message)%string).
Proof.
  rewrite handleStsError_run. unfold classified, classifierLog.
  destruct (IsNotFound err) eqn:Hnf.
  - do 2 eexists. split; [reflexivity|]. simpl. repeat split; auto. discriminate.
  - destruct err; do 2 eexists; (split; [reflexivity|]); simpl; repeat split; auto;
      try discriminate. now intros ? ? [= _ ->] _.
Qed.

(** ** The entry point *)

(** A [return] of the strategy with an error carries no hint. *)
Lemma strategy_error_no_hint fuel v u timer l (w : World) hint e w' tr :
  PartitionedRollingUpdateStrategy rt fuel v u timer l w = Done (hint, Some e) w' tr ->
  hint = false.
Proof.
  unfold PartitionedRollingUpdateStrategy.
  destruct (Replicas (sts u)) as [N|]; [|discriminate].
  intros H.
  apply (rolloutLoop_runs fuel v timer l
           (fun _ _ _ r => forall e, snd r = Some e -> fst r = false)) with (e := e) in H.
  - exact H.
  - intros st e0 H0. discriminate.
  - intros n st t1 r Hrun e0 He. apply run_return in Hrun.
    destruct Hrun as (e1 & ->). reflexivity.
  - intros n st t1 st' t2 r _ IH. exact IH.
  - reflexivity.
Qed.

(** C5, as the code has it: when the strategy function returns an error,
    the entry point returns that error wrapped with the name and the
    namespace, and [false] for the hint, whatever hint the strategy
    returned.  The hint of the strategy is returned as it is when there is
    no error.  The partitioned strategy returns [false] with every error,
    so for it nothing is lost. *)
Theorem controller_wraps_strategy_error
    clientset name ns suite ready timeout maxPoll health l
    (w : World) obj w1 obj' w2 hint err w3 tr :
  stsGet clientset ns name w = (inl obj, w1) ->
  updateFunc suite obj w1 = (inl obj', w2) ->
  updateStrategyFunc suite
    {| clientset := clientset; sts := obj'; namespace := ns; name := name |}
    {| podUpdateTimeout := timeout; podMaxPollingInterval := maxPoll;
       healthChecker := health; waitUntilAllPodsReadyFunc := ready |}
    (WithName l ns) w2 = Done (hint, err) w3 tr ->
  UpdateClusterRegionStatefulSet clientset name ns suite ready timeout maxPoll health l w
  = Done
      match err with
      | Some e =>
          (false, Some (Wrapf e ("error applying updateStrategyFunc to " +++ name
                                 +++ " " +++ ns)%string))
      | None => (hint, None)
      end
      w3 ([EvGet ns name (inl obj); EvUpdateFunc obj (inl obj')] ++ tr)
  /\ (forall fuel v,
         updateStrategyFunc suite = PartitionedRollingUpdateStrategy rt fuel v ->
         err <> None -> hint = false).
Proof.
  intros Hget Hfun Hstrat. split.
  - unfold UpdateClusterRegionStatefulSet, callGet.
    rewrite (bind_run _ _ _ _ _ _ (call_run _ _ _)). rewrite Hget. simpl.
    rewrite (bind_run _ _ _ _ _ _ (call_run _ _ _)). rewrite Hfun. simpl.
    rewrite (bind_run _ _ _ _ _ _ Hstrat).
    destruct err; simpl; now rewrite app_nil_r.
  - intros fuel v Heq Herr. rewrite Heq in Hstrat.
    destruct err as [e|]; [|congruence].
    eapply strategy_error_no_hint. exact Hstrat.
Qed.

(** ** Fuel *)

Lemma bind_then {A B : Type} (m : M World A) (k : A -> M World B) w a w1 t1 b w2 t2 :
  m w = Done a w1 t1 -> k a w1 = Done b w2 t2 ->
  bind m k w = Done b w2 (t1 ++ t2).
Proof. intros Hm Hk. now rewrite (bind_run _ _ _ _ _ _ Hm), Hk. Qed.

(** A poll that ends within some fuel ends the same way with more. *)
Lemma retryLoop_more_fuel fuel fuel' o b (w : World) r w' tr :
  (fuel <= fuel')%nat ->
  retryLoop rt fuel o b w = Done r w' tr ->
  retryLoop rt fuel' o b w = Done r w' tr.
Proof.
  revert fuel' w r w' tr.
  induction fuel as [|fuel IH]; intros fuel' w r w' tr Hle H; [discriminate|].
  destruct fuel' as [|fuel']; [lia|]. cbn [retryLoop] in *.
  apply bind_Done in H. destruct H as (err & w1 & t1 & t2 & Ho & H & ->).
  eapply bind_then; [exact Ho|].
  destruct err as [e|]; [|exact H].
  apply bind_Done in H. destruct H as (next & w2 & t3 & t4 & Hn & H & ->).
  eapply bind_then; [exact Hn|].
  destruct next as [d|]; [|exact H].
  apply bind_Done in H. destruct H as ([] & w3 & t5 & t6 & Hs & H & ->).
  eapply bind_then; [exact Hs|]. apply IH; [lia | exact H].
Qed.

Lemma iteration_more_fuel fuel fuel' v timer l k st (w : World) ctl w' tr :
  (fuel <= fuel')%nat ->
  iteration rt fuel v timer l k st w = Done ctl w' tr ->
  iteration rt fuel' v timer l k st w = Done ctl w' tr.
Proof.
  intros Hle H. unfold iteration in *.
  apply bind_Done in H. destruct H as (pre & w1 & t1 & t2 & Hv & H & ->).
  eapply bind_then; [exact Hv|].
  destruct pre as [ve|]; [|exact H].
  apply bind_Done in H. destruct H as (ready & w2 & t3 & t4 & Hr & H & ->).
  eapply bind_then; [exact Hr|].
  destruct ready as [e|]; [exact H|].
  destruct (assignPartition (ls_updateSts st) (ls_sts st) k) as [u' ref'].
  apply bind_Done in H. destruct H as (failed & w3 & tp & t5 & Hp & H & ->).
  eapply bind_then; [exact Hp|].
  destruct failed as [h|]; [exact H|].
  apply bind_Done in H. destruct H as ([] & w4 & t6 & t7 & Hl & H & ->).
  eapply bind_then; [exact Hl|].
  apply bind_Done in H. destruct H as (verr & w5 & tv & t8 & Hpoll & H & ->).
  eapply bind_then; [|exact H].
  unfold waitUntilPerPodVerificationFuncVerifies, Retry in *.
  apply bind_Done in Hpoll. destruct Hpoll as ([] & w6 & t9 & t10 & Hreset & Hpoll & ->).
  eapply bind_then; [exact Hreset|].
  eapply retryLoop_more_fuel; [exact Hle | exact Hpoll].
Qed.

Lemma rolloutLoop_more_fuel fuel fuel' v timer l n st (w : World) r w' tr :
  (fuel <= fuel')%nat ->
  rolloutLoop rt fuel v timer l n st w = Done r w' tr ->
  rolloutLoop rt fuel' v timer l n st w = Done r w' tr.
Proof.
  intros Hle. revert st w r w' tr.
  induction n as [|n IH]; intros st w r w' tr H; [exact H|].
  cbn [rolloutLoop] in *.
  apply bind_Done in H. destruct H as (ctl & w1 & t1 & t2 & Hit & H & ->).
  eapply bind_then; [eapply iteration_more_fuel; [exact Hle | exact Hit]|].
  destruct ctl as [st'|r0]; [apply IH; exact H | exact H].
Qed.

(** A run of the strategy that ends within some fuel for its polls ends
    the same way with more: the fuel bounds the embedding, not the code. *)
Lemma strategy_more_fuel fuel fuel' v u timer l (w : World) r w' tr :
  (fuel <= fuel')%nat ->
  PartitionedRollingUpdateStrategy rt fuel v u timer l w = Done r w' tr ->
  PartitionedRollingUpdateStrategy rt fuel' v u timer l w = Done r w' tr.
Proof.
  unfold PartitionedRollingUpdateStrategy. intros Hle.
  destruct (Replicas (sts u)); [|intros H; exact H].
  now apply rolloutLoop_more_fuel.
Qed.

(** ** The claims on a whole run *)

Lemma strategy_run fuel v u timer l (w : World) N r w' tr :
  Replicas (sts u) = Some N -> 0 <= N <= MaxInt32 ->
  PartitionedRollingUpdateStrategy rt fuel v u timer l w = Done r w' tr ->
  rolloutLoop rt fuel v timer l (Z.to_nat N)
    {| ls_updateSts := u; ls_sts := RefShared; skipSleep := false |} w = Done r w' tr.
Proof.
  intros HN Hrange. unfold PartitionedRollingUpdateStrategy. rewrite HN.
  now rewrite (proj2 (iterations_in_range N Hrange)).
Qed.

(** C1, as the code has it: in a run of the strategy on [N] replicas
    every update call carries a partition, between [0] and [N - 1]; an
    update call that follows a conflict carries the same partition again,
    one that follows an accepted update a lower one, so the partition sent
    is never raised and no partition is accepted twice.  An ordinal whose
    verification succeeds at the top of its iteration is not written at
    all: in a run that ends without an error the accepted partitions are
    the ordinals that were not skipped, and they are [N - 1, ..., 0] when
    none was. *)
Theorem partition_writes_descend fuel v u timer l (w : World) N hint err w' tr :
  Replicas (sts u) = Some N -> 0 <= N <= MaxInt32 ->
  PartitionedRollingUpdateStrategy rt fuel v u timer l w = Done (hint, err) w' tr ->
  List.length (writes tr) = updateCalls tr
  /\ Forall (fun x => 0 <= fst x < N) (writes tr)
  /\ Sorted followsOn (writes tr)
  /\ StronglySorted Z.ge (map fst (writes tr))
  /\ StronglySorted Z.gt (acceptedWrites tr)
  /\ (err = None ->
      (forall p, 0 <= p < N ->
                 (In p (acceptedWrites tr) <-> ~ In (EvVerify Precheck p None) tr))
      /\ ((forall p, ~ In (EvVerify Precheck p None) tr) ->
          acceptedWrites tr = countdown (Z.to_nat N))).
Proof.
  intros HN Hrange H. apply (strategy_run _ _ _ _ _ _ _ _ _ _ HN Hrange) in H.
  split; [now apply rolloutLoop_writes_length in H|].
  apply rolloutLoop_writes in H. destruct H as ((Hb & Hs & Hge & Hgt & _) & Hdone).
  rewrite Z2Nat.id in Hb by lia.
  split; [exact Hb|]. split; [exact Hs|]. split; [exact Hge|]. split; [exact Hgt|].
  intros ->. destruct (Hdone eq_refl) as (Hall & Hcount). split; [|exact Hcount].
  intros p Hp. apply Hall. rewrite Z2Nat.id by lia. exact Hp.
Qed.

(** C10: in a run on at least one replica that ends without an error,
    the hint returned is true exactly when the iteration of ordinal 0 was
    skipped, that is when the verification at its top succeeded.  A skip
    of a higher ordinal alone leaves the hint false. *)
Theorem hint_is_last_skip fuel v u timer l (w : World) N hint w' tr :
  Replicas (sts u) = Some N -> 1 <= N <= MaxInt32 ->
  PartitionedRollingUpdateStrategy rt fuel v u timer l w = Done (hint, None) w' tr ->
  hint = true <-> In (EvVerify Precheck 0 None) tr.
Proof.
  intros HN Hrange H.
  apply (strategy_run _ _ _ _ _ _ _ _ _ _ HN) in H; [|lia].
  apply rolloutLoop_hint in H. destruct H as (_ & H).
  apply (H ltac:(lia) eq_refl).
Qed.

(** A health probe that fails is the last event of a run.  It is the
    probe of an ordinal whose update the store accepted and whose
    verification succeeded, and no event of the run is about a lower
    ordinal. *)
Lemma failed_probe_is_last fuel v u timer l (w : World) N r w' tr
    pre label p e post :
  Replicas (sts u) = Some N -> 0 <= N <= MaxInt32 ->
  PartitionedRollingUpdateStrategy rt fuel v u timer l w = Done r w' tr ->
  tr = pre ++ EvProbe label p (Some e) :: post ->
  post = []
  /\ r = (false, Some e)
  /\ In p (acceptedWrites pre)
  /\ In (EvVerify Poll p None) pre
  /\ Forall (fun ev => forall q, ordinalOf ev = Some q -> p <= q) tr.
Proof.
  intros HN Hrange H Heq. apply (strategy_run _ _ _ _ _ _ _ _ _ _ HN Hrange) in H.
  exact (rolloutLoop_failed_probe _ _ _ _ _ _ _ _ _ _ H _ _ _ _ _ Heq).
Qed.

(** A readiness wait that fails is the last event of a run and comes
    right after the verification at the top of its iteration; no update
    call of the run is about that ordinal or a lower one. *)
Lemma failed_readiness_is_last fuel v u timer l (w : World) N r w' tr pre e post :
  Replicas (sts u) = Some N -> 0 <= N <= MaxInt32 ->
  PartitionedRollingUpdateStrategy rt fuel v u timer l w = Done r w' tr ->
  tr = pre ++ EvWaitReady (Some e) :: post ->
  post = []
  /\ r = (false, Some (Wrapf e "error while waiting for all pods to be ready"))
  /\ exists pre' p ve,
       pre = pre' ++ [EvVerify Precheck p (Some ve)]
       /\ 0 <= p < N
       /\ Forall (fun x => p < fst x) (writes tr)
       /\ updateCalls tr = updateCalls pre'.
Proof.
  intros HN Hrange H Heq. apply (strategy_run _ _ _ _ _ _ _ _ _ _ HN Hrange) in H.
  destruct (rolloutLoop_failed_ready _ _ _ _ _ _ _ _ _ _ H _ _ _ Heq)
    as (Hpost & Hr & pre' & q & ve & Hpre & Hq & Hw & Hu).
  split; [exact Hpost|]. split; [exact Hr|].
  exists pre', q, ve. rewrite Z2Nat.id in Hq by lia. now repeat split.
Qed.

(** C7: when the verification at the top of the iteration of an ordinal
    fails and the readiness wait then fails, the iteration consists of
    these two calls.  The strategy returns the error of the wait, wrapped,
    and no hint; the world is the one the wait left, and no update call
    was made, so the partition is what it was.  In a whole run such a
    failure is the last event, and every update call of the run is about
    a higher ordinal. *)
Theorem failed_readiness_precedes_update fuel v timer l (k : nat) st (w : World) ve e :
  fst (v (ls_updateSts st) (Z.of_nat k) l w) = Some ve ->
  let w1 := snd (v (ls_updateSts st) (Z.of_nat k) l w) in
  fst (waitUntilAllPodsReadyFunc timer l w1) = Some e ->
  let w2 := snd (waitUntilAllPodsReadyFunc timer l w1) in
  let events := [EvVerify Precheck (Z.of_nat k) (Some ve); EvWaitReady (Some e)] in
  let failure := (false, Some (Wrapf e "error while waiting for all pods to be ready")) in
  iteration rt fuel v timer l (Z.of_nat k) st w = Done (Return failure) w2 events
  /\ rolloutLoop rt fuel v timer l (S k) st w = Done failure w2 events
  /\ updateCalls events = O
  /\ (forall u N w0 r w' tr pre e0 post,
         Replicas (sts u) = Some N -> 0 <= N <= MaxInt32 ->
         PartitionedRollingUpdateStrategy rt fuel v u timer l w0 = Done r w' tr ->
         tr = pre ++ EvWaitReady (Some e0) :: post ->
         post = []
         /\ r = (false, Some (Wrapf e0 "error while waiting for all pods to be ready"))
         /\ exists pre' p ve0,
              pre = pre' ++ [EvVerify Precheck p (Some ve0)]
              /\ 0 <= p < N
              /\ Forall (fun x => p < fst x) (writes tr)
              /\ updateCalls tr = updateCalls pre').
Proof.
  intros Hv w1 Hr w2 events failure.
  assert (Hit : iteration rt fuel v timer l (Z.of_nat k) st w
                = Done (Return failure) w2 events).
  { unfold iteration, callVerify.
    rewrite (bind_run _ _ _ _ _ _ (call_run _ _ _)), Hv.
    rewrite (bind_run _ _ _ _ _ _ (call_run _ _ _)). fold w1. rewrite Hr. reflexivity. }
  split; [exact Hit|]. split.
  - cbn [rolloutLoop]. now rewrite (bind_run _ _ _ _ _ _ Hit).
  - split; [reflexivity|]. intros u N w0 r w' tr pre e0 post.
    apply failed_readiness_is_last.
Qed.

(** C6: when the iteration of an ordinal has had its update accepted and
    its verification succeed, has fetched the object again, and the
    health probe then fails, the iteration ends there: the strategy
    returns the error of the probe, as it is, with the value of
    [skipSleep] of that iteration, which line 182 set to false, and the
    loop runs no iteration for a lower ordinal.  In a whole run a failed
    probe is the last event and no event is about a lower ordinal. *)
Theorem failed_probe_ends_rollout fuel v timer l (k : nat) st (w : World)
    ve w3 tp w5 tv fetched e :
  let u := ls_updateSts st in
  let stsName := Name (deref u (ls_sts st)) in
  let ns := Namespace (deref u (ls_sts st)) in
  let u' := fst (assignPartition u (ls_sts st) (Z.of_nat k)) in
  let obj := deref u' (snd (assignPartition u (ls_sts st) (Z.of_nat k))) in
  let label := ("between updating pods for " +++ stsName)%string in
  fst (v u (Z.of_nat k) l w) = Some ve ->
  let w1 := snd (v u (Z.of_nat k) l w) in
  fst (waitUntilAllPodsReadyFunc timer l w1) = None ->
  let w2 := snd (waitUntilAllPodsReadyFunc timer l w1) in
  persistPartition rt u' obj l stsName ns (Z.of_nat k) w2 = Done None w3 tp ->
  waitUntilPerPodVerificationFuncVerifies rt fuel u' v (Z.of_nat k) timer l w3
  = Done None w5 tv ->
  fst (stsGet (clientset u') ns stsName w5) = inl fetched ->
  let w6 := snd (stsGet (clientset u') ns stsName w5) in
  fst (Probe (healthChecker timer) l label (Z.of_nat k) w6) = Some e ->
  let w7 := snd (Probe (healthChecker timer) l label (Z.of_nat k) w6) in
  let events :=
    EvVerify Precheck (Z.of_nat k) (Some ve) :: EvWaitReady None
      :: tp
      ++ EvLogInfo l DebugLevel "waiting until partition done updating"
           [("partition number:"%string, VInt (Z.of_nat k))]
      :: tv
      ++ [EvGet ns stsName (inl fetched); EvProbe label (Z.of_nat k) (Some e)] in
  iteration rt fuel v timer l (Z.of_nat k) st w = Done (Return (false, Some e)) w7 events
  /\ rolloutLoop rt fuel v timer l (S k) st w = Done (false, Some e) w7 events
  /\ (forall u0 N w0 r w' tr pre label0 p e0 post,
         Replicas (sts u0) = Some N -> 0 <= N <= MaxInt32 ->
         PartitionedRollingUpdateStrategy rt fuel v u0 timer l w0 = Done r w' tr ->
         tr = pre ++ EvProbe label0 p (Some e0) :: post ->
         post = []
         /\ r = (false, Some e0)
         /\ In p (acceptedWrites pre)
         /\ In (EvVerify Poll p None) pre
         /\ Forall (fun ev => forall q, ordinalOf ev = Some q -> p <= q) tr).
Proof.
  intros u stsName ns u' obj label Hv w1 Hr w2 Hp Hpoll Hget w6 Hprobe w7 events.
  assert (Hit : iteration rt fuel v timer l (Z.of_nat k) st w
                = Done (Return (false, Some e)) w7 events).
  { unfold iteration, callVerify.
    rewrite (bind_run _ _ _ _ _ _ (call_run _ _ _)). fold u. rewrite Hv.
    rewrite (bind_run _ _ _ _ _ _ (call_run _ _ _)). fold w1. rewrite Hr. fold w2.
    subst u' obj. destruct (assignPartition u (ls_sts st) (Z.of_nat k)) as [u' ref'].
    simpl fst in *. simpl snd in *. fold stsName ns.
    rewrite (bind_run _ _ _ _ _ _ Hp).
    unfold logInfo, emit at 1. rewrite (bind_run _ _ _ _ _ _ eq_refl).
    rewrite (bind_run _ _ _ _ _ _ Hpoll).
    unfold callGet. rewrite (bind_run _ _ _ _ _ _ (call_run _ _ _)). rewrite Hget.
    rewrite (bind_run _ _ _ _ _ _ (call_run _ _ _)). fold label w6. rewrite Hprobe.
    fold w7. unfold events. simpl. rewrite <- ?app_assoc. reflexivity. }
  split; [exact Hit|]. split.
  - cbn [rolloutLoop]. rewrite (bind_run _ _ _ _ _ _ Hit). unfold ret.
    now rewrite app_nil_r.
  - intros u0 N w0 r w' tr pre label0 p e0 post. apply failed_probe_is_last.
Qed.

End Proofs.

(** * The claims on the simulated cluster *)

(** Three replicas, no conflict, every pod updated at the first poll: the
    partitions 2, 1 and 0 are written in this order and the hint is
    false. *)
Example rollout_of_three :
  let run := simStrategy 3 (simCluster 3) in
  resultOf run = Some (false, None)
  /\ map fst (writes (traceOf run)) = [2; 1; 0]
  /\ acceptedWrites (traceOf run) = countdown 3.
Proof. vm_compute. repeat split. Qed.

(** Three replicas, the pod of ordinal 2 already updated: no update call
    for 2, then 1 and 0 as before. *)
Example rollout_resumed :
  let run := simStrategy 3 (withUpToDate [2] (simCluster 3)) in
  resultOf run = Some (false, None)
  /\ map fst (writes (traceOf run)) = [1; 0]
  /\ In (EvVerify Precheck 2 None) (traceOf run).
Proof. vm_compute. repeat split. now left. Qed.

(** Two conflicts on the update of ordinal 1, then the store accepts. *)
Example rollout_with_conflicts :
  let run := simStrategy 2 (withConflicts 2 (simCluster 2)) in
  resultOf run = Some (false, None)
  /\ map fst (writes (traceOf run)) = [1; 1; 1; 0]
  /\ acceptedWrites (traceOf run) = [1; 0].
Proof. vm_compute. repeat split. Qed.

(** More conflicts than attempts: the strategy gives up with the
    conflict after six update calls. *)
Example rollout_out_of_retries :
  let run := simStrategy 1 (withConflicts 7 (simCluster 1)) in
  resultOf run = Some (false, Some conflictError)
  /\ updateCalls (traceOf run) = 6%nat
  /\ acceptedWrites (traceOf run) = [].
Proof. vm_compute. repeat split. Qed.

Lemma simConflictingStore :
  ConflictingStore simRuntime simConflictingClientset conflicts.
Proof.
  constructor.
  - intros ns obj w H. simpl. destruct (conflicts w) as [|n]; [lia|].
    exists conflictError. now repeat split.
  - intros ns obj w H. simpl. rewrite H. now exists obj.
  - intros ns nm w. simpl. split; [now exists (stored w) | reflexivity].
  - reflexivity.
Qed.

Lemma zero_replicas_no_iteration_witness :
  Replicas (sts (simUpdateSts 0)) = Some 0
  /\ simStrategy 0 (simCluster 0) = Done (false, None) (simCluster 0) [].
Proof.
  split; [reflexivity|].
  apply (zero_replicas_no_iteration Cluster simRuntime 10 simVerify (simUpdateSts 0)
           simTimer simLogger (simCluster 0)).
  reflexivity.
Defined.

Lemma verified_pod_is_skipped_witness :
  let st := {| ls_updateSts := simUpdateSts 2; ls_sts := RefShared; skipSleep := false |} in
  let w := withUpToDate [1] (simCluster 2) in
  fst (simVerify (ls_updateSts st) (Z.of_nat 1) simLogger w) = None
  /\ iteration simRuntime 10 simVerify simTimer simLogger (Z.of_nat 1) st w
     = Done (Continue {| ls_updateSts := simUpdateSts 2; ls_sts := RefShared;
                         skipSleep := true |})
         w
         [EvVerify Precheck 1 None;
          EvLogInfo simLogger DebugLevel "already updated, skipping sleep"
            [("partition"%string, VInt 1)]].
Proof.
  intros st w. split; [reflexivity|].
  apply (verified_pod_is_skipped Cluster simRuntime 10 simVerify simTimer simLogger
           1%nat st w).
  reflexivity.
Defined.


Lemma controller_wraps_strategy_error_witness :
  let suite := NewUpdateFunctionSuite Cluster simUpdateFunc simFailingStrategy in
  stsGet simClientset "db" "crdb" (simCluster 1) = (inl (simSts 1), simCluster 1)
  /\ updateFunc suite (simSts 1) (simCluster 1) = (inl (simSts 1), simCluster 1)
  /\ simController suite (simCluster 1)
     = Done (false,
             Some (Wrapf (errorString "rollout failed")
                     "error applying updateStrategyFunc to crdb db"))
         (simCluster 1)
         [EvGet "db" "crdb" (inl (simSts 1)); EvUpdateFunc (simSts 1) (inl (simSts 1))].
Proof.
  intros suite. split; [reflexivity|]. split; [reflexivity|].
  apply (controller_wraps_strategy_error Cluster simRuntime simClientset "crdb" "db" suite
           simReady 600000000000 30000000000 simHealth simLogger
           (simCluster 1) (simSts 1) (simCluster 1) (simSts 1) (simCluster 1)
           true (Some (errorString "rollout failed")) (simCluster 1) []);
    reflexivity.
Defined.

(** C5 as stated fails: a strategy function that returns an error with
    the hint set has its hint replaced by [false]. *)
Lemma controller_drops_hint :
  let suite := NewUpdateFunctionSuite Cluster simUpdateFunc simFailingStrategy in
  resultOf (simFailingStrategy (simUpdateSts 1) simTimer (WithName simLogger "db")
              (simCluster 1))
  = Some (true, Some (errorString "rollout failed"))
  /\ resultOf (simController suite (simCluster 1))
     = Some (false,
             Some (Wrapf (errorString "rollout failed")
                     "error applying updateStrategyFunc to crdb db"))
  /\ option_map fst (resultOf (simController suite (simCluster 1)))
     <> option_map fst
          (resultOf (simFailingStrategy (simUpdateSts 1) simTimer
                       (WithName simLogger "db") (simCluster 1))).
Proof. vm_compute. repeat split. discriminate. Qed.

(** C8 as stated fails: a conflict from the store goes down the status
    branch and comes back as it is, not wrapped. *)
Lemma classifier_returns_conflict_unwrapped :
  resultOf (handleStsError conflictError simLogger "crdb" "db" (simCluster 1))
  = Some conflictError
  /\ (forall cause msg, conflictError <> Wrapf cause msg).
Proof. split; [reflexivity|]. intros cause msg. discriminate. Qed.

(** C1 as stated fails: with two replicas of which the pod of ordinal 1
    is already updated, the run ends without an error and the only
    partition it wrote is 0. *)
Lemma skipped_ordinal_is_not_written :
  let run := simStrategy 2 (withUpToDate [1] (simCluster 2)) in
  resultOf run = Some (false, None)
  /\ acceptedWrites (traceOf run) = [0]
  /\ map fst (writes (traceOf run)) = [0]
  /\ acceptedWrites (traceOf run) <> countdown 2.
Proof. vm_compute. repeat split. discriminate. Qed.

Lemma partition_writes_descend_witness :
  let run := simStrategy 3 (withConflicts 2 (simCluster 3)) in
  Replicas (sts (simUpdateSts 3)) = Some 3
  /\ 0 <= 3 <= MaxInt32
  /\ Sorted followsOn (writes (traceOf run))
  /\ StronglySorted Z.gt (acceptedWrites (traceOf run)).
Proof.
  intros run. split; [reflexivity|]. split; [unfold MaxInt32; lia|].
  edestruct (partition_writes_descend Cluster simRuntime 10 simVerify (simUpdateSts 3)
               simTimer simLogger (withConflicts 2 (simCluster 3)) 3)
    as (_ & _ & Hs & _ & Hgt & _).
  - reflexivity.
  - unfold MaxInt32. lia.
  - vm_compute. reflexivity.
  - split; [exact Hs | exact Hgt].
Defined.

Lemma hint_is_last_skip_witness :
  let run := simStrategy 2 (withUpToDate [0] (simCluster 2)) in
  Replicas (sts (simUpdateSts 2)) = Some 2
  /\ 1 <= 2 <= MaxInt32
  /\ resultOf run = Some (true, None)
  /\ In (EvVerify Precheck 0 None) (traceOf run).
Proof.
  intros run. split; [reflexivity|]. split; [unfold MaxInt32; lia|].
  split; [vm_compute; reflexivity|].
  eapply (hint_is_last_skip Cluster simRuntime 10 simVerify (simUpdateSts 2)
            simTimer simLogger (withUpToDate [0] (simCluster 2)) 2 true).
  - reflexivity.
  - unfold MaxInt32. lia.
  - vm_compute. reflexivity.
  - reflexivity.
Defined.

Lemma failed_probe_ends_rollout_witness :
  let st := {| ls_updateSts := simUpdateSts 2; ls_sts := RefShared; skipSleep := false |} in
  let w := withSick 1 (errorString "unhealthy") (simCluster 2) in
  fst (simVerify (simUpdateSts 2) (Z.of_nat 1) simLogger w)
  = Some (errorString "pod is not updated")
  /\ fst (simReady simLogger w) = None
  /\ exists w' tr,
       rolloutLoop simRuntime 10 simVerify simTimer simLogger 2 st w
       = Done (false, Some (errorString "unhealthy")) w' tr.
Proof.
  intros st w. split; [reflexivity|]. split; [reflexivity|].
  do 2 eexists.
  eapply (failed_probe_ends_rollout Cluster simRuntime 10 simVerify simTimer simLogger
            1%nat st w).
  - reflexivity.
  - reflexivity.
  - vm_compute. reflexivity.
  - vm_compute. reflexivity.
  - vm_compute. reflexivity.
  - vm_compute. reflexivity.
Defined.

Lemma failed_readiness_precedes_update_witness :
  let st := {| ls_updateSts := simUpdateSts 2; ls_sts := RefShared; skipSleep := false |} in
  let w := withUnready (errorString "pods not ready") (simCluster 2) in
  fst (simVerify (simUpdateSts 2) (Z.of_nat 1) simLogger w)
  = Some (errorString "pod is not updated")
  /\ fst (simReady simLogger w) = Some (errorString "pods not ready")
  /\ rolloutLoop simRuntime 10 simVerify simTimer simLogger 2 st w
     = Done (false,
             Some (Wrapf (errorString "pods not ready")
                     "error while waiting for all pods to be ready"))
         w
         [EvVerify Precheck 1 (Some (errorString "pod is not updated"));
          EvWaitReady (Some (errorString "pods not ready"))].
Proof.
  intros st w. split; [reflexivity|]. split; [reflexivity|].
  apply (failed_readiness_precedes_update Cluster simRuntime 10 simVerify simTimer
           simLogger 1%nat st w (errorString "pod is not updated")
           (errorString "pods not ready")); reflexivity.
Defined.

(** * More of the update code *)

Lemma visited_app (t1 t2 : list Event) : visited (t1 ++ t2) = visited t1 ++ visited t2.
Proof.
  induction t1 as [|ev t1 IH]; [reflexivity|].
  destruct ev as [[|] ? ?| | | | | | | | | |]; simpl; now rewrite ?IH.
Qed.

Lemma readyWaits_app (t1 t2 : list Event) :
  readyWaits (t1 ++ t2) = (readyWaits t1 + readyWaits t2)%nat.
Proof.
  induction t1 as [|ev t1 IH]; [reflexivity|].
  destruct ev as [|[|]| | | | | | | | |]; simpl; now rewrite ?IH.
Qed.

Lemma probed_app (t1 t2 : list Event) : probed (t1 ++ t2) = probed t1 ++ probed t2.
Proof.
  induction t1 as [|ev t1 IH]; [reflexivity|].
  destruct ev; simpl; now rewrite ?IH.
Qed.

Lemma inert_readings (k : Z) (mid : list Event) :
  Forall (inert k) mid -> visited mid = [] /\ readyWaits mid = O /\ probed mid = [].
Proof.
  induction 1 as [|ev mid Hev _ IH]; [now repeat split|].
  destruct ev as [[|] ? ?|[|]| | | | | | | | |]; simpl in *; try contradiction; exact IH.
Qed.

(** What the three readings are on each shape of an iteration. *)
Lemma run_readings {World : Type} l k (st : LoopState World) tr ctl :
  IterationRun l k st tr ctl ->
  visited tr = [k]
  /\ (readyWaits tr <= 1)%nat
  /\ (updateCalls tr <= retryBudget * readyWaits tr)%nat
  /\ match ctl with
     | Continue _ => probed tr = acceptedWrites tr
     | Return _ => exists rest, acceptedWrites tr = probed tr ++ rest
                                /\ (List.length rest <= 1)%nat
     end.
Proof.
  destruct 1 as [|ve e|ve mid e Ha|ve mid label e Ha Hp _|ve mid label st' Ha Hp _ _];
    unfold Attempts in *; change retryBudget with 6%nat in *.
  - simpl. split; [reflexivity|]. split; [lia|]. split; [lia | reflexivity].
  - simpl. split; [reflexivity|]. split; [lia|]. split; [lia|].
    exists []. split; [reflexivity | simpl; lia].
  - destruct Ha as (Hin & _ & Hacc & Hcalls).
    destruct (inert_readings _ _ Hin) as (Hv & Hr & Hpr).
    simpl. rewrite Hv, Hr, Hpr.
    split; [reflexivity|]. split; [lia|]. split; [lia|].
    exists (acceptedWrites mid). split; [reflexivity|].
    destruct Hacc as [-> | ->]; simpl; lia.
  - destruct Ha as (Hin & _ & _ & Hcalls). destruct Hp as (Hacc & _).
    destruct (inert_readings _ _ Hin) as (Hv & Hr & Hpr).
    simpl. rewrite visited_app, readyWaits_app, probed_app, acceptedWrites_app,
      updateCalls_app, Hv, Hr, Hpr, Hacc. simpl.
    split; [reflexivity|]. split; [lia|]. split; [lia|].
    exists []. split; [reflexivity | simpl; lia].
  - destruct Ha as (Hin & _ & _ & Hcalls). destruct Hp as (Hacc & _).
    destruct (inert_readings _ _ Hin) as (Hv & Hr & Hpr).
    simpl. rewrite visited_app, readyWaits_app, probed_app, acceptedWrites_app,
      updateCalls_app, Hv, Hr, Hpr, Hacc. simpl.
    split; [reflexivity|]. split; [lia|]. split; [lia | reflexivity].
Qed.

Section More.

Variable World : Type.
Variable rt : Runtime World.

(** X1: the ordinals are visited from the highest down, none left out and
    none twice: the checks at the top of the iterations of a run are a
    first part of [N - 1, ..., 0], and all of it when the run ends without
    an error. *)
Theorem ordinals_visited_in_order fuel v u timer l (w : World) N hint err w' tr :
  Replicas (sts u) = Some N -> 0 <= N <= MaxInt32 ->
  PartitionedRollingUpdateStrategy rt fuel v u timer l w = Done (hint, err) w' tr ->
  (exists m, (m <= Z.to_nat N)%nat /\ visited tr = firstn m (countdown (Z.to_nat N)))
  /\ (err = None -> visited tr = countdown (Z.to_nat N)).
Proof.
  intros HN Hrange H. apply (strategy_run World rt fuel v u timer l w N _ w' tr HN Hrange) in H.
  revert H. generalize (Z.to_nat N). intros n H.
  apply (rolloutLoop_runs World rt fuel v timer l
           (fun n _ tr r =>
              (exists m, (m <= n)%nat /\ visited tr = firstn m (countdown n))
              /\ (snd r = None -> visited tr = countdown n))) in H.
  - exact H.
  - intros st0. split; [now exists O | reflexivity].
  - intros n0 st0 t1 r0 Hrun. pose proof (run_return World l _ _ _ _ Hrun) as (e & ->).
    apply run_readings in Hrun. destruct Hrun as (Hv & _).
    split; [|discriminate]. exists 1%nat. split; [lia | exact Hv].
  - intros n0 st0 t1 st' t2 r0 Hrun ((m & Hm & Hvis) & Hall).
    apply run_readings in Hrun. destruct Hrun as (Hv & _).
    rewrite visited_app, Hv. split.
    + exists (S m). split; [lia|]. simpl. now rewrite Hvis.
    + intros Hnone. simpl. now rewrite (Hall Hnone).
Qed.

(** X2: no update call is made without a readiness wait that went through in
    the same iteration: a run makes at most one such wait per ordinal and
    at most [retryBudget] update calls per wait. *)
Theorem update_calls_need_readiness fuel v u timer l (w : World) N r w' tr :
  Replicas (sts u) = Some N -> 0 <= N <= MaxInt32 ->
  PartitionedRollingUpdateStrategy rt fuel v u timer l w = Done r w' tr ->
  (updateCalls tr <= retryBudget * readyWaits tr)%nat
  /\ Z.of_nat (readyWaits tr) <= N.
Proof.
  intros HN Hrange H.
  apply (strategy_run World rt fuel v u timer l w N _ w' tr HN Hrange) in H.
  cut ((updateCalls tr <= retryBudget * readyWaits tr)%nat
       /\ Z.of_nat (readyWaits tr) <= Z.of_nat (Z.to_nat N));
    [intros (Hc & Hr); split; [exact Hc | lia]|].
  revert H. generalize (Z.to_nat N). intros n H.
  apply (rolloutLoop_runs World rt fuel v timer l
           (fun n _ tr _ =>
              (updateCalls tr <= retryBudget * readyWaits tr)%nat
              /\ Z.of_nat (readyWaits tr) <= Z.of_nat n)) in H.
  - exact H.
  - intros st0. simpl. lia.
  - intros n0 st0 t1 r0 Hrun. apply run_readings in Hrun.
    destruct Hrun as (_ & Hone & Hcalls & _). lia.
  - intros n0 st0 t1 st' t2 r0 Hrun (IHc & IHr). apply run_readings in Hrun.
    destruct Hrun as (_ & Hone & Hcalls & _).
    rewrite updateCalls_app, readyWaits_app. change retryBudget with 6%nat in *. lia.
Qed.

(** X3: the health checker is asked about the ordinals whose update the store
    accepted, in that order, and about no other: in a run that ends
    without an error the two lists are the same, and in any run at most
    the last accepted update has no probe. *)
Theorem probes_follow_accepted_updates fuel v u timer l (w : World) N hint err w' tr :
  Replicas (sts u) = Some N -> 0 <= N <= MaxInt32 ->
  PartitionedRollingUpdateStrategy rt fuel v u timer l w = Done (hint, err) w' tr ->
  (exists rest, acceptedWrites tr = probed tr ++ rest /\ (List.length rest <= 1)%nat)
  /\ (err = None -> probed tr = acceptedWrites tr).
Proof.
  intros HN Hrange H.
  apply (strategy_run World rt fuel v u timer l w N _ w' tr HN Hrange) in H.
  revert H. generalize (Z.to_nat N). intros n H.
  apply (rolloutLoop_runs World rt fuel v timer l
           (fun _ _ tr r =>
              (exists rest, acceptedWrites tr = probed tr ++ rest
                            /\ (List.length rest <= 1)%nat)
              /\ (snd r = None -> probed tr = acceptedWrites tr))) in H.
  - exact H.
  - intros st0. split; [|reflexivity]. exists []. split; [reflexivity | simpl; lia].
  - intros n0 st0 t1 r0 Hrun. pose proof (run_return World l _ _ _ _ Hrun) as (e & ->).
    apply run_readings in Hrun. destruct Hrun as (_ & _ & _ & Hrest).
    split; [exact Hrest | discriminate].
  - intros n0 st0 t1 st' t2 r0 Hrun ((rest & Hrest & Hlen) & IH).
    apply run_readings in Hrun. destruct Hrun as (_ & _ & _ & Heq).
    rewrite probed_app, acceptedWrites_app, Heq. split.
    + exists rest. split; [|exact Hlen]. now rewrite Hrest, app_assoc.
    + intros Hnone. now rewrite (IH Hnone).
Qed.

(** X4: a rollout over pods that all verify already: the strategy checks
    every ordinal once, from the highest down, calls neither the store nor
    the readiness wait nor the health checker, and returns the hint set
    and no error. *)
Theorem verified_rollout_is_noop fuel (v : PerPodVerificationFunc World) u timer l
    (w : World) N :
  (forall u0 p l0 w0, fst (v u0 p l0 w0) = None) ->
  Replicas (sts u) = Some N -> 1 <= N <= MaxInt32 ->
  exists w' tr,
    PartitionedRollingUpdateStrategy rt fuel v u timer l w = Done (true, None) w' tr
    /\ Forall skipEvent tr
    /\ visited tr = countdown (Z.to_nat N).
Proof.
  intros Hv HN Hrange. unfold PartitionedRollingUpdateStrategy. rewrite HN.
  rewrite (proj2 (iterations_in_range N ltac:(lia))).
  assert (Hloop : forall n st w0,
             exists w' tr,
               rolloutLoop rt fuel v timer l n st w0
               = Done (match n with O => skipSleep st | S _ => true end, None) w' tr
               /\ Forall skipEvent tr /\ visited tr = countdown n).
  { induction n as [|n IH]; intros st w0.
    - exists w0, []. repeat split. constructor.
    - set (st1 := {| ls_updateSts := ls_updateSts st; ls_sts := ls_sts st;
                     skipSleep := true |}).
      destruct (IH st1 (snd (v (ls_updateSts st) (Z.of_nat n) l w0)))
        as (w' & tr & Hrun & Hskip & Hvis).
      exists w',
        ([EvVerify Precheck (Z.of_nat n) None;
          EvLogInfo l DebugLevel "already updated, skipping sleep"
            [("partition"%string, VInt (Z.of_nat n))]] ++ tr).
      split; [|split].
      + assert (Hit : iteration rt fuel v timer l (Z.of_nat n) st w0
                      = Done (Continue st1)
                          (snd (v (ls_updateSts st) (Z.of_nat n) l w0))
                          [EvVerify Precheck (Z.of_nat n) None;
                           EvLogInfo l DebugLevel "already updated, skipping sleep"
                             [("partition"%string, VInt (Z.of_nat n))]]).
        { unfold iteration, callVerify.
          rewrite (bind_run World _ _ _ _ _ _ (call_run World _ _ _)), Hv.
          reflexivity. }
        cbn [rolloutLoop]. rewrite (bind_run World _ _ _ _ _ _ Hit), Hrun.
        destruct n; reflexivity.
      + constructor; [exact I|]. constructor; [exact I | exact Hskip].
      + simpl. now rewrite Hvis. }
  destruct (Z.to_nat N) as [|n] eqn:Hn; [lia|].
  apply (Hloop (S n)).
Qed.

(** X5: A StatefulSet with a negative number of replicas: the loop counter
    starts below zero and the strategy does nothing, as for zero replicas.
    This holds down to the smallest [int32] excluded, where the
    subtraction wraps around to the largest. *)
Theorem negative_replicas_no_iteration fuel v u timer l (w : World) N :
  Replicas (sts u) = Some N -> MinInt32 < N <= 0 ->
  PartitionedRollingUpdateStrategy rt fuel v u timer l w = Done (false, None) w []
  /\ int32 (MinInt32 - 1) = MaxInt32.
Proof.
  intros HN Hrange. split; [|reflexivity].
  unfold PartitionedRollingUpdateStrategy. rewrite HN.
  assert (Hit : iterations N = O).
  { unfold iterations, int32, MinInt32 in *.
    rewrite Z.mod_small by lia. lia. }
  now rewrite Hit.
Qed.

(** ** The entry point, on its failures *)

(** X6: when the StatefulSet cannot be fetched, the entry point logs and
    returns the classified error of the store and no hint, under the
    logger named after the namespace; neither the update function nor the
    strategy is called. *)
Theorem controller_get_failure clientset name ns suite ready timeout maxPoll health l
    (w : World) e :
  fst (stsGet clientset ns name w) = inr e ->
  UpdateClusterRegionStatefulSet clientset name ns suite ready timeout maxPoll health l w
  = Done (false, Some (classified e name ns)) (snd (stsGet clientset ns name w))
      [EvGet ns name (inr e); classifierLog e (WithName l ns) name ns].
Proof.
  intros Hget. unfold UpdateClusterRegionStatefulSet, callGet.
  rewrite (bind_run World _ _ _ _ _ _ (call_run World _ _ _)), Hget.
  now rewrite (bind_run World _ _ _ _ _ _ (handleStsError_run World _ _ _ _ _)).
Qed.

(** X7: when the update function fails, the entry point returns its error,
    wrapped with the name and the namespace, and no hint; the strategy is
    not called, so nothing is sent to the store. *)
Theorem controller_update_func_failure
    clientset name ns suite ready timeout maxPoll health l (w : World) obj e :
  fst (stsGet clientset ns name w) = inl obj ->
  let w1 := snd (stsGet clientset ns name w) in
  fst (updateFunc suite obj w1) = inr e ->
  UpdateClusterRegionStatefulSet clientset name ns suite ready timeout maxPoll health l w
  = Done (false,
          Some (Wrapf e ("error applying updateFunc to " +++ name +++ " " +++ ns)%string))
      (snd (updateFunc suite obj w1))
      [EvGet ns name (inl obj); EvUpdateFunc obj (inr e)].
Proof.
  intros Hget w1 Hfun. unfold UpdateClusterRegionStatefulSet, callGet.
  rewrite (bind_run World _ _ _ _ _ _ (call_run World _ _ _)), Hget.
  rewrite (bind_run World _ _ _ _ _ _ (call_run World _ _ _)). fold w1.
  now rewrite Hfun.
Qed.

(** X8: whatever the update function and the strategy do, the entry point
    returns the hint set only together with no error. *)
Theorem controller_hint_means_success
    clientset name ns suite ready timeout maxPoll health l (w : World) err w' tr :
  UpdateClusterRegionStatefulSet clientset name ns suite ready timeout maxPoll health l w
  = Done (true, err) w' tr ->
  err = None.
Proof.
  intros H. unfold UpdateClusterRegionStatefulSet in H.
  apply bind_Done in H. destruct H as (got & w1 & t1 & t2 & _ & H & _).
  destruct got as [obj|e].
  - apply bind_Done in H. destruct H as (res & w2 & t3 & t4 & _ & H & _).
    destruct res as [obj'|e]; [|discriminate].
    apply bind_Done in H. destruct H as ([hint serr] & w3 & t5 & t6 & _ & H & _).
    destruct serr as [e|]; [discriminate|]. now injection H as _ <-.
  - rewrite (bind_run World _ _ _ _ _ _ (handleStsError_run World _ _ _ _ _)) in H.
    discriminate.
Qed.

(** ** The update of one ordinal, against any store *)

Lemma OnConflict_total steps u ns nm k last (w : World) :
  exists r w' tr, OnConflict rt steps (refetchAndUpdate u ns nm k) last w = Done r w' tr.
Proof.
  revert last w. induction steps as [|steps IH]; intros last w.
  - now exists last, w, [].
  - cbn [OnConflict].
    destruct (refetchAndUpdate_run World u ns nm k w) as (r1 & w1 & t1 & Hfn & _).
    rewrite (bind_run World _ _ _ _ _ _ Hfn).
    destruct r1 as [e|]; [|do 3 eexists; reflexivity].
    destruct (IsConflict e); [|do 3 eexists; reflexivity].
    destruct steps as [|steps']; [do 3 eexists; reflexivity|].
    unfold sleep at 1. rewrite (bind_run World _ _ _ _ _ _ eq_refl).
    destruct (IH (Some e) (timeSleep rt RetryStep w1)) as (r & w' & tr & ->).
    do 3 eexists. reflexivity.
Qed.

(** X9: whatever the store answers, the update of one ordinal ends after one
    to [retryBudget] update calls, each carrying the partition, and tells
    the truth about the store: it reports no error exactly when the store
    accepted an update, which then is the last call, and it reports an
    error exactly when the store accepted none. *)
Theorem persist_reports_store_outcome u obj l stsName ns k (w : World) :
  partitionOf obj = Some k ->
  exists r w' tr,
    persistPartition rt u obj l stsName ns k w = Done r w' tr
    /\ (1 <= updateCalls tr <= retryBudget)%nat
    /\ List.length (writes tr) = updateCalls tr
    /\ Forall (fun x => fst x = k) (writes tr)
    /\ Sorted followsOn (writes tr)
    /\ (r = None <-> acceptedWrites tr = [k])
    /\ (r <> None <-> acceptedWrites tr = [])
    /\ (r = None -> exists ws a, writes tr = ws ++ [(k, inl a)]).
Proof.
  intros Hobj.
  assert (Hrun : exists r w' tr,
             persistPartition rt u obj l stsName ns k w = Done r w' tr
             /\ (1 <= updateCalls tr)%nat).
  { unfold persistPartition, callUpdate.
    rewrite (bind_run World _ _ _ _ _ _ (call_run World _ _ _)).
    destruct (fst (stsUpdate (clientset u) ns obj w)) as [a|e]; cbn [errOf].
    - do 3 eexists. split; [reflexivity | simpl; lia].
    - destruct (IsConflict e).
      + unfold RetryOnConflict.
        destruct (OnConflict_total (Steps DefaultRetry) u ns (Name obj) k None
                    (snd (stsUpdate (clientset u) ns obj w))) as (r2 & w2 & t2 & Hretry).
        rewrite (bind_run World _ _ _ _ _ _ Hretry).
        destruct r2 as [e2|].
        * rewrite (bind_run World _ _ _ _ _ _ (handleStsError_run World _ _ _ _ _)).
          do 3 eexists. split; [reflexivity | simpl; lia].
        * do 3 eexists. split; [reflexivity | simpl; lia].
      + rewrite (bind_run World _ _ _ _ _ _ (handleStsError_run World _ _ _ _ _)).
        do 3 eexists. split; [reflexivity | simpl; lia]. }
  destruct Hrun as (r & w' & tr & Hrun & Hone).
  exists r, w', tr. split; [exact Hrun|].
  destruct (persistPartition_attempts World rt _ _ _ _ _ _ _ _ _ _ Hobj Hrun)
    as ((Hin & Hs & Hacc & Hcalls) & Hres).
  split; [lia|]. split; [exact (inert_writes_length k tr Hin)|].
  split; [now apply inert_writes|]. split; [exact Hs|].
  destruct r as [e|].
  - rewrite Hres. split; [split; discriminate|]. split; [split; congruence|].
    discriminate.
  - destruct Hres as (Hk & Hlast). rewrite Hk.
    split; [split; reflexivity|]. split; [split; [congruence | discriminate]|].
    intros _. exact Hlast.
Qed.

(** ** The poller *)

Lemma polls_app (t1 t2 : list Event) : polls (t1 ++ t2) = (polls t1 + polls t2)%nat.
Proof.
  induction t1 as [|ev t1 IH]; [reflexivity|].
  destruct ev as [[|] ? ?| | | | | | | | | |]; simpl; now rewrite ?IH.
Qed.

Lemma retryLoop_counts fuel v u k l b (w : World) r w' tr :
  retryLoop rt fuel (callVerify Poll v u k l) b w = Done r w' tr ->
  polls tr = S (backoffSleeps tr)
  /\ backoffQueries tr
     = match r with None => backoffSleeps tr | Some _ => S (backoffSleeps tr) end.
Proof.
  revert w r w' tr. induction fuel as [|fuel IH]; intros w r w' tr H; [discriminate|].
  cbn [retryLoop] in H.
  apply bind_Done in H. destruct H as (err & w1 & t1 & t2 & Hv & H & ->).
  unfold callVerify in Hv. rewrite call_run in Hv. injection Hv as <- <- <-.
  destruct (fst (v u k l w)) as [e|].
  - apply bind_Done in H. destruct H as (next & w2 & t3 & t4 & Hn & H & ->).
    rewrite call_run in Hn. injection Hn as <- <- <-.
    destruct (fst (NextBackOff rt b _)) as [d|].
    + apply bind_Done in H. destruct H as ([] & w3 & t5 & t6 & Hs & H & ->).
      unfold sleep in Hs. injection Hs as <- <-.
      apply IH in H. destruct H as (Hp & Hq). simpl. rewrite Hp, Hq.
      destruct r; split; reflexivity.
    + injection H as <- <- <-. split; reflexivity.
  - injection H as <- <- <-. split; reflexivity.
Qed.

(** X10: the poller calls the verification function for its pod at least once
    and one time more than it sleeps; it asks the backoff policy after
    every call that failed; it makes no call to the store.  It returns nil
    when its last call succeeded and otherwise, the policy having stopped,
    the error of its last call.  A verification that succeeds at once is
    the only call: no sleep and no question to the policy. *)
Theorem poller_calls_and_result fuel u v k timer l (w : World) r w' tr :
  waitUntilPerPodVerificationFuncVerifies rt fuel u v k timer l w = Done r w' tr ->
  polls tr = S (backoffSleeps tr)
  /\ backoffQueries tr
     = match r with None => backoffSleeps tr | Some _ => S (backoffSleeps tr) end
  /\ updateCalls tr = O
  /\ Forall (quiet k) tr
  /\ (exists pre,
         tr = pre ++ match r with
                     | None => [EvVerify Poll k None]
                     | Some e => [EvVerify Poll k (Some e); EvNextBackOff None]
                     end)
  /\ (fst (v u k l (backoffReset rt
                      {| MaxElapsedTime := podUpdateTimeout timer;
                         MaxInterval := podMaxPollingInterval timer |} w)) = None ->
      tr = [EvBackOffReset; EvVerify Poll k None] /\ r = None).
Proof.
  intros H. pose proof (poller_quiet World rt _ _ _ _ _ _ _ _ _ _ H) as (Hq & _).
  unfold waitUntilPerPodVerificationFuncVerifies, Retry in H.
  apply bind_Done in H. destruct H as ([] & w1 & t1 & t2 & Hreset & H & ->).
  injection Hreset as <- <-.
  pose proof (retryLoop_counts _ _ _ _ _ _ _ _ _ _ H) as (Hp & Hb).
  pose proof (retryLoop_last_poll World rt _ _ _ _ _ _ _ _ _ _ H) as (pre & Hpre).
  split; [exact Hp|]. split; [exact Hb|].
  split; [exact (proj2 (proj2 (quiet_writes k _ Hq)))|]. split; [exact Hq|]. split.
  - exists (EvBackOffReset :: pre). simpl. now rewrite Hpre.
  - intros Hv. destruct fuel as [|fuel]; [discriminate|]. cbn [retryLoop] in H.
    unfold callVerify in H.
    rewrite (bind_run World _ _ _ _ _ _ (call_run World _ _ _)), Hv in H.
    injection H as <- <- <-. now split.
Qed.

End More.

(** ** Which object an update call sends *)

Lemma sendsLatest_app a (t1 t2 : list Event) :
  sendsLatest a (t1 ++ t2) <-> sendsLatest a t1 /\ sendsLatest (lastFetched a t1) t2.
Proof.
  revert a. induction t1 as [|ev t1 IH]; intros a; simpl; [tauto|].
  destruct ev as [| |ns obj res|ns nm [f|e]| | | | | | |]; simpl; rewrite ?IH; tauto.
Qed.

Lemma lastFetched_app a (t1 t2 : list Event) :
  lastFetched a (t1 ++ t2) = lastFetched (lastFetched a t1) t2.
Proof.
  revert a. induction t1 as [|ev t1 IH]; intros a; simpl; [reflexivity|].
  destruct ev as [| |ns obj res|ns nm [f|e]| | | | | | |]; simpl; now rewrite ?IH.
Qed.

Lemma offline_sends a (tr : list Event) :
  Forall offline tr -> sendsLatest a tr /\ lastFetched a tr = a.
Proof.
  induction 1 as [|ev tr Hev _ IH]; simpl; [now split|].
  destruct ev; simpl in Hev; try contradiction; exact IH.
Qed.

Lemma quiet_sends k a (tr : list Event) : Forall (quiet k) tr -> sendsLatest a tr.
Proof.
  intros H. revert a. induction H as [|ev tr Hev _ IH]; intros a; simpl; [exact I|].
  destruct ev as [| |ns obj res|ns nm [f|e]| | | | | | |]; simpl in Hev;
    try contradiction; apply IH.
Qed.

Lemma sendsLatest_any a (tr : list Event) : sendsLatest None tr -> sendsLatest a tr.
Proof.
  induction tr as [|ev tr IH]; simpl; [trivial|].
  destruct ev as [| |ns obj res|ns nm [f|e]| | | | | | |]; simpl; try exact IH.
  - intros ((base & p & Hnone & _) & _). discriminate.
  - trivial.
Qed.

Lemma lastFetched_any a (tr : list Event) f :
  lastFetched None tr = Some f -> lastFetched a tr = Some f.
Proof.
  induction tr as [|ev tr IH]; simpl; [discriminate|].
  destruct ev as [| |ns obj res|ns nm [f0|e]| | | | | | |]; simpl; try exact IH.
  trivial.
Qed.

Lemma RetryTrace_sends ns nm k (tr : list Event) a :
  RetryTrace ns nm k tr -> sendsLatest a tr.
Proof.
  intros H. revert a. induction H as [|e rest _ IH|fetched res rest _ IH|rest _ IH];
    intros a; simpl.
  - exact I.
  - apply IH.
  - split; [now exists fetched, k | apply IH].
  - apply IH.
Qed.

Section Aliasing.

Variable World : Type.
Variable rt : Runtime World.

Lemma assignPartition_deref (u : UpdateSts World) ref k :
  deref (fst (assignPartition u ref k)) (snd (assignPartition u ref k))
  = setRollingUpdate (deref u ref) k.
Proof. destruct ref; reflexivity. Qed.

Lemma persistPartition_sends u obj l stsName ns k (w : World) r w' tr :
  persistPartition rt u obj l stsName ns k w = Done r w' tr ->
  exists res post, tr = EvUpdate ns obj res :: post /\ sendsLatest None post.
Proof.
  intros H. unfold persistPartition in H.
  apply bind_Done in H. destruct H as (res & w1 & t1 & t2 & Hupd & H & ->).
  unfold callUpdate in Hupd. rewrite call_run in Hupd. injection Hupd as <- <- <-.
  exists (fst (stsUpdate (clientset u) ns obj w)), t2. split; [reflexivity|].
  destruct (fst (stsUpdate (clientset u) ns obj w)) as [a|e]; simpl in H.
  - injection H as <- <- <-. exact I.
  - destruct (IsConflict e).
    + apply bind_Done in H. destruct H as (r2 & w2 & t3 & t4 & Hretry & H & ->).
      apply OnConflict_RetryTrace in Hretry.
      apply sendsLatest_app. split; [now apply (RetryTrace_sends _ _ _ _ _ Hretry)|].
      destruct r2 as [e2|].
      * rewrite (bind_run World _ _ _ _ _ _ (handleStsError_run World _ _ _ _ _)) in H.
        injection H as <- <- <-.
        apply (quiet_sends k). constructor; [apply classifierLog_quiet | constructor].
      * injection H as <- <- <-. exact I.
    + rewrite (bind_run World _ _ _ _ _ _ (handleStsError_run World _ _ _ _ _)) in H.
      injection H as <- <- <-.
      apply (quiet_sends k). constructor; [apply classifierLog_quiet | constructor].
Qed.

(** What one iteration sends: nothing, and then it leaves the variables
    of the loop as they are; or first the object [sts] points to with the
    partition set, and then objects it fetched, and it leaves [sts]
    pointing to the last object it fetched. *)
Lemma iteration_sends fuel v timer l k st (w : World) ctl w' tr :
  iteration rt fuel v timer l k st w = Done ctl w' tr ->
  let base := deref (ls_updateSts st) (ls_sts st) in
  (Forall offline tr
   /\ forall st', ctl = Continue st' ->
                  ls_sts st' = ls_sts st /\ ls_updateSts st' = ls_updateSts st)
  \/ (exists pre res post,
         tr = pre ++ EvUpdate (Namespace base) (setRollingUpdate base k) res :: post
         /\ Forall offline pre
         /\ sendsLatest None post
         /\ forall st', ctl = Continue st' ->
                        exists f, ls_sts st' = RefFetched f
                                  /\ lastFetched None post = Some f).
Proof.
  intros H base. unfold iteration in H.
  apply bind_Done in H. destruct H as (pre & w1 & t1 & t2 & Hv & H & ->).
  unfold callVerify in Hv. rewrite call_run in Hv. injection Hv as <- <- <-.
  destruct (fst (v (ls_updateSts st) k l w)) as [ve|].
  2:{ injection H as <- <- <-. left. split.
      - repeat constructor.
      - intros st' [= <-]. now split. }
  apply bind_Done in H. destruct H as (ready & w2 & t3 & t4 & Hr & H & ->).
  rewrite call_run in Hr. injection Hr as <- <- <-.
  destruct (fst (waitUntilAllPodsReadyFunc timer l _)) as [e|].
  { injection H as <- <- <-. left. split; [repeat constructor | discriminate]. }
  pose proof (assignPartition_deref (ls_updateSts st) (ls_sts st) k) as Hobj.
  destruct (assignPartition (ls_updateSts st) (ls_sts st) k) as [u' ref'].
  simpl in Hobj. fold base in Hobj.
  apply bind_Done in H. destruct H as (failed & w3 & tp & t5 & Hp & H & ->).
  apply persistPartition_sends in Hp. destruct Hp as (res & post & -> & Hpost).
  rewrite Hobj. right.
  exists [EvVerify Precheck k (Some ve); EvWaitReady None], res, (post ++ t5).
  split; [reflexivity|]. split; [repeat constructor|].
  rewrite sendsLatest_app, lastFetched_app.
  destruct failed as [h|].
  { injection H as <- <- <-. split; [now split | discriminate]. }
  apply bind_Done in H. destruct H as ([] & w4 & t6 & t7 & Hl & H & ->).
  injection Hl as <- <-.
  apply bind_Done in H. destruct H as (verr & w5 & tv & t8 & Hpoll & H & ->).
  apply poller_quiet in Hpoll. destruct Hpoll as (Hq & _).
  set (waiting := EvLogInfo l DebugLevel "waiting until partition done updating"
                    [("partition number:"%string, VInt k)]) in *.
  assert (Hq1 : Forall (quiet k) (waiting :: tv)) by (constructor; [exact I | exact Hq]).
  destruct verr as [e|].
  { injection H as <- <- <-. rewrite app_nil_r.
    split; [split; [exact Hpost | now apply (quiet_sends k)] | discriminate]. }
  apply bind_Done in H. destruct H as (got & w6 & tg & t9 & Hg & H & ->).
  unfold callGet in Hg. rewrite call_run in Hg. injection Hg as <- <- <-.
  set (stsName := Name (deref (ls_updateSts st) (ls_sts st))) in *.
  set (ns := Namespace (deref (ls_updateSts st) (ls_sts st))) in *.
  set (got := fst (stsGet (clientset u') ns stsName w5)) in *.
  assert (Hq2 : Forall (quiet k) (waiting :: tv ++ [EvGet ns stsName got])).
  { constructor; [exact I|]. apply Forall_app. split; [exact Hq|].
    constructor; [exact I | constructor]. }
  destruct got as [fetched|e] eqn:Hgot.
  2:{ rewrite (bind_run World _ _ _ _ _ _ (handleStsError_run World _ _ _ _ _)) in H.
      injection H as <- <- <-. split; [|discriminate]. split; [exact Hpost|].
      apply (quiet_sends k). cbn [app].
      constructor; [exact I|]. apply Forall_app. split; [exact Hq|].
      constructor; [exact I|].
      constructor; [apply classifierLog_quiet | constructor]. }
  apply bind_Done in H. destruct H as (perr & w7 & tb & t10 & Hb & H & ->).
  rewrite call_run in Hb. injection Hb as <- <- <-.
  assert (Hsend : forall a tl,
             Forall offline tl ->
             sendsLatest a
               ((waiting :: tv) ++ [EvGet ns stsName (inl fetched)] ++ tl)
             /\ lastFetched a ((waiting :: tv) ++ [EvGet ns stsName (inl fetched)] ++ tl)
                = Some fetched).
  { intros a tl Htl. rewrite sendsLatest_app, lastFetched_app. simpl.
    destruct (offline_sends (Some fetched) tl Htl) as (Hs & Hl).
    split; [split; [now apply (quiet_sends k) | exact Hs] | exact Hl]. }
  destruct (fst (Probe (healthChecker timer) l _ k _)) as [e|].
  - injection H as <- <- <-. split; [|discriminate]. split; [exact Hpost|].
    rewrite app_nil_r. apply Hsend. repeat constructor.
  - injection H as <- <- <-. rewrite app_nil_r.
    destruct (Hsend (lastFetched None post)
                [EvProbe ("between updating pods for " +++ stsName)%string k None])
      as (Hs & Hl); [repeat constructor|].
    split; [split; [exact Hpost | exact Hs]|].
    intros st' [= <-]. exists fetched. split; [reflexivity | exact Hl].
Qed.

Lemma rolloutLoop_sends fuel v timer l n st (w : World) r w' tr :
  rolloutLoop rt fuel v timer l n st w = Done r w' tr -> LoopSends st tr.
Proof.
  revert st w r w' tr. induction n as [|n IH]; intros st w r w' tr H.
  - injection H as <- <- <-. unfold LoopSends. destruct (ls_sts st); [now left | exact I].
  - apply rolloutLoop_step in H. destruct H as (ctl & w1 & t1 & t2 & Hit & -> & H).
    apply iteration_sends in Hit. cbv zeta in Hit.
    assert (Hrest : match ctl with
                    | Continue st' => LoopSends st' t2
                    | Return _ => t2 = []
                    end).
    { destruct ctl as [st'|r0]; [now apply IH in H | now destruct H as (_ & _ & ->)]. }
    clear H IH. unfold LoopSends in *.
    destruct Hit as [(Hoff & Hsame)|(pre & res & post & -> & Hpre & Hpost & Hnext)].
    + destruct ctl as [st'|r0].
      * destruct (Hsame st' eq_refl) as (Href & Hu). rewrite Href, Hu in Hrest.
        destruct (ls_sts st) as [|f].
        -- destruct Hrest as [Hoff2|(pre & p & res & post & -> & Hpre & Hpost)].
           ++ left. apply Forall_app. now split.
           ++ right. exists (t1 ++ pre), p, res, post.
              split; [now rewrite <- app_assoc|].
              split; [apply Forall_app; now split | exact Hpost].
        -- apply sendsLatest_app. destruct (offline_sends (Some f) t1 Hoff) as (Hs & ->).
           now split.
      * subst t2. rewrite app_nil_r. destruct (ls_sts st) as [|f]; [now left|].
        now apply offline_sends.
    + assert (Hall : sendsLatest None (post ++ t2)).
      { apply sendsLatest_app. split; [exact Hpost|].
        destruct ctl as [st'|r0]; [|subst t2; exact I].
        destruct (Hnext st' eq_refl) as (f & Href & ->). now rewrite Href in Hrest. }
      rewrite <- app_assoc. cbn [app].
      destruct (ls_sts st) as [|f]; cbn [deref].
      * right. exists pre, (Z.of_nat n), res, (post ++ t2). now repeat split.
      * apply sendsLatest_app. destruct (offline_sends (Some f) pre Hpre) as (Hs & ->).
        split; [exact Hs|]. cbn [sendsLatest]. split.
        -- now exists f, (Z.of_nat n).
        -- now apply sendsLatest_any.
Qed.

(** X11: the object the caller handed in reaches the store in one update call
    at most, the first of the run, with the partition of its iteration set
    on it.  Every update call after it sends the object of the latest
    fetch that went through, with a partition set on it: the retry after
    a conflict sends what it just fetched, and a later iteration what the
    iteration before it fetched last. *)
Theorem only_first_update_sends_callers_object fuel v u timer l (w : World) N r w' tr :
  Replicas (sts u) = Some N -> 0 <= N <= MaxInt32 ->
  PartitionedRollingUpdateStrategy rt fuel v u timer l w = Done r w' tr ->
  updateCalls tr = O
  \/ exists pre p res post,
       tr = pre ++ EvUpdate (Namespace (sts u)) (setRollingUpdate (sts u) p) res :: post
       /\ updateCalls pre = O
       /\ sendsLatest None post.
Proof.
  intros HN Hrange H.
  apply (strategy_run World rt fuel v u timer l w N _ w' tr HN Hrange) in H.
  apply rolloutLoop_sends in H. unfold LoopSends in H. simpl in H.
  assert (Hcalls : forall t, Forall offline t -> updateCalls t = O).
  { induction 1 as [|ev t Hev _ IHt]; [reflexivity|].
    destruct ev; simpl in Hev; try contradiction; exact IHt. }
  destruct H as [Hoff|(pre & p & res & post & -> & Hpre & Hpost)].
  - left. now apply Hcalls.
  - right. exists pre, p, res, post. split; [reflexivity|]. split; [now apply Hcalls|].
    exact Hpost.
Qed.

End Aliasing.

(** ** Runs on the simulated cluster *)

Lemma ordinals_visited_in_order_witness :
  let run := simStrategy 3 (withSick 1 (errorString "unhealthy") (simCluster 3)) in
  Replicas (sts (simUpdateSts 3)) = Some 3
  /\ 0 <= 3 <= MaxInt32
  /\ resultOf run = Some (false, Some (errorString "unhealthy"))
  /\ exists m, (m <= 3)%nat /\ visited (traceOf run) = firstn m (countdown 3).
Proof.
  intros run. split; [reflexivity|]. split; [unfold MaxInt32; lia|].
  split; [vm_compute; reflexivity|].
  edestruct (ordinals_visited_in_order Cluster simRuntime 10 simVerify (simUpdateSts 3)
               simTimer simLogger (withSick 1 (errorString "unhealthy") (simCluster 3)) 3)
    as (H & _).
  - reflexivity.
  - unfold MaxInt32. lia.
  - vm_compute. reflexivity.
  - exact H.
Defined.

Lemma update_calls_need_readiness_witness :
  let run := simStrategy 3 (withConflicts 2 (simCluster 3)) in
  Replicas (sts (simUpdateSts 3)) = Some 3
  /\ 0 <= 3 <= MaxInt32
  /\ resultOf run = Some (false, None)
  /\ (updateCalls (traceOf run) <= retryBudget * readyWaits (traceOf run))%nat
  /\ Z.of_nat (readyWaits (traceOf run)) <= 3.
Proof.
  intros run. split; [reflexivity|]. split; [unfold MaxInt32; lia|].
  split; [vm_compute; reflexivity|].
  eapply (update_calls_need_readiness Cluster simRuntime 10 simVerify (simUpdateSts 3)
            simTimer simLogger (withConflicts 2 (simCluster 3)) 3).
  - reflexivity.
  - unfold MaxInt32. lia.
  - vm_compute. reflexivity.
Defined.

Lemma probes_follow_accepted_updates_witness :
  let run := simStrategy 3 (withSick 1 (errorString "unhealthy") (simCluster 3)) in
  Replicas (sts (simUpdateSts 3)) = Some 3
  /\ 0 <= 3 <= MaxInt32
  /\ resultOf run = Some (false, Some (errorString "unhealthy"))
  /\ exists rest,
       acceptedWrites (traceOf run) = probed (traceOf run) ++ rest
       /\ (List.length rest <= 1)%nat.
Proof.
  intros run. split; [reflexivity|]. split; [unfold MaxInt32; lia|].
  split; [vm_compute; reflexivity|].
  edestruct (probes_follow_accepted_updates Cluster simRuntime 10 simVerify
               (simUpdateSts 3) simTimer simLogger
               (withSick 1 (errorString "unhealthy") (simCluster 3)) 3)
    as (H & _).
  - reflexivity.
  - unfold MaxInt32. lia.
  - vm_compute. reflexivity.
  - exact H.
Defined.

Lemma verified_rollout_is_noop_witness :
  let v : PerPodVerificationFunc Cluster := fun _ _ _ w => (None, w) in
  (forall u0 p l0 w0, fst (v u0 p l0 w0) = None)
  /\ Replicas (sts (simUpdateSts 2)) = Some 2
  /\ 1 <= 2 <= MaxInt32
  /\ exists w' tr,
       PartitionedRollingUpdateStrategy simRuntime 10 v (simUpdateSts 2) simTimer
         simLogger (simCluster 2) = Done (true, None) w' tr
       /\ Forall skipEvent tr
       /\ visited tr = countdown (Z.to_nat 2).
Proof.
  intros v. split; [reflexivity|]. split; [reflexivity|].
  split; [unfold MaxInt32; lia|].
  apply (verified_rollout_is_noop Cluster simRuntime 10 v (simUpdateSts 2) simTimer
           simLogger (simCluster 2) 2).
  - reflexivity.
  - reflexivity.
  - unfold MaxInt32. lia.
Defined.

Lemma negative_replicas_no_iteration_witness :
  Replicas (sts (simUpdateSts (-2))) = Some (-2)
  /\ MinInt32 < -2 <= 0
  /\ simStrategy (-2) (simCluster (-2)) = Done (false, None) (simCluster (-2)) [].
Proof.
  split; [reflexivity|]. split; [unfold MinInt32; lia|].
  apply (negative_replicas_no_iteration Cluster simRuntime 10 simVerify
           (simUpdateSts (-2)) simTimer simLogger (simCluster (-2)) (-2)).
  - reflexivity.
  - unfold MinInt32. lia.
Defined.

Lemma controller_get_failure_witness :
  let gone := StatusError StatusReasonNotFound "statefulsets crdb not found" in
  let w := {| stored := simSts 1; conflicts := O; updateFailure := None;
              getFailure := Some gone; upToDate := []; unready := None; sick := None;
              patience := 3 |} in
  let suite := NewUpdateFunctionSuite Cluster simUpdateFunc simFailingStrategy in
  fst (stsGet simClientset "db" "crdb" w) = inr gone
  /\ simController suite w
     = Done (false, Some (Wrapf gone "sts is not found: crdb ns: db")) w
         [EvGet "db" "crdb" (inr gone);
          classifierLog gone (WithName simLogger "db") "crdb" "db"].
Proof.
  intros gone w suite. split; [reflexivity|].
  apply (controller_get_failure Cluster simClientset "crdb"%string "db"%string suite simReady
           600000000000 30000000000 simHealth simLogger w gone).
  reflexivity.
Defined.

Lemma controller_update_func_failure_witness :
  let bad := errorString "no such image" in
  let suite :=
    NewUpdateFunctionSuite Cluster (fun _ w => (inr bad, w)) simFailingStrategy in
  fst (stsGet simClientset "db" "crdb" (simCluster 1)) = inl (simSts 1)
  /\ fst (updateFunc suite (simSts 1) (simCluster 1)) = inr bad
  /\ simController suite (simCluster 1)
     = Done (false, Some (Wrapf bad "error applying updateFunc to crdb db"))
         (simCluster 1)
         [EvGet "db" "crdb" (inl (simSts 1)); EvUpdateFunc (simSts 1) (inr bad)].
Proof.
  intros bad suite. split; [reflexivity|]. split; [reflexivity|].
  apply (controller_update_func_failure Cluster simClientset "crdb"%string "db"%string suite
           simReady 600000000000 30000000000 simHealth simLogger (simCluster 1)
           (simSts 1) bad); reflexivity.
Defined.

Lemma controller_hint_means_success_witness :
  let suite :=
    NewUpdateFunctionSuite Cluster simUpdateFunc
      (PartitionedRollingUpdateStrategy simRuntime 10 simVerify) in
  let w := withUpToDate [0] (simCluster 1) in
  let run := simController suite w in
  exists err, run = Done (true, err) w (traceOf run) /\ err = None.
Proof.
  intros suite w run. exists None.
  assert (Hrun : run = Done (true, None) w (traceOf run)) by (vm_compute; reflexivity).
  split; [exact Hrun|].
  exact (controller_hint_means_success Cluster simClientset "crdb"%string "db"%string
           suite simReady 600000000000 30000000000 simHealth simLogger w None w
           (traceOf run) Hrun).
Defined.

Lemma persist_reports_store_outcome_witness :
  partitionOf (setRollingUpdate (simSts 3) 2) = Some 2
  /\ exists r w' tr,
       persistPartition simRuntime (simConflictingUpdateSts 3)
         (setRollingUpdate (simSts 3) 2) simLogger "crdb" "db" 2
         (withConflicts 2 (simCluster 3)) = Done r w' tr
       /\ (1 <= updateCalls tr <= retryBudget)%nat
       /\ (r = None <-> acceptedWrites tr = [2]).
Proof.
  split; [reflexivity|].
  destruct (persist_reports_store_outcome Cluster simRuntime (simConflictingUpdateSts 3)
              (setRollingUpdate (simSts 3) 2) simLogger "crdb" "db" 2
              (withConflicts 2 (simCluster 3)) eq_refl)
    as (r & w' & tr & Hrun & Hcalls & _ & _ & _ & Hacc & _).
  exists r, w', tr. split; [exact Hrun|]. split; [exact Hcalls | exact Hacc].
Defined.

Lemma poller_calls_and_result_witness :
  let run :=
    waitUntilPerPodVerificationFuncVerifies simRuntime 10 (simUpdateSts 2) simVerify 1
      simTimer simLogger (simCluster 2) in
  resultOf run = Some (Some (errorString "pod is not updated"))
  /\ polls (traceOf run) = 4%nat
  /\ polls (traceOf run) = S (backoffSleeps (traceOf run))
  /\ backoffQueries (traceOf run) = S (backoffSleeps (traceOf run))
  /\ updateCalls (traceOf run) = O.
Proof.
  intros run. split; [vm_compute; reflexivity|]. split; [vm_compute; reflexivity|].
  edestruct (poller_calls_and_result Cluster simRuntime 10 (simUpdateSts 2) simVerify 1
               simTimer simLogger (simCluster 2))
    as (Hp & Hq & Hu & _).
  - vm_compute. reflexivity.
  - split; [exact Hp|]. split; [exact Hq | exact Hu].
Defined.

Lemma only_first_update_sends_callers_object_witness :
  let run := simStrategy 3 (withConflicts 2 (simCluster 3)) in
  let w' := {| stored := setRollingUpdate (simSts 3) 0; conflicts := O;
               updateFailure := None; getFailure := None; upToDate := [];
               unready := None; sick := None; patience := 3 |} in
  Replicas (sts (simUpdateSts 3)) = Some 3
  /\ 0 <= 3 <= MaxInt32
  /\ run = Done (false, None) w' (traceOf run)
  /\ (updateCalls (traceOf run) = O
      \/ exists pre p res post,
           traceOf run
           = pre ++ EvUpdate "db" (setRollingUpdate (simSts 3) p) res :: post
           /\ updateCalls pre = O
           /\ sendsLatest None post).
Proof.
  intros run w'.
  assert (Hrun : run = Done (false, None) w' (traceOf run)) by (vm_compute; reflexivity).
  assert (Hrange : 0 <= 3 <= MaxInt32) by (unfold MaxInt32; lia).
  split; [reflexivity|]. split; [exact Hrange|]. split; [exact Hrun|].
  exact (only_first_update_sends_callers_object Cluster simRuntime 10 simVerify
           (simUpdateSts 3) simTimer simLogger (withConflicts 2 (simCluster 3)) 3
           (false, None) w' (traceOf run) eq_refl Hrange Hrun).
Defined.

(** * The release steps *)

Section ReleaseProofs.

Local Open Scope string_scope.

Variable World : Type.

Lemma append_empty (s : string) : s +++ EmptyString = s.
Proof. induction s as [|c s IH]; simpl; [reflexivity | now rewrite IH]. Qed.

Lemma append_assoc (s1 s2 s3 : string) : (s1 +++ s2) +++ s3 = s1 +++ s2 +++ s3.
Proof. induction s1 as [|c s1 IH]; simpl; [reflexivity | now rewrite IH]. Qed.

Lemma append_is_empty (s1 s2 : string) : s1 +++ s2 = EmptyString -> s1 = EmptyString /\ s2 = EmptyString.
Proof. destruct s1; simpl; [now split | discriminate]. Qed.

Lemma append_is_cons (s1 s2 : string) c s :
  s1 +++ s2 = String c s ->
  (s1 = EmptyString /\ s2 = String c s) \/ (exists s1', s1 = String c s1' /\ s = s1' +++ s2).
Proof.
  destruct s1 as [|a s1]; simpl; intros H.
  - left. now split.
  - right. injection H as -> <-. now exists s1.
Qed.

(** ** The matcher against the matching relation *)

Lemma Matches_Cat r1 r2 s :
  Matches (Cat r1 r2) s <-> exists s1 s2, s = s1 +++ s2 /\ Matches r1 s1 /\ Matches r2 s2.
Proof.
  split.
  - intros H. inversion H; subst. now exists s1, s2.
  - intros (s1 & s2 & -> & H1 & H2). now constructor.
Qed.

Lemma Matches_Alt r1 r2 s : Matches (Alt r1 r2) s <-> Matches r1 s \/ Matches r2 s.
Proof.
  split.
  - intros H. inversion H; subst; [now left | now right].
  - intros [H|H]; [now apply MatchLeft | now apply MatchRight].
Qed.

Lemma Matches_Eps s : Matches Eps s <-> s = EmptyString.
Proof. split; [intros H; now inversion H | intros ->; constructor]. Qed.

Lemma Matches_Byte c s : Matches (Byte c) s <-> s = String c EmptyString.
Proof. split; [intros H; now inversion H | intros ->; constructor]. Qed.

Lemma Matches_Digit s : Matches Digit s <-> exists c, isDigit c = true /\ s = String c EmptyString.
Proof.
  split.
  - intros H. inversion H; subst. now exists c.
  - intros (c & Hc & ->). now constructor.
Qed.

Lemma Matches_Opt r s : Matches (Opt r) s <-> s = EmptyString \/ Matches r s.
Proof. unfold Opt. rewrite Matches_Alt, Matches_Eps. tauto. Qed.

Lemma nullable_Matches r : nullable r = true <-> Matches r EmptyString.
Proof.
  induction r as [| |c| |r1 IH1 r2 IH2|r1 IH1 r2 IH2|r IH]; simpl.
  - split; [discriminate | intros H; inversion H].
  - split; [constructor | reflexivity].
  - split; [discriminate | intros H; inversion H].
  - split; [discriminate | intros H; inversion H].
  - rewrite andb_true_iff, IH1, IH2, Matches_Cat. split.
    + intros (H1 & H2). now exists EmptyString, EmptyString.
    + intros (s1 & s2 & Heq & H1 & H2). symmetry in Heq.
      apply append_is_empty in Heq. destruct Heq as (-> & ->). now split.
  - rewrite orb_true_iff, IH1, IH2, Matches_Alt. tauto.
  - split; [constructor | reflexivity].
Qed.

(** A match of [r*] that begins with a byte begins with a match of [r]
    that begins with it. *)
Lemma Matches_Star_cons r c s :
  Matches (Star r) (String c s) ->
  exists s1 s2, s = s1 +++ s2 /\ Matches r (String c s1) /\ Matches (Star r) s2.
Proof.
  intros H. remember (Star r) as r' eqn:Hr. remember (String c s) as t eqn:Ht.
  revert s Ht. induction H as [| | | | | | |r0 s1 s2 H1 _ H2 IH2]; try discriminate.
  injection Hr as ->. intros s Ht.
  apply append_is_cons in Ht. destruct Ht as [(-> & ->)|(s1' & -> & ->)].
  - now apply IH2.
  - now exists s1', s2.
Qed.

Lemma deriv_Matches r c s : Matches (deriv r c) s <-> Matches r (String c s).
Proof.
  revert s. induction r as [| |a| |r1 IH1 r2 IH2|r1 IH1 r2 IH2|r IH]; intros s; simpl.
  - split; intros H; inversion H.
  - split; intros H; inversion H.
  - destruct (Ascii.eqb_spec a c) as [->|Hne].
    + rewrite Matches_Eps, Matches_Byte. split; [now intros -> | now intros [= ->]].
    + split; intros H; inversion H; subst. now elim Hne.
  - destruct (isDigit c) eqn:Hc.
    + rewrite Matches_Eps, Matches_Digit. split.
      * intros ->. now exists c.
      * now intros (c0 & _ & [= _ ->]).
    + split; intros H; inversion H; subst. congruence.
  - assert (Hcat : Matches (Cat (deriv r1 c) r2) s
                   <-> exists s1 s2, s = s1 +++ s2 /\ Matches r1 (String c s1) /\ Matches r2 s2).
    { rewrite Matches_Cat. split; intros (s1 & s2 & Heq & H1 & H2); exists s1, s2;
        (split; [exact Heq|]); (split; [now apply IH1 | exact H2]). }
    destruct (nullable r1) eqn:Hn.
    + rewrite Matches_Alt, Hcat, IH2, Matches_Cat. split.
      * intros [(s1 & s2 & -> & H1 & H2)|H2].
        -- now exists (String c s1), s2.
        -- exists EmptyString, (String c s). split; [reflexivity|].
           split; [now apply nullable_Matches | exact H2].
      * intros (s1 & s2 & Heq & H1 & H2). symmetry in Heq.
        apply append_is_cons in Heq. destruct Heq as [(-> & ->)|(s1' & -> & ->)].
        -- now right.
        -- left. now exists s1', s2.
    + rewrite Hcat, Matches_Cat. split.
      * intros (s1 & s2 & -> & H1 & H2). now exists (String c s1), s2.
      * intros (s1 & s2 & Heq & H1 & H2). symmetry in Heq.
        apply append_is_cons in Heq. destruct Heq as [(-> & ->)|(s1' & -> & ->)].
        -- apply nullable_Matches in H1. congruence.
        -- now exists s1', s2.
  - rewrite !Matches_Alt, IH1, IH2. tauto.
  - rewrite Matches_Cat. split.
    + intros (s1 & s2 & -> & H1 & H2). apply IH in H1.
      now apply (MatchMore r (String c s1) s2).
    + intros H. apply Matches_Star_cons in H. destruct H as (s1 & s2 & -> & H1 & H2).
      exists s1, s2. split; [reflexivity|]. split; [now apply IH | exact H2].
Qed.

Lemma MatchString_Matches r s : MatchString r s = true <-> Matches r s.
Proof.
  revert r. induction s as [|c s IH]; intros r; simpl.
  - apply nullable_Matches.
  - rewrite IH. apply deriv_Matches.
Qed.

(** ** What the pattern of a version matches *)

Lemma Matches_Lit t s : Matches (Lit t) s <-> s = t.
Proof.
  revert s. induction t as [|c t IH]; intros s; simpl.
  - apply Matches_Eps.
  - rewrite Matches_Cat. split.
    + intros (s1 & s2 & -> & H1 & H2). apply Matches_Byte in H1. apply IH in H2.
      now subst.
    + intros ->. exists (String c EmptyString), t. split; [reflexivity|].
      split; [constructor | now apply IH].
Qed.

Lemma Matches_Star_Digit s : Matches (Star Digit) s <-> allDigits s = true.
Proof.
  split.
  - intros H. remember (Star Digit) as r eqn:Hr.
    induction H as [| | | | | | |r0 s1 s2 H1 _ H2 IH2]; try discriminate; [reflexivity|].
    injection Hr as ->. apply Matches_Digit in H1. destruct H1 as (c & Hc & ->).
    simpl. rewrite Hc. now apply IH2.
  - induction s as [|c s IH]; simpl; intros H; [constructor|].
    apply andb_true_iff in H. destruct H as (Hc & Hs).
    apply (MatchMore Digit (String c EmptyString) s); [now constructor | now apply IH].
Qed.

Lemma Matches_Plus_Digit s : Matches (Plus Digit) s <-> digitString s.
Proof.
  unfold Plus, digitString. rewrite Matches_Cat. split.
  - intros (s1 & s2 & -> & H1 & H2). apply Matches_Digit in H1.
    destruct H1 as (c & Hc & ->). apply Matches_Star_Digit in H2.
    simpl. rewrite Hc, H2. now split.
  - intros (Hne & H). destruct s as [|c s]; [now elim Hne|].
    simpl in H. apply andb_true_iff in H. destruct H as (Hc & Hs).
    exists (String c EmptyString), s. split; [reflexivity|].
    split; [now constructor | now apply Matches_Star_Digit].
Qed.

Lemma Matches_versionRegxp s : Matches versionRegxp s <-> versionForm s.
Proof.
  unfold versionRegxp, versionForm, betaVersion, stableVersion. split.
  - intros H.
    apply Matches_Cat in H. destruct H as (a & s1 & -> & Ha & H).
    apply Matches_Cat in H. destruct H as (p1 & s2 & -> & Hp1 & H).
    apply Matches_Cat in H. destruct H as (b & s3 & -> & Hb & H).
    apply Matches_Cat in H. destruct H as (p2 & s4 & -> & Hp2 & H).
    apply Matches_Cat in H. destruct H as (c & s5 & -> & Hc & H).
    apply Matches_Byte in Hp1, Hp2. subst p1 p2.
    apply Matches_Plus_Digit in Ha, Hb, Hc.
    exists a, b, c. split; [exact Ha|]. split; [exact Hb|]. split; [exact Hc|].
    apply Matches_Opt in H. destruct H as [->|H].
    + left. now rewrite append_empty.
    + right. apply Matches_Cat in H. destruct H as (t & d & -> & Ht & Hd).
      apply Matches_Lit in Ht. subst t. apply Matches_Plus_Digit in Hd.
      exists d. split; [exact Hd|]. now rewrite !append_assoc.
  - intros (a & b & c & Ha & Hb & Hc & H).
    apply Matches_Plus_Digit in Ha, Hb, Hc.
    assert (Hall : forall suffix,
               Matches (Opt (Cat (Lit "-beta.") (Plus Digit))) suffix ->
               Matches
                 (Cat (Plus Digit)
                    (Cat (Byte ".")
                       (Cat (Plus Digit)
                          (Cat (Byte ".")
                             (Cat (Plus Digit)
                                (Opt (Cat (Lit "-beta.") (Plus Digit))))))))
                 (a +++ "." +++ b +++ "." +++ c +++ suffix)).
    { intros suffix Hsuffix.
      apply MatchCat; [exact Ha|].
      apply (MatchCat _ _ "." (b +++ "." +++ c +++ suffix)); [constructor|].
      apply MatchCat; [exact Hb|].
      apply (MatchCat _ _ "." (c +++ suffix)); [constructor|].
      apply MatchCat; [exact Hc | exact Hsuffix]. }
    destruct H as [->|(d & Hd & ->)].
    + rewrite <- (append_empty c) at 1. apply Hall. apply Matches_Opt. now left.
    + rewrite !append_assoc. apply Hall. apply Matches_Opt. right.
      apply (MatchCat _ _ "-beta." d); [now apply Matches_Lit|].
      now apply Matches_Plus_Digit.
Qed.

(** ** Substrings and lines *)

Lemma prefix_append (p s : string) : prefix p s = true <-> exists post, s = p +++ post.
Proof.
  revert s. induction p as [|a p IH]; intros s.
  - split; [intros _; now exists s | intros _; now destruct s].
  - destruct s as [|b s]; simpl.
    + split; [discriminate | now intros (post & [=])].
    + destruct (ascii_dec a b) as [->|Hne].
      * rewrite IH. split; intros (post & H); exists post; [now rewrite H | now injection H].
      * split; [discriminate | intros (post & [= -> _]); now elim Hne].
Qed.

Lemma Contains_append (s substr : string) :
  Contains s substr = true <-> exists pre post, s = pre +++ substr +++ post.
Proof.
  induction s as [|c s IH].
  - cbn [Contains]. destruct (prefix substr EmptyString) eqn:Hp.
    + split; [intros _|reflexivity]. apply prefix_append in Hp.
      destruct Hp as (post & Hp). now exists EmptyString, post.
    + split; [discriminate|]. intros (pre & post & H). symmetry in H.
      apply append_is_empty in H. destruct H as (-> & H).
      assert (Hp' : prefix substr EmptyString = true) by (apply prefix_append; now exists post).
      congruence.
  - cbn [Contains]. destruct (prefix substr (String c s)) eqn:Hp.
    + split; [intros _|reflexivity]. apply prefix_append in Hp.
      destruct Hp as (post & Hp). now exists EmptyString, post.
    + rewrite IH. split.
      * intros (pre & post & ->). now exists (String c pre), post.
      * intros ([|a pre] & post & H).
        -- assert (Hp' : prefix substr (String c s) = true)
             by (apply prefix_append; now exists post).
           congruence.
        -- injection H as _ ->. now exists pre, post.
Qed.

Lemma noByte_append c (s1 s2 : string) :
  noByte c (s1 +++ s2) = noByte c s1 && noByte c s2.
Proof.
  induction s1 as [|a s1 IH]; simpl; [reflexivity|]. now rewrite IH, andb_assoc.
Qed.

Lemma digits_noByte c (s : string) :
  isDigit c = false -> allDigits s = true -> noByte c s = true.
Proof.
  intros Hc. induction s as [|a s IH]; simpl; [reflexivity|].
  intros H. apply andb_true_iff in H. destruct H as (Ha & Hs).
  rewrite (IH Hs), andb_true_r. destruct (Ascii.eqb_spec a c) as [->|]; [congruence|].
  reflexivity.
Qed.

Lemma Split_line sep (t s : string) :
  noByte sep t = true -> Split (t +++ String sep s) sep = t :: Split s sep.
Proof.
  induction t as [|c t IH]; simpl; intros H.
  - now rewrite Ascii.eqb_refl.
  - apply andb_true_iff in H. destruct H as (Hc & Ht).
    apply negb_true_iff in Hc. rewrite Hc, (IH Ht). reflexivity.
Qed.

Lemma Split_unlines (tags : list string) :
  Forall (fun t => noByte newline t = true) tags ->
  Split (unlines tags) newline = (tags ++ [EmptyString])%list.
Proof.
  induction 1 as [|t tags Ht _ IH]; simpl; [reflexivity|].
  now rewrite (Split_line _ _ _ Ht), IH.
Qed.

Lemma versionTaken_lines (lines : list string) (version : string) :
  (versionTaken lines version = Some (errorString "version already exists")
   <-> exists c, In (String c version) lines)
  /\ (versionTaken lines version = None <-> ~ exists c, In (String c version) lines).
Proof.
  induction lines as [|v lines (IHs & IHn)]; simpl.
  - split; (split; [discriminate || (intros _ (c & [])) | ]).
    + now intros (c & []).
    + reflexivity.
  - destruct v as [|a tail].
    + rewrite IHs, IHn. split; split.
      * intros (c & H). exists c. now right.
      * intros (c & [H|H]); [discriminate | now exists c].
      * intros H (c & [H'|H']); [discriminate | apply H; now exists c].
      * intros H (c & H'). apply H. exists c. now right.
    + destruct (String.eqb_spec tail version) as [->|Hne].
      * split; split.
        -- intros _. exists a. now left.
        -- reflexivity.
        -- discriminate.
        -- intros H. elim H. exists a. now left.
      * rewrite IHs, IHn. split; split.
        -- intros (c & H). exists c. now right.
        -- intros (c & [H|H]); [injection H as _ H; now elim Hne | now exists c].
        -- intros H (c & [H'|H']); [injection H' as _ H'; now elim Hne | apply H; now exists c].
        -- intros H (c & H'). apply H. exists c. now right.
Qed.

(** X12: [ValidateVersion] lets through the versions of the form [N.N.N] and
    [N.N.N-beta.N], each [N] one ASCII digit or more, and no other; for
    any other it returns the error that quotes the version.  It does
    nothing else. *)
Theorem validate_version_form (version : string) (w : World) :
  snd (ValidateVersion version w) = w
  /\ (fst (ValidateVersion version w) = None <-> versionForm version)
  /\ (~ versionForm version ->
      fst (ValidateVersion version w)
      = Some (errorString ("invalid version '" +++ version
                           +++ "'. Must be of the form N.N.N(-beta.N)"))).
Proof.
  unfold ValidateVersion.
  pose proof (MatchString_Matches versionRegxp version) as Hm.
  rewrite Matches_versionRegxp in Hm.
  destruct (MatchString versionRegxp version); simpl.
  - split; [reflexivity|]. split.
    + split; [intros _; now apply Hm | reflexivity].
    + intros Hn. elim Hn. now apply Hm.
  - split; [reflexivity|]. split.
    + split; [discriminate | intros H; apply Hm in H; discriminate].
    + reflexivity.
Qed.

(** X13: [GenerateFiles] runs [make release/gen-files] once, with the
    environment of the process, for the channel [beta] and not as the
    default when [-beta] occurs anywhere in the version, and for the
    channel [stable] as the default otherwise. *)
Theorem generate_files_channel (os : Os World) (fn : ExecFn World) (version : string)
    (w : World) :
  ((exists pre post, version = pre +++ "-beta" +++ post) ->
   GenerateFiles os fn version w
   = fn "make" ["release/gen-files"; "CHANNEL=beta"; "IS_DEFAULT_CHANNEL=0"]
       (Environ os w) w)
  /\ (~ (exists pre post, version = pre +++ "-beta" +++ post) ->
      GenerateFiles os fn version w
      = fn "make" ["release/gen-files"; "CHANNEL=stable"; "IS_DEFAULT_CHANNEL=1"]
          (Environ os w) w).
Proof.
  unfold GenerateFiles. pose proof (Contains_append version "-beta") as Hc.
  destruct (Contains version "-beta").
  - split; [reflexivity|]. intros Hn. elim Hn. now apply Hc.
  - split; [|reflexivity]. intros H. apply Hc in H. discriminate.
Qed.

(** X14: for a version that [ValidateVersion] lets through, [GenerateFiles]
    picks the channel by the form of the version: [stable] and default
    for [N.N.N], [beta] and not default for [N.N.N-beta.N]. *)
Theorem generate_files_of_valid_version (os : Os World) (fn : ExecFn World)
    (version : string) (w0 w : World) :
  fst (ValidateVersion version w0) = None ->
  exists a b c,
    digitString a /\ digitString b /\ digitString c
    /\ ((version = stableVersion a b c
         /\ GenerateFiles os fn version w
            = fn "make" ["release/gen-files"; "CHANNEL=stable"; "IS_DEFAULT_CHANNEL=1"]
                (Environ os w) w)
        \/ (exists d,
               digitString d /\ version = betaVersion a b c d
               /\ GenerateFiles os fn version w
                  = fn "make" ["release/gen-files"; "CHANNEL=beta"; "IS_DEFAULT_CHANNEL=0"]
                      (Environ os w) w)).
Proof.
  unfold ValidateVersion. intros H.
  destruct (MatchString versionRegxp version) eqn:Hm; [|discriminate]. clear H.
  apply MatchString_Matches, Matches_versionRegxp in Hm.
  destruct Hm as (a & b & c & Ha & Hb & Hc & H).
  exists a, b, c. split; [exact Ha|]. split; [exact Hb|]. split; [exact Hc|].
  unfold GenerateFiles. destruct H as [->|(d & Hd & ->)].
  - left. split; [reflexivity|].
    assert (Hno : Contains (stableVersion a b c) "-beta" = false).
    { destruct (Contains (stableVersion a b c) "-beta") eqn:Hcont; [|reflexivity].
      apply Contains_append in Hcont. destruct Hcont as (pre & post & Heq).
      assert (Hclean : noByte "-" (stableVersion a b c) = true).
      { unfold stableVersion. rewrite !noByte_append.
        rewrite (digits_noByte "-" a), (digits_noByte "-" b), (digits_noByte "-" c);
          try reflexivity; [apply Hc | apply Hb | apply Ha]. }
      rewrite Heq, !noByte_append in Hclean. simpl in Hclean.
      rewrite andb_false_r in Hclean. discriminate. }
    now rewrite Hno.
  - right. exists d. split; [exact Hd|]. split; [reflexivity|].
    assert (Hyes : Contains (betaVersion a b c d) "-beta" = true).
    { apply Contains_append. exists (stableVersion a b c), ("." +++ d).
      reflexivity. }
    now rewrite Hyes.
Qed.

(** X15: [EnsureUniqueVersion] runs [git tag] once.  When that fails, the
    error carries what the command wrote to its standard error and the
    text of the failure, and the tags are not looked at.  When it
    succeeds and prints the tags one per line, the step fails with
    [version already exists] exactly when some tag is the version behind
    one more byte, whichever byte that is, and returns nil otherwise. *)
Theorem ensure_unique_version_tags (fn : CmdFn World) (version : string)
    (w w1 : World) (run : CmdRun) :
  fn (Command "git" ["tag"]) w = (run, w1) ->
  (forall err, runError run = Some err ->
     EnsureUniqueVersion fn version w
     = (Some (errorString ("failed to get tags: " +++ stderrBytes run +++ " - "
                           +++ ErrorText err)), w1))
  /\ (forall tags,
        runError run = None ->
        stdoutBytes run = unlines tags ->
        Forall (fun t => noByte newline t = true) tags ->
        exists r,
          EnsureUniqueVersion fn version w = (r, w1)
          /\ (r = Some (errorString "version already exists")
              <-> exists c, In (String c version) tags)
          /\ (r = None <-> ~ exists c, In (String c version) tags)).
Proof.
  intros Hfn. unfold EnsureUniqueVersion. rewrite Hfn. split.
  - intros err ->. reflexivity.
  - intros tags -> -> Htags. rewrite (Split_unlines _ Htags).
    exists (versionTaken (tags ++ [EmptyString])%list version). split; [reflexivity|].
    destruct (versionTaken_lines (tags ++ [EmptyString])%list version) as (Hs & Hn).
    assert (Hin : (exists c, In (String c version) (tags ++ [EmptyString])%list)
                  <-> exists c, In (String c version) tags).
    { split; intros (c & H); exists c.
      - apply in_app_or in H. destruct H as [H|[H|[]]]; [exact H | discriminate].
      - apply in_or_app. now left. }
    rewrite Hs, Hn, Hin. split; reflexivity.
Qed.

End ReleaseProofs.

(** ** The steps on the simulated host *)

Section ReleaseRuns.

Local Open Scope string_scope.

Lemma validate_version_form_witness :
  versionForm "21.1.0-beta.3"
  /\ fst (ValidateVersion "v21.1.0" (simHost []))
     = Some (errorString "invalid version 'v21.1.0'. Must be of the form N.N.N(-beta.N)").
Proof.
  split.
  - apply (proj1 (proj2 (validate_version_form Host "21.1.0-beta.3" (simHost [])))).
    reflexivity.
  - apply (proj2 (proj2 (validate_version_form Host "v21.1.0" (simHost [])))).
    intros H.
    apply (proj1 (proj2 (validate_version_form Host "v21.1.0" (simHost [])))) in H.
    discriminate.
Defined.

Lemma generate_files_channel_witness :
  GenerateFiles simOs simExec "21.1.0-beta.3" (simHost [])
  = simExec "make" ["release/gen-files"; "CHANNEL=beta"; "IS_DEFAULT_CHANNEL=0"]
      ["HOME=/root"] (simHost []).
Proof.
  apply (proj1 (generate_files_channel Host simOs simExec "21.1.0-beta.3" (simHost []))).
  exists "21.1.0", ".3". reflexivity.
Defined.

Lemma generate_files_of_valid_version_witness :
  fst (ValidateVersion "21.1.0" (simHost [])) = None
  /\ exists a b c,
       digitString a /\ digitString b /\ digitString c
       /\ (("21.1.0" = stableVersion a b c
            /\ GenerateFiles simOs simExec "21.1.0" (simHost [])
               = simExec "make"
                   ["release/gen-files"; "CHANNEL=stable"; "IS_DEFAULT_CHANNEL=1"]
                   (Environ simOs (simHost [])) (simHost []))
           \/ (exists d,
                  digitString d /\ "21.1.0" = betaVersion a b c d
                  /\ GenerateFiles simOs simExec "21.1.0" (simHost [])
                     = simExec "make"
                         ["release/gen-files"; "CHANNEL=beta"; "IS_DEFAULT_CHANNEL=0"]
                         (Environ simOs (simHost [])) (simHost []))).
Proof.
  split; [reflexivity|].
  apply (generate_files_of_valid_version Host simOs simExec "21.1.0" (simHost [])
           (simHost [])).
  reflexivity.
Defined.

Lemma ensure_unique_version_tags_witness :
  let w := simHost ["v21.1.0"; "v21.1.1"] in
  simGit (Command "git" ["tag"]) w
  = ({| stdoutBytes := unlines ["v21.1.0"; "v21.1.1"]; stderrBytes := EmptyString;
        runError := None |}, w)
  /\ exists r,
       EnsureUniqueVersion simGit "21.1.1" w = (r, w)
       /\ (r = Some (errorString "version already exists")
           <-> exists c, In (String c "21.1.1") ["v21.1.0"; "v21.1.1"]).
Proof.
  intros w. split; [reflexivity|].
  destruct (ensure_unique_version_tags Host simGit "21.1.1" w w
              {| stdoutBytes := unlines ["v21.1.0"; "v21.1.1"];
                 stderrBytes := EmptyString; runError := None |} eq_refl)
    as (_ & Htags).
  destruct (Htags ["v21.1.0"; "v21.1.1"] eq_refl eq_refl) as (r & Hrun & Htaken & _).
  - repeat constructor.
  - exists r. split; [exact Hrun | exact Htaken].
Defined.

End ReleaseRuns.
